(** * Ink: a shallow embedding of the interpreter and the parser

    The development follows the Python sources:
    - [ast_nodes.py]   the AST dataclasses,
    - [interpreter.py] substitution, unification, classification closure,
                       rule application, the fixpoint driver, queries,
    - [parser.py]      the verb-aware clause segmenter and statement dispatch,
    - [lexer.py]       the tokenizer,
    - [cli.py]         the entry point, from the text of the file on.

    Python [str] values are modelled as [string] (the UTF-8 bytes of the text);
    sets are [gset], dictionaries are [gmap]. *)

From stdpp Require Import gmap strings list fin_maps sets.
From Equations Require Import Equations.

Open Scope string_scope.

(** ** ast_nodes.py *)

Record Proposition := mkProposition {
  identifier : string;
  is_variable : bool }.

Record SVOClause := mkSVOClause {
  subject : string;
  subject_is_var : bool;
  verb : string;
  verb_is_var : bool;
  object : string;
  object_is_var : bool }.

Record ClassificationEdge := mkClassificationEdge {
  subtype : string;
  subtype_is_var : bool;
  supertype : string;
  supertype_is_var : bool }.

(** [Union[Proposition, SVOClause, ClassificationEdge]], the three fact shapes. *)
Inductive expr :=
| EProposition (p : Proposition)
| ESVOClause (c : SVOClause)
| EClassificationEdge (e : ClassificationEdge).

Record Rule := mkRule {
  premises : list expr;
  conclusion : expr }.

Record Query := mkQuery {
  expression : expr }.

(** The dataclass field is called [verb]; renamed, as [SVOClause] owns that name. *)
Record VerbDeclaration := mkVerbDeclaration {
  declared_verb : string }.

(** Any object the untyped Python functions may be handed: one of the six
    dataclasses. *)
Inductive ast_node :=
| Expr (e : expr)
| NRule (r : Rule)
| NQuery (q : Query)
| NVerbDeclaration (d : VerbDeclaration).

(** [type(node)] *)
Inductive node_type :=
| TProposition | TSVOClause | TClassificationEdge | TRule | TQuery | TVerbDeclaration.

Definition type_of (n : ast_node) : node_type :=
  match n with
  | Expr (EProposition _) => TProposition
  | Expr (ESVOClause _) => TSVOClause
  | Expr (EClassificationEdge _) => TClassificationEdge
  | NRule _ => TRule
  | NQuery _ => TQuery
  | NVerbDeclaration _ => TVerbDeclaration
  end.

(** Dataclass equality and hashing: structural. *)
#[global] Instance node_type_eq_dec : EqDecision node_type.
Proof. solve_decision. Defined.
#[global] Instance Proposition_eq_dec : EqDecision Proposition.
Proof. solve_decision. Defined.
#[global] Instance SVOClause_eq_dec : EqDecision SVOClause.
Proof. solve_decision. Defined.
#[global] Instance ClassificationEdge_eq_dec : EqDecision ClassificationEdge.
Proof. solve_decision. Defined.
#[global] Instance expr_eq_dec : EqDecision expr.
Proof. solve_decision. Defined.
#[global] Instance Rule_eq_dec : EqDecision Rule.
Proof. solve_decision. Defined.
#[global] Instance Query_eq_dec : EqDecision Query.
Proof. solve_decision. Defined.
#[global] Instance VerbDeclaration_eq_dec : EqDecision VerbDeclaration.
Proof. solve_decision. Defined.
#[global] Instance node_eq_dec : EqDecision ast_node.
Proof. solve_decision. Defined.

#[global] Instance Proposition_countable : Countable Proposition.
Proof.
  refine (inj_countable' (λ p, (identifier p, is_variable p))
            (λ t, mkProposition t.1 t.2) _).
  by intros [].
Defined.
#[global] Instance SVOClause_countable : Countable SVOClause.
Proof.
  refine (inj_countable'
            (λ c, (subject c, subject_is_var c, verb c, verb_is_var c,
                   object c, object_is_var c))
            (λ t, mkSVOClause t.1.1.1.1.1 t.1.1.1.1.2 t.1.1.1.2 t.1.1.2 t.1.2 t.2) _).
  by intros [].
Defined.
#[global] Instance ClassificationEdge_countable : Countable ClassificationEdge.
Proof.
  refine (inj_countable'
            (λ e, (subtype e, subtype_is_var e, supertype e, supertype_is_var e))
            (λ t, mkClassificationEdge t.1.1.1 t.1.1.2 t.1.2 t.2) _).
  by intros [].
Defined.
#[global] Instance expr_countable : Countable expr.
Proof.
  refine (inj_countable'
            (λ e, match e with
                  | EProposition p => inl p
                  | ESVOClause c => inr (inl c)
                  | EClassificationEdge e => inr (inr e)
                  end)
            (λ s, match s with
                  | inl p => EProposition p
                  | inr (inl c) => ESVOClause c
                  | inr (inr e) => EClassificationEdge e
                  end) _).
  by intros [].
Defined.
#[global] Instance Rule_countable : Countable Rule.
Proof.
  refine (inj_countable' (λ r, (premises r, conclusion r))
            (λ t, mkRule t.1 t.2) _).
  by intros [].
Defined.
#[global] Instance Query_countable : Countable Query.
Proof.
  refine (inj_countable' expression mkQuery _). by intros [].
Defined.
#[global] Instance VerbDeclaration_countable : Countable VerbDeclaration.
Proof.
  refine (inj_countable' declared_verb mkVerbDeclaration _). by intros [].
Defined.
#[global] Instance node_countable : Countable ast_node.
Proof.
  refine (inj_countable'
            (λ n, match n with
                  | Expr e => inl e
                  | NRule r => inr (inl r)
                  | NQuery q => inr (inr (inl q))
                  | NVerbDeclaration d => inr (inr (inr d))
                  end)
            (λ s, match s with
                  | inl e => Expr e
                  | inr (inl r) => NRule r
                  | inr (inr (inl q)) => NQuery q
                  | inr (inr (inr d)) => NVerbDeclaration d
                  end) _).
  by intros [].
Defined.

(** ** Exceptions and results *)

(** The [ParseError]s of parser.py, by the message they carry (the text,
    line and column put into the message are left out). *)
Inductive parse_error :=
| UnexpectedToken          (* "Unexpected token ... Expected ..." *)
| ExpectedVerbIdentifier   (* "Expected identifier for verb ..." *)
| ExpectedProposition      (* "Expected identifier or variable for proposition ..." *)
| MultipleVerbs            (* "Multiple verbs found in SVO clause ..." *)
| UndeclaredVerb           (* "Undeclared verb in SVO clause ..." *)
| MissingSubject           (* "SVO clause must have a subject before the verb ..." *)
| MissingObject            (* "SVO clause must have an object after the verb ..." *)
| ExpectedSupertype        (* "Expected identifier or variable for supertype ..." *)
| ExpectedExpression       (* "Expected identifier or variable at line ..." *)
| UnexpectedKeyword        (* "Unexpected keyword ..." *)
| UnexpectedStatement.     (* "Unexpected token ..." at the start of a statement *)

Inductive exception :=
| TypeError_substitution (t : node_type)
    (* "Unsupported node type for substitution: {type(node)}" *)
| TypeError_unification (t : node_type)
    (* "Unsupported node type for unification: {type(pattern)}" *)
| RuntimeError (cause : exception)
    (* "Runtime error during program evaluation: {e}" *)
| ParseError (e : parse_error)
| IndexError.
    (* [self.tokens[-1]] on an empty token list *)

(** The outcome of a call: a value, a raised exception, or a loop cut short
    by the iteration budget of the model. *)
Inductive result (A : Type) :=
| Ok (a : A)
| Raise (e : exception)
| OutOfFuel.
Arguments Ok {A} a.
Arguments Raise {A} e.
Arguments OutOfFuel {A}.

Definition bind {A B} (r : result A) (k : A → result B) : result B :=
  match r with
  | Ok a => k a
  | Raise e => Raise e
  | OutOfFuel => OutOfFuel
  end.

Notation "x ←! r ; k" := (bind r (λ x, k))
  (at level 20, r at level 100, k at level 200, only parsing, right associativity).

Abbreviation substitution := (gmap string string).

(** ** interpreter.py *)

(** [subst[name] if is_var and name in subst else name] *)
Definition subst_slot (name : string) (is_var : bool) (subst : substitution) : string :=
  if is_var then default name (subst !! name) else name.

(** [is_var and name not in subst] *)
Definition subst_flag (name : string) (is_var : bool) (subst : substitution) : bool :=
  is_var && bool_decide (subst !! name = None).

Definition apply_substitution (node : ast_node) (subst : substitution) : result ast_node :=
  match node with
  | Expr (EProposition p) =>
      if is_variable p then
        match subst !! identifier p with
        | Some v => Ok (Expr (EProposition (mkProposition v false)))
        | None => Ok node
        end
      else Ok node
  | Expr (ESVOClause c) =>
      Ok (Expr (ESVOClause (mkSVOClause
        (subst_slot (subject c) (subject_is_var c) subst)
        (subst_flag (subject c) (subject_is_var c) subst)
        (subst_slot (verb c) (verb_is_var c) subst)
        (subst_flag (verb c) (verb_is_var c) subst)
        (subst_slot (object c) (object_is_var c) subst)
        (subst_flag (object c) (object_is_var c) subst))))
  | Expr (EClassificationEdge e) =>
      Ok (Expr (EClassificationEdge (mkClassificationEdge
        (subst_slot (subtype e) (subtype_is_var e) subst)
        (subst_flag (subtype e) (subtype_is_var e) subst)
        (subst_slot (supertype e) (supertype_is_var e) subst)
        (subst_flag (supertype e) (supertype_is_var e) subst))))
  | _ => Raise (TypeError_substitution (type_of node))
  end.

Definition _unify_proposition (pattern fact : Proposition) (subst : substitution)
    : option substitution :=
  if is_variable pattern then
    match subst !! identifier pattern with
    | Some bound =>
        if decide (bound = identifier fact) then Some subst else None
    | None => Some (<[identifier pattern := identifier fact]> subst)
    end
  else if is_variable fact then
    match subst !! identifier fact with
    | Some bound =>
        if decide (bound = identifier pattern) then Some subst else None
    | None => Some (<[identifier fact := identifier pattern]> subst)
    end
  else if decide (identifier pattern = identifier fact) then Some subst
  else None.

Definition _unify_svo_clause (pattern fact : SVOClause) (subst : substitution)
    : option substitution :=
  subst ← _unify_proposition
             (mkProposition (subject pattern) (subject_is_var pattern))
             (mkProposition (subject fact) (subject_is_var fact)) subst;
  subst ← _unify_proposition
             (mkProposition (verb pattern) (verb_is_var pattern))
             (mkProposition (verb fact) (verb_is_var fact)) subst;
  _unify_proposition
    (mkProposition (object pattern) (object_is_var pattern))
    (mkProposition (object fact) (object_is_var fact)) subst.

Definition _unify_classification_edge (pattern fact : ClassificationEdge)
    (subst : substitution) : option substitution :=
  subst ← _unify_proposition
             (mkProposition (subtype pattern) (subtype_is_var pattern))
             (mkProposition (subtype fact) (subtype_is_var fact)) subst;
  _unify_proposition
    (mkProposition (supertype pattern) (supertype_is_var pattern))
    (mkProposition (supertype fact) (supertype_is_var fact)) subst.

Definition unify (pattern fact : ast_node) (subst : substitution)
    : result (option substitution) :=
  pattern ←! apply_substitution pattern subst;
  fact ←! apply_substitution fact subst;
  if negb (bool_decide (type_of pattern = type_of fact)) then Ok None
  else
    match pattern, fact with
    | Expr (EProposition p), Expr (EProposition f) =>
        Ok (_unify_proposition p f subst)
    | Expr (ESVOClause p), Expr (ESVOClause f) =>
        Ok (_unify_svo_clause p f subst)
    | Expr (EClassificationEdge p), Expr (EClassificationEdge f) =>
        Ok (_unify_classification_edge p f subst)
    | _, _ => Raise (TypeError_unification (type_of pattern))
    end.

(** *** compute_classification_closure *)

(** The body of the two nested [for] loops for one pair of edges: the guard
    and, when it holds, the edge [A⊑C] built from [edge1 = A⊑B] and
    [edge2 = B⊑C]. *)
Definition transitive_edge (edge1 edge2 : ClassificationEdge)
    : option ClassificationEdge :=
  if negb (supertype_is_var edge1) && negb (subtype_is_var edge2)
     && bool_decide (supertype edge1 = subtype edge2)
  then Some (mkClassificationEdge (subtype edge1) (subtype_is_var edge1)
                                  (supertype edge2) (supertype_is_var edge2))
  else None.

(** One step of the inner loop; the state is [(new_edges, changed)]. *)
Definition closure_step (closure : gset ClassificationEdge)
    (edge1 edge2 : ClassificationEdge) (st : gset ClassificationEdge * bool)
    : gset ClassificationEdge * bool :=
  match transitive_edge edge1 edge2 with
  | Some new_edge =>
      if decide (new_edge ∈ closure) then st else ({[ new_edge ]} ∪ st.1, true)
  | None => st
  end.

(** One iteration of the [while] loop up to [closure.update]: both [for]
    loops over the current closure, from [new_edges = set()] and
    [changed = False]. *)
Definition closure_pass (closure : gset ClassificationEdge)
    : gset ClassificationEdge * bool :=
  set_fold (λ edge1 st, set_fold (closure_step closure edge1) st closure)
           (∅, false) closure.

(** Every edge [A⊑C] with [A] the subtype end of an edge of the set and [C]
    the supertype end of one: the loop never leaves this finite set, which
    bounds the number of iterations. *)
Definition closure_candidates (closure : gset ClassificationEdge)
    : gset ClassificationEdge :=
  set_bind (λ edge1 : ClassificationEdge,
    set_map (C := gset ClassificationEdge) (D := gset ClassificationEdge)
      (λ edge2 : ClassificationEdge,
        mkClassificationEdge (subtype edge1) (subtype_is_var edge1)
                             (supertype edge2) (supertype_is_var edge2))
      closure) closure.

Definition closure_measure (closure : gset ClassificationEdge) : nat :=
  size (closure_candidates closure) - size closure.

Lemma transitive_edge_Some edge1 edge2 new_edge :
  transitive_edge edge1 edge2 = Some new_edge ↔
  supertype_is_var edge1 = false ∧ subtype_is_var edge2 = false ∧
  supertype edge1 = subtype edge2 ∧
  new_edge = mkClassificationEdge (subtype edge1) (subtype_is_var edge1)
               (supertype edge2) (supertype_is_var edge2).
Proof.
  unfold transitive_edge.
  destruct (supertype_is_var edge1), (subtype_is_var edge2); simpl;
    try (split; [discriminate | naive_solver]).
  case_bool_decide; split; naive_solver.
Qed.


Lemma closure_step_spec closure edge1 edge2 st :
  let r := closure_step closure edge1 edge2 st in
  (∀ x, x ∈ r.1 ↔ x ∈ st.1 ∨ (transitive_edge edge1 edge2 = Some x ∧ x ∉ closure)) ∧
  (r.2 = true ↔ st.2 = true ∨
     ∃ x, transitive_edge edge1 edge2 = Some x ∧ x ∉ closure).
Proof.
  simpl. unfold closure_step.
  destruct (transitive_edge edge1 edge2) as [new_edge|] eqn:Ht.
  - destruct (decide (new_edge ∈ closure)) as [Hin|Hin]; simpl.
    + split.
      * intros x. split; [by left|]. intros [?|[[= <-] ?]]; done.
      * split; [by left|]. intros [?|(x&[= <-]&?)]; done.
    + split.
      * intros x. rewrite elem_of_union, elem_of_singleton. split.
        -- intros [->|?]; [by right|by left].
        -- intros [?|[[= <-] ?]]; [by right|by left].
      * split; [|done]. intros _. right. by exists new_edge.
  - split.
    + intros x. split; [by left|]. intros [?|[? ?]]; done.
    + split; [by left|]. intros [?|(x&?&?)]; done.
Qed.

Lemma closure_inner_spec closure edge1 st (X : gset ClassificationEdge) :
  let r := set_fold (closure_step closure edge1) st X in
  (∀ x, x ∈ r.1 ↔ x ∈ st.1 ∨
     ∃ edge2, edge2 ∈ X ∧ transitive_edge edge1 edge2 = Some x ∧ x ∉ closure) ∧
  (r.2 = true ↔ st.2 = true ∨
     ∃ edge2 x, edge2 ∈ X ∧ transitive_edge edge1 edge2 = Some x ∧ x ∉ closure).
Proof.
  simpl. revert X.
  apply (set_fold_ind_L (λ r X,
    (∀ x, x ∈ r.1 ↔ x ∈ st.1 ∨
       ∃ edge2, edge2 ∈ X ∧ transitive_edge edge1 edge2 = Some x ∧ x ∉ closure) ∧
    (r.2 = true ↔ st.2 = true ∨
       ∃ edge2 x, edge2 ∈ X ∧ transitive_edge edge1 edge2 = Some x ∧ x ∉ closure))).
  - split.
    + intros x. split; [by left|]. intros [?|(e&He&_)]; [done|].
      by apply not_elem_of_empty in He.
    + split; [by left|]. intros [?|(e&x&He&_)]; [done|].
      by apply not_elem_of_empty in He.
  - intros e X r Hne [IH1 IH2].
    destruct (closure_step_spec closure edge1 e r) as [S1 S2]. simpl in S1, S2.
    split.
    + intros x. rewrite S1, IH1. split.
      * intros [[?|(e2&?&?&?)]|[? ?]].
        -- by left.
        -- right. exists e2. split; [|done]. apply elem_of_union. by right.
        -- right. exists e. split; [|done]. apply elem_of_union. left.
           by apply elem_of_singleton.
      * intros [?|(e2&[->%elem_of_singleton|?]%elem_of_union&?&?)].
        -- left. by left.
        -- by right.
        -- left. right. by exists e2.
    + rewrite S2, IH2. split.
      * intros [[?|(e2&x&?&?&?)]|(x&?&?)].
        -- by left.
        -- right. exists e2, x. split; [|done]. apply elem_of_union. by right.
        -- right. exists e, x. split; [|done]. apply elem_of_union. left.
           by apply elem_of_singleton.
      * intros [?|(e2&x&[->%elem_of_singleton|?]%elem_of_union&?&?)].
        -- left. by left.
        -- right. by exists x.
        -- left. right. by exists e2, x.
Qed.

Lemma closure_pass_spec closure :
  (∀ x, x ∈ (closure_pass closure).1 ↔
     (∃ edge1 edge2, edge1 ∈ closure ∧ edge2 ∈ closure ∧
        transitive_edge edge1 edge2 = Some x) ∧ x ∉ closure) ∧
  ((closure_pass closure).2 = true ↔ ∃ x, x ∈ (closure_pass closure).1).
Proof.
  unfold closure_pass.
  apply (set_fold_ind_L (λ r (X : gset ClassificationEdge),
    (∀ x, x ∈ r.1 ↔
       (∃ edge1 edge2, edge1 ∈ X ∧ edge2 ∈ closure ∧
          transitive_edge edge1 edge2 = Some x) ∧ x ∉ closure) ∧
    (r.2 = true ↔ ∃ x, x ∈ r.1))).
  - simpl. split.
    + intros x. split; [by intros ?%not_elem_of_empty|].
      intros [(e1&_&He1&_) _]. by apply not_elem_of_empty in He1.
    + split; [done|]. intros [x Hx]. by apply not_elem_of_empty in Hx.
  - intros e1 X r Hne [IH1 IH2].
    destruct (closure_inner_spec closure e1 r closure) as [I1 I2].
    simpl in I1, I2. split.
    + intros x. rewrite I1, IH1. split.
      * intros [[(a&b&?&?&?) ?]|(e2&?&?&?)]; (split; [|done]).
        -- exists a, b. split; [|done]. apply elem_of_union. by right.
        -- exists e1, e2. split; [|done]. apply elem_of_union. left.
           by apply elem_of_singleton.
      * intros [(a&b&[->%elem_of_singleton|?]%elem_of_union&?&?) ?].
        -- right. by exists b.
        -- left. split; [|done]. by exists a, b.
    + rewrite I2, IH2. split.
      * intros [[x Hx]|(e2&x&?&?&?)]; exists x; apply I1.
        -- by left.
        -- right. by exists e2.
      * intros [x [Hx|(e2&?&?&?)]%I1].
        -- left. by exists x.
        -- right. by exists e2, x.
Qed.

Lemma elem_of_closure_candidates closure x :
  x ∈ closure_candidates closure ↔
  ∃ edge1 edge2, edge1 ∈ closure ∧ edge2 ∈ closure ∧
    x = mkClassificationEdge (subtype edge1) (subtype_is_var edge1)
          (supertype edge2) (supertype_is_var edge2).
Proof.
  unfold closure_candidates. rewrite elem_of_set_bind.
  split.
  - intros (e1&He1&(e2&->&He2)%elem_of_map). by exists e1, e2.
  - intros (e1&e2&He1&He2&->). exists e1. split; [done|].
    apply elem_of_map. by exists e2.
Qed.

Lemma closure_subseteq_candidates closure : closure ⊆ closure_candidates closure.
Proof.
  intros x Hx. apply elem_of_closure_candidates. exists x, x.
  by destruct x.
Qed.

Lemma closure_pass_candidates closure :
  (closure_pass closure).1 ⊆ closure_candidates closure.
Proof.
  intros x [(e1&e2&?&?&Ht) _]%closure_pass_spec.
  apply transitive_edge_Some in Ht as (_&_&_&->).
  apply elem_of_closure_candidates. by exists e1, e2.
Qed.

Lemma closure_candidates_update closure new_edges :
  new_edges ⊆ closure_candidates closure →
  closure_candidates (closure ∪ new_edges) = closure_candidates closure.
Proof.
  intros Hsub. apply set_eq. intros x.
  rewrite !elem_of_closure_candidates. split.
  - intros (e1&e2&He1&He2&->).
    assert (∀ e, e ∈ closure ∪ new_edges → ∃ a b, a ∈ closure ∧ b ∈ closure ∧
      subtype e = subtype a ∧ subtype_is_var e = subtype_is_var a ∧
      supertype e = supertype b ∧ supertype_is_var e = supertype_is_var b) as Hends.
    { intros e [He|He]%elem_of_union; [by exists e, e|].
      apply Hsub, elem_of_closure_candidates in He as (a&b&?&?&->).
      by exists a, b. }
    destruct (Hends _ He1) as (a&_&?&_&Ha1&Ha2&_).
    destruct (Hends _ He2) as (_&b&_&?&_&_&Hb1&Hb2).
    exists a, b. by rewrite Ha1, Ha2, Hb1, Hb2.
  - intros (e1&e2&?&?&->). exists e1, e2.
    split; [by apply elem_of_union; left|]. split; [by apply elem_of_union; left|done].
Qed.

Lemma closure_measure_decreases closure new_edges :
  closure_pass closure = (new_edges, true) →
  closure_measure (closure ∪ new_edges) < closure_measure closure.
Proof.
  intros Heq. unfold closure_measure.
  pose proof (closure_pass_spec closure) as [H1 H2].
  pose proof (closure_pass_candidates closure) as Hc.
  rewrite Heq in H1, H2, Hc. simpl in *.
  rewrite closure_candidates_update by done.
  assert (closure ## new_edges) as Hdisj.
  { intros x ? [_ ?]%H1. done. }
  assert (size new_edges ≠ 0) as Hne.
  { destruct H2 as [[x Hx] _]; [done|].
    intros Hz%size_empty_inv. apply Hz in Hx. by apply not_elem_of_empty in Hx. }
  assert (closure ∪ new_edges ⊆ closure_candidates closure) as Hle.
  { pose proof (closure_subseteq_candidates closure) as Hs.
    intros x [?|?]%elem_of_union; [by apply Hs|by apply Hc]. }
  apply subseteq_size in Hle.
  rewrite size_union in Hle |- * by done. lia.
Qed.

(** The value of [a] together with the equation that remembers it. *)
Definition inspect {A} (a : A) : {b | a = b} := exist _ a eq_refl.

(** The [while changed] loop: [closure_pass] is the body, [closure.update]
    runs in every iteration, and the loop goes round again exactly when
    the pass set [changed]. *)
Equations? closure_loop (closure : gset ClassificationEdge)
    : gset ClassificationEdge by wf (closure_measure closure) lt :=
  closure_loop closure with inspect (closure_pass closure) := {
    | exist _ (new_edges, true) Heq => closure_loop (closure ∪ new_edges)
    | exist _ (new_edges, false) Heq => closure ∪ new_edges }.
Proof. by apply closure_measure_decreases. Qed.

Definition compute_classification_closure (edges : gset ClassificationEdge)
    : gset ClassificationEdge :=
  closure_loop edges.

(** *** apply_rule *)

Record Context := mkContext {
  facts : gset ast_node;
  classification_edges : gset ClassificationEdge;
  rules : list Rule;
  verb_lexicon : gset string }.

(** A [for] loop with an accumulator whose body may raise. *)
Fixpoint fold_result {A B} (body : B → A → result B) (acc : B) (l : list A)
    : result B :=
  match l with
  | [] => Ok acc
  | x :: l => acc ←! body acc x; fold_result body acc l
  end.

(** The inner loop of the first phase: [matches] for one premise, the facts
    taken in the iteration order of the set. *)
Fixpoint premise_matches_for (premise : expr) (facts : list ast_node)
    : result (list (ast_node * substitution)) :=
  match facts with
  | [] => Ok []
  | fact :: facts =>
      subst ←! unify (Expr premise) fact ∅;
      matches ←! premise_matches_for premise facts;
      Ok (match subst with
          | Some subst => (fact, subst) :: matches
          | None => matches
          end)
  end.

(** The outer loop of the first phase: [premise_matches]. *)
Fixpoint collect_premise_matches (premises : list expr) (facts : list ast_node)
    : result (list (list (ast_node * substitution))) :=
  match premises with
  | [] => Ok []
  | premise :: premises =>
      matches ←! premise_matches_for premise facts;
      premise_matches ←! collect_premise_matches premises facts;
      Ok (matches :: premise_matches)
  end.

(** [itertools.product] over the given pools *)
Fixpoint product {A} (pools : list (list A)) : list (list A) :=
  match pools with
  | [] => [[]]
  | pool :: pools => x ← pool; (x ::.) <$> product pools
  end.

(** The body of [for var, value in subst.items()]; [None] is
    [valid = False], after which the loops are left. *)
Definition merge_binding (var value : string) (acc : option substitution)
    : option substitution :=
  combined_subst ← acc;
  match combined_subst !! var with
  | Some bound => if decide (bound = value) then Some combined_subst else None
  | None => Some (<[var := value]> combined_subst)
  end.

(** The body of [for fact, subst in combination]. *)
Definition merge_substitution (acc : option substitution)
    (entry : ast_node * substitution) : option substitution :=
  map_fold merge_binding acc entry.2.

Definition combine_substitutions (combination : list (ast_node * substitution))
    : option substitution :=
  foldl merge_substitution (Some ∅) combination.

(** The body of [for combination in product] over [premise_matches]. *)
Definition derive_step (rule : Rule) (context : Context)
    (derived_facts : gset ast_node) (combination : list (ast_node * substitution))
    : result (gset ast_node) :=
  match combine_substitutions combination with
  | Some combined_subst =>
      derived_fact ←! apply_substitution (Expr (conclusion rule)) combined_subst;
      Ok (if decide (derived_fact ∈ facts context) then derived_facts
          else {[ derived_fact ]} ∪ derived_facts)
  | None => Ok derived_facts
  end.

Definition apply_rule (rule : Rule) (context : Context) : result (gset ast_node) :=
  premise_matches ←!
    collect_premise_matches (premises rule) (elements (facts context));
  if existsb (λ matches, bool_decide (length matches = 0)) premise_matches
  then Ok ∅
  else fold_result (derive_step rule context) ∅ (product premise_matches).

(** *** fixpoint *)

(** [isinstance(f, ClassificationEdge)] *)
Definition is_classification_edge (f : ast_node) : bool :=
  match f with
  | Expr (EClassificationEdge _) => true
  | _ => false
  end.

Definition as_classification_edge (f : ast_node) : option ClassificationEdge :=
  match f with
  | Expr (EClassificationEdge e) => Some e
  | _ => None
  end.

Definition edge_node (e : ClassificationEdge) : ast_node :=
  Expr (EClassificationEdge e).

(** One round of the [while True] loop up to the test of [new_facts]: the
    context with the closure written back, and the facts the rules derive
    from it. *)
Definition fixpoint_round (context : Context) : result (Context * gset ast_node) :=
  let closed_edges := compute_classification_closure (classification_edges context) in
  let non_classification_facts :=
    filter (λ f, is_classification_edge f = false) (facts context) in
  let context :=
    {| facts := non_classification_facts ∪ set_map edge_node closed_edges;
       classification_edges := closed_edges;
       rules := rules context;
       verb_lexicon := verb_lexicon context |} in
  new_facts ←! fold_result
    (λ new_facts rule, derived ←! apply_rule rule context; Ok (new_facts ∪ derived))
    ∅ (rules context);
  Ok (context, new_facts).

(** The tail of a round that derived something: [context.facts.update] and
    the loop over [new_facts] that extends [classification_edges]. *)
Definition add_new_facts (context : Context) (new_facts : gset ast_node) : Context :=
  {| facts := facts context ∪ new_facts;
     classification_edges :=
       classification_edges context ∪ set_omap as_classification_edge new_facts;
     rules := rules context;
     verb_lexicon := verb_lexicon context |}.

(** [fuel] bounds the number of rounds. *)
Fixpoint fixpoint (fuel : nat) (context : Context) : result Context :=
  match fuel with
  | 0 => OutOfFuel
  | S fuel =>
      round ←! fixpoint_round context;
      if bool_decide (size round.2 = 0) then Ok round.1
      else fixpoint fuel (add_new_facts round.1 round.2)
  end.

(** *** evaluate_query *)

Definition derivable : string := "⊤".
Definition not_derivable : string := "?".

(** The [for fact in context.facts] loop, left at the first fact that unifies. *)
Fixpoint query_loop (expression : ast_node) (facts : list ast_node) : result string :=
  match facts with
  | [] => Ok not_derivable
  | fact :: facts =>
      result ←! unify expression fact ∅;
      match result with
      | Some _ => Ok derivable
      | None => query_loop expression facts
      end
  end.

Definition evaluate_query (query : ast_node) (context : Context) : result string :=
  let expression :=
    match query with
    | NQuery q => Expr (expression q)
    | _ => query
    end in
  query_loop expression (elements (facts context)).

(** *** eval_program *)

(** The four buckets of the first loop. *)
Definition verb_declarations_of (ast : list ast_node) : list VerbDeclaration :=
  omap (λ n, match n with NVerbDeclaration d => Some d | _ => None end) ast.
Definition queries_of (ast : list ast_node) : list Query :=
  omap (λ n, match n with NQuery q => Some q | _ => None end) ast.
Definition rules_of (ast : list ast_node) : list Rule :=
  omap (λ n, match n with NRule r => Some r | _ => None end) ast.
(** The [else] branch of the bucketing loop: neither a verb declaration,
    nor a query, nor a rule. *)
Definition is_assertion (n : ast_node) : bool :=
  match n with
  | NVerbDeclaration _ | NQuery _ | NRule _ => false
  | _ => true
  end.
Definition assertions_of (ast : list ast_node) : list ast_node :=
  filter (λ n, is_assertion n = true) ast.

(** The context [eval_program] hands to [fixpoint]. *)
Definition initial_context (ast : list ast_node) : Context :=
  let verb_lexicon := list_to_set (declared_verb <$> verb_declarations_of ast) in
  let facts : gset ast_node := list_to_set (assertions_of ast) in
  let classification_edges := set_omap as_classification_edge facts in
  {| facts := facts;
     classification_edges := classification_edges;
     rules := rules_of ast;
     verb_lexicon := verb_lexicon |}.

(** The last loop: each query is evaluated and its symbol printed; [stdout]
    holds the lines printed so far. *)
Fixpoint print_queries (queries : list Query) (context : Context)
    (stdout : list string) : list string * result () :=
  match queries with
  | [] => (stdout, Ok ())
  | query :: queries =>
      match evaluate_query (NQuery query) context with
      | Ok result => print_queries queries context (stdout ++ [result])
      | Raise e => (stdout, Raise e)
      | OutOfFuel => (stdout, OutOfFuel)
      end
  end.

(** [except Exception as e: raise RuntimeError(...) from e] *)
Definition wrap_runtime_error {A} (r : result A) : result A :=
  match r with
  | Raise e => Raise (RuntimeError e)
  | _ => r
  end.

(** The lines written to standard output and how the call ends. *)
Definition eval_program (fuel : nat) (ast : list ast_node) : list string * result () :=
  match fixpoint fuel (initial_context ast) with
  | Ok final_context =>
      let out := print_queries (queries_of ast) final_context [] in
      (out.1, wrap_runtime_error out.2)
  | Raise e => ([], Raise (RuntimeError e))
  | OutOfFuel => ([], OutOfFuel)
  end.


(** ** parser.py *)

Module Parser.

Inductive TokenType := INDENT | NEWLINE | KEYWORD | VARIABLE | IDENTIFIER | EOF.

#[global] Instance TokenType_eq_dec : EqDecision TokenType.
Proof. solve_decision. Defined.

Record Token := mkToken {
  type : TokenType;
  value : string;
  line : nat;
  column : nat }.

(** The parser object: the token list, the cursor and the verb lexicon. *)
Record Parser := mkParser {
  tokens : list Token;
  position : nat;
  verb_lexicon : gset string }.

(** A method of [Parser]: it reads and updates [self] and may raise. *)
Definition parser (A : Type) : Type := Parser → result (A * Parser).

Definition ret {A} (a : A) : parser A := λ self, Ok (a, self).
Definition raise {A} (e : parse_error) : parser A := λ _, Raise (ParseError e).
Definition out_of_fuel {A} : parser A := λ _, OutOfFuel.
Definition pbind {A B} (m : parser A) (k : A → parser B) : parser B :=
  λ self,
    match m self with
    | Ok (a, self) => k a self
    | Raise e => Raise e
    | OutOfFuel => OutOfFuel
    end.

Notation "x ←$ m ; k" := (pbind m (λ x, k))
  (at level 20, m at level 100, k at level 200, only parsing, right associativity).

(** *** str methods

    A [str] is held as the bytes of its UTF-8 encoding, so positions and
    lengths count bytes.  An occurrence of one well-formed text inside
    another starts and ends on character boundaries, hence the tests the
    parser makes on positions ([pos == 0], [pos + len(verb) >= len(text)])
    and the slices it takes are the same as on characters. *)

(** [text.find(sub)]: the lowest index at which [sub] occurs in [text]. *)
Fixpoint find (text sub : string) : option nat :=
  if String.prefix sub text then Some 0
  else match text with
       | EmptyString => None
       | String _ text => S <$> find text sub
       end.

(** [text[:n]] and [text[n:]] *)
Fixpoint str_take (n : nat) (text : string) : string :=
  match n, text with
  | S n, String c text => String c (str_take n text)
  | _, _ => EmptyString
  end.
Fixpoint str_drop (n : nat) (text : string) : string :=
  match n, text with
  | S n, String _ text => str_drop n text
  | _, _ => text
  end.

(** [s.startswith('其')], the marker of a variable. *)
Definition variable_marker : string := "其".
Definition is_marked (s : string) : bool := String.prefix variable_marker s.

(** [''.join(parts)] *)
Definition join (parts : list string) : string := String.concat "" parts.

(** *** Token access *)

Definition peek (offset : nat) : parser Token := λ self,
  match tokens self !! (position self + offset) with
  | Some token => Ok (token, self)
  | None =>
      match last (tokens self) with
      | Some token => Ok (token, self)
      | None => Raise IndexError
      end
  end.

Definition advance : parser Token :=
  token ←$ peek 0;
  if bool_decide (type token ≠ EOF)
  then λ self, Ok (token, mkParser (tokens self) (position self + 1) (verb_lexicon self))
  else ret token.

Definition expect (token_type : TokenType) (val : option string) : parser Token :=
  token ←$ peek 0;
  if bool_decide (type token ≠ token_type) then raise UnexpectedToken
  else
    match val with
    | Some val =>
        if bool_decide (value token ≠ val) then raise UnexpectedToken else advance
    | None => advance
    end.

(** *** parse_verb_declaration, parse_proposition *)

Definition parse_verb_declaration : parser VerbDeclaration :=
  _ ←$ expect KEYWORD (Some "以");
  verb_token ←$ peek 0;
  if bool_decide (type verb_token ≠ IDENTIFIER ∧ type verb_token ≠ VARIABLE)
  then raise ExpectedVerbIdentifier
  else
    verb_token ←$ advance;
    let verb := value verb_token in
    _ ←$ expect KEYWORD (Some "為");
    _ ←$ expect KEYWORD (Some "動");
    λ self,
      Ok (mkVerbDeclaration verb,
          mkParser (tokens self) (position self) ({[ verb ]} ∪ verb_lexicon self)).

Definition parse_proposition : parser Proposition :=
  _ ←$ expect KEYWORD (Some "曰");
  token ←$ peek 0;
  if bool_decide (type token = VARIABLE) then
    token ←$ advance; ret (mkProposition (value token) true)
  else if bool_decide (type token = IDENTIFIER) then
    token ←$ advance; ret (mkProposition (value token) false)
  else raise ExpectedProposition.

(** *** parse_svo_clause *)

(** The [while True] loop that collects the identifier and variable tokens
    of the clause; [fuel] bounds its iterations. *)
Fixpoint collect_identifiers (fuel : nat) (identifiers : list Token)
    : parser (list Token) :=
  match fuel with
  | 0 => out_of_fuel
  | S fuel =>
      token ←$ peek 0;
      if bool_decide (type token = NEWLINE ∨ type token = EOF ∨ type token = KEYWORD)
      then ret identifiers
      else if bool_decide (type token = IDENTIFIER ∨ type token = VARIABLE) then
        token ←$ advance; collect_identifiers fuel (identifiers ++ [token])
      else
        _ ←$ advance; collect_identifiers fuel identifiers
  end.

(** The body of [for verb in self.verb_lexicon]; the state is
    [(verb_found, verb_pos)], [None] while [verb_found is None]. *)
Definition find_verb_step (text : string) (found : option (string * nat))
    (verb : string) : result (option (string * nat)) :=
  match find text verb with
  | Some pos =>
      match found with
      | Some _ => Raise (ParseError MultipleVerbs)
      | None => Ok (Some (verb, pos))
      end
  | None => Ok found
  end.

(** The single-token case: the verb is searched inside the text. *)
Definition split_single_token (lexicon : gset string) (text : string)
    : result SVOClause :=
  found ←! fold_result (find_verb_step text) None (elements lexicon);
  match found with
  | None => Raise (ParseError UndeclaredVerb)
  | Some (verb_found, verb_pos) =>
      if bool_decide (verb_pos = 0) then Raise (ParseError MissingSubject)
      else if bool_decide (String.length text ≤ verb_pos + String.length verb_found)%nat
      then Raise (ParseError MissingObject)
      else
        let subject := str_take verb_pos text in
        let object_val := str_drop (verb_pos + String.length verb_found) text in
        Ok (mkSVOClause subject (is_marked subject) verb_found false
                        object_val (is_marked object_val))
  end.

(** [[i for i, token in enumerate(identifiers) if token.value in lexicon]] *)
Fixpoint verb_positions_from (lexicon : gset string) (i : nat)
    (identifiers : list Token) : list nat :=
  match identifiers with
  | [] => []
  | token :: identifiers =>
      if bool_decide (value token ∈ lexicon)
      then i :: verb_positions_from lexicon (S i) identifiers
      else verb_positions_from lexicon (S i) identifiers
  end.

(** The multiple-token case: the verb is one of the tokens. *)
Definition split_tokens (lexicon : gset string) (identifiers : list Token)
    : result SVOClause :=
  match verb_positions_from lexicon 0 identifiers with
  | [] => Raise (ParseError UndeclaredVerb)
  | _ :: _ :: _ => Raise (ParseError MultipleVerbs)
  | [verb_pos] =>
      if bool_decide (verb_pos = 0) then Raise (ParseError MissingSubject)
      else if bool_decide (verb_pos = length identifiers - 1)
      then Raise (ParseError MissingObject)
      else
        let subject_tokens := take verb_pos identifiers in
        let object_tokens := drop (verb_pos + 1) identifiers in
        match identifiers !! verb_pos with
        | Some verb_token =>
            Ok (mkSVOClause
                  (join (value <$> subject_tokens))
                  (existsb (λ t, bool_decide (type t = VARIABLE)) subject_tokens)
                  (value verb_token)
                  (bool_decide (type verb_token = VARIABLE))
                  (join (value <$> object_tokens))
                  (existsb (λ t, bool_decide (type t = VARIABLE)) object_tokens))
        | None => Raise IndexError
        end
  end.

Definition parse_svo_clause (fuel : nat) (first_token : Token) : parser SVOClause :=
  identifiers ←$ collect_identifiers fuel [first_token];
  λ self,
    match identifiers with
    | [token] =>
        clause ←! split_single_token (verb_lexicon self) (value token);
        Ok (clause, self)
    | _ =>
        clause ←! split_tokens (verb_lexicon self) identifiers;
        Ok (clause, self)
    end.

(** *** parse_classification_edge *)

(** The loop that collects the supertype; the state is
    [(supertype_parts, supertype_is_var)]. *)
Fixpoint collect_supertype (fuel : nat) (supertype_parts : list string)
    (supertype_is_var : bool) : parser (list string * bool) :=
  match fuel with
  | 0 => out_of_fuel
  | S fuel =>
      token ←$ peek 0;
      if bool_decide (type token = KEYWORD ∧ value token = "也")
      then ret (supertype_parts, supertype_is_var)
      else if bool_decide (type token = IDENTIFIER) then
        token ←$ advance;
        collect_supertype fuel (supertype_parts ++ [value token]) supertype_is_var
      else if bool_decide (type token = VARIABLE) then
        token ←$ advance;
        collect_supertype fuel (supertype_parts ++ [value token]) true
      else if bool_decide (type token = KEYWORD) then
        token ←$ advance;
        collect_supertype fuel (supertype_parts ++ [value token]) supertype_is_var
      else ret (supertype_parts, supertype_is_var)
  end.

Definition parse_classification_edge (fuel : nat) (first_token : Token)
    : parser ClassificationEdge :=
  let subtype := value first_token in
  let subtype_is_var := bool_decide (type first_token = VARIABLE) in
  _ ←$ expect KEYWORD (Some "者");
  collected ←$ collect_supertype fuel [] false;
  match collected.1 with
  | [] => raise ExpectedSupertype
  | _ =>
      let supertype := join collected.1 in
      _ ←$ expect KEYWORD (Some "也");
      ret (mkClassificationEdge subtype subtype_is_var supertype collected.2)
  end.

(** *** parse_expression *)

(** [any(verb in text for verb in self.verb_lexicon)] *)
Definition contains_verb (lexicon : gset string) (text : string) : bool :=
  existsb (λ verb, bool_decide (is_Some (find text verb))) (elements lexicon).

Definition parse_expression (fuel : nat) : parser expr :=
  token ←$ peek 0;
  if bool_decide (type token = KEYWORD ∧ value token = "曰") then
    p ←$ parse_proposition; ret (EProposition p)
  else if bool_decide (type token ≠ IDENTIFIER ∧ type token ≠ VARIABLE) then
    raise ExpectedExpression
  else
    first_token ←$ advance;
    next_token ←$ peek 0;
    if bool_decide (type next_token = KEYWORD ∧ value next_token = "者") then
      e ←$ parse_classification_edge fuel first_token; ret (EClassificationEdge e)
    else
      λ self,
        let proposition :=
          EProposition (mkProposition (value first_token)
                          (bool_decide (type first_token = VARIABLE))) in
        if negb (contains_verb (verb_lexicon self) (value first_token))
           && bool_decide (type next_token = NEWLINE ∨ type next_token = EOF)
        then Ok (proposition, self)
        else if negb (contains_verb (verb_lexicon self) (value first_token))
           && bool_decide (type next_token = KEYWORD ∧
                           (value next_token = "乎" ∨ value next_token = "則"
                            ∨ value next_token = "且"))
        then Ok (proposition, self)
        else (c ←$ parse_svo_clause fuel first_token; ret (ESVOClause c)) self.

(** *** parse_rule, parse_query *)

(** The loop over [且]: further premises. *)
Fixpoint more_premises (fuel : nat) (premises : list expr) : parser (list expr) :=
  match fuel with
  | 0 => out_of_fuel
  | S fuel' =>
      token ←$ peek 0;
      if bool_decide (type token = KEYWORD ∧ value token = "且") then
        _ ←$ advance;
        premise ←$ parse_expression fuel;
        more_premises fuel' (premises ++ [premise])
      else ret premises
  end.

Definition parse_rule (fuel : nat) : parser Rule :=
  _ ←$ expect KEYWORD (Some "若");
  premise ←$ parse_expression fuel;
  premises ←$ more_premises fuel [premise];
  _ ←$ expect KEYWORD (Some "則");
  conclusion ←$ parse_expression fuel;
  ret (mkRule premises conclusion).

Definition parse_query (fuel : nat) : parser Query :=
  _ ←$ expect KEYWORD (Some "問");
  expression ←$ parse_expression fuel;
  _ ←$ expect KEYWORD (Some "乎");
  ret (mkQuery expression).

(** *** parse_statement *)

(** [while self.peek().type in (INDENT, NEWLINE): self.advance()] *)
Fixpoint skip_blank (fuel : nat) : parser () :=
  match fuel with
  | 0 => out_of_fuel
  | S fuel =>
      token ←$ peek 0;
      if bool_decide (type token = INDENT ∨ type token = NEWLINE)
      then _ ←$ advance; skip_blank fuel
      else ret ()
  end.

(** [None] is the end of the input. *)
Definition parse_statement (fuel : nat) : parser (option ast_node) :=
  _ ←$ skip_blank fuel;
  token ←$ peek 0;
  if bool_decide (type token = EOF) then ret None
  else if bool_decide (type token = KEYWORD) then
    if bool_decide (value token = "以") then
      d ←$ parse_verb_declaration; ret (Some (NVerbDeclaration d))
    else if bool_decide (value token = "曰") then
      p ←$ parse_proposition; ret (Some (Expr (EProposition p)))
    else if bool_decide (value token = "若") then
      r ←$ parse_rule fuel; ret (Some (NRule r))
    else if bool_decide (value token = "問") then
      q ←$ parse_query fuel; ret (Some (NQuery q))
    else raise UnexpectedKeyword
  else if bool_decide (type token = IDENTIFIER ∨ type token = VARIABLE) then
    first_token ←$ advance;
    next_token ←$ peek 0;
    if bool_decide (type next_token = KEYWORD ∧ value next_token = "者") then
      e ←$ parse_classification_edge fuel first_token;
      ret (Some (Expr (EClassificationEdge e)))
    else
      c ←$ parse_svo_clause fuel first_token;
      ret (Some (Expr (ESVOClause c)))
  else raise UnexpectedStatement.

(** *** parse_program_internal *)

(** [while self.peek().type == TokenType.NEWLINE: self.advance()] *)
Fixpoint skip_newlines (fuel : nat) : parser () :=
  match fuel with
  | 0 => out_of_fuel
  | S fuel =>
      token ←$ peek 0;
      if bool_decide (type token = NEWLINE)
      then _ ←$ advance; skip_newlines fuel
      else ret ()
  end.

(** The [while True] loop over the statements; [fuel] bounds the number of
    statements and the length of every inner loop. *)
Fixpoint parse_program_loop (fuel : nat) (statements : list ast_node)
    : parser (list ast_node) :=
  match fuel with
  | 0 => out_of_fuel
  | S fuel' =>
      statement ←$ parse_statement fuel;
      match statement with
      | None => ret statements
      | Some statement =>
          _ ←$ skip_newlines fuel;
          parse_program_loop fuel' (statements ++ [statement])
      end
  end.

Definition parse_program_internal (fuel : nat) : parser (list ast_node) :=
  parse_program_loop fuel [].

End Parser.

(** [Parser(tokens)] *)
Definition new_parser (tokens : list Parser.Token) : Parser.Parser :=
  Parser.mkParser tokens 0 ∅.

(** ** lexer.py *)

Module Lexer.

(** The source text is the list of its characters, each its code point.
    [TokenType] and [Token] are the ones of the parser above. *)
Definition char : Type := N.

Definition tab : char := 9%N.
Definition newline : char := 10%N.
Definition carriage_return : char := 13%N.
Definition space : char := 32%N.
Definition underscore : char := 95%N.
(** [其], the marker of a variable, and [＃], the marker of a comment. *)
Definition variable_marker : char := 0x5176%N.
Definition comment_marker : char := 0xFF03%N.

(** [曰 問 乎 若 則 且 者 也 以 為 動] *)
Definition KEYWORDS : gset char :=
  list_to_set
    [0x66F0; 0x554F; 0x4E4E; 0x82E5; 0x5247; 0x4E14; 0x8005; 0x4E5F; 0x4EE5;
     0x70BA; 0x52D5]%N.

(** The UTF-8 bytes of a character, and the [str] of a list of characters as
    the tokens hold it. *)
Definition utf8 (c : char) : list N :=
  (if c <? 0x80 then [c]
   else if c <? 0x800 then [0xC0 + c / 0x40; 0x80 + c mod 0x40]
   else if c <? 0x10000 then
     [0xE0 + c / 0x1000; 0x80 + (c / 0x40) mod 0x40; 0x80 + c mod 0x40]
   else
     [0xF0 + c / 0x40000; 0x80 + (c / 0x1000) mod 0x40;
      0x80 + (c / 0x40) mod 0x40; 0x80 + c mod 0x40])%N.

Definition text (chars : list char) : string :=
  String.string_of_list_ascii (Ascii.ascii_of_N <$> (chars ≫= utf8)).

(** [LexerError], with what its message shows. *)
Record LexerError := mkLexerError {
  invalid_char : char;
  error_line : nat;
  error_column : nat }.

Inductive outcome (A : Type) :=
| Done (a : A)
| Raised (e : LexerError)
| OutOfFuel.
Arguments Done {A} a.
Arguments Raised {A} e.
Arguments OutOfFuel {A}.

(** [isalnum] is [str.isalnum] of the Unicode database in use. *)
Definition is_identifier_char (isalnum : char → bool) (c : char) : bool :=
  if isalnum c then true
  else if bool_decide (c = underscore) then true
  else if ((0x3400 <=? c) && (c <=? 0x4DBF) || (0x4E00 <=? c) && (c <=? 0x9FFF))%N
  then true
  else false.

(** The comment loop: [source] is what is left from index [i] on; the result
    is what is left after the loop and the column. *)
Fixpoint skip_comment (source : list char) (column : nat) : list char * nat :=
  match source with
  | [] => ([], column)
  | c :: rest =>
      if bool_decide (c ≠ newline) then skip_comment rest (column + 1)
      else (source, column)
  end.

(** The identifier loop: the characters collected, what is left, the column. *)
Fixpoint collect_identifier (isalnum : char → bool) (source : list char)
    (identifier : list char) (column : nat) : list char * list char * nat :=
  match source with
  | [] => (identifier, [], column)
  | current_char :: rest =>
      if bool_decide (current_char ∈ KEYWORDS) then (identifier, source, column)
      else if negb (is_identifier_char isalnum current_char)
      then (identifier, source, column)
      else
        collect_identifier isalnum rest (identifier ++ [current_char])%list
          (column + 1)
  end.

(** [identifier.startswith('其')] *)
Definition startswith_marker (identifier : list char) : bool :=
  match identifier with
  | c :: _ => bool_decide (c = variable_marker)
  | [] => false
  end.

(** The main loop; [source] is what is left from index [i] on, [fuel] bounds
    the iterations. *)
Fixpoint tokenize_loop (isalnum : char → bool) (fuel : nat) (source : list char)
    (line column : nat) (tokens : list Parser.Token)
    : outcome (list Parser.Token) :=
  match fuel with
  | 0 => OutOfFuel
  | S fuel =>
      match source with
      | [] => Done (tokens ++ [Parser.mkToken Parser.EOF "" line column])%list
      | c :: rest =>
          if bool_decide (c = tab) then
            tokenize_loop isalnum fuel rest line (column + 1)
              (tokens ++ [Parser.mkToken Parser.INDENT (text [tab]) line column])%list
          else if bool_decide (c = newline) then
            tokenize_loop isalnum fuel rest (line + 1) 1
              (tokens ++
                 [Parser.mkToken Parser.NEWLINE (text [newline]) line column])%list
          else if bool_decide (c = space ∨ c = carriage_return) then
            tokenize_loop isalnum fuel rest line (column + 1) tokens
          else if bool_decide (c = comment_marker) then
            let '(rest, column) := skip_comment source column in
            tokenize_loop isalnum fuel rest line column tokens
          else if bool_decide (c ∈ KEYWORDS) then
            tokenize_loop isalnum fuel rest line (column + 1)
              (tokens ++ [Parser.mkToken Parser.KEYWORD (text [c]) line column])%list
          else if is_identifier_char isalnum c then
            let start_column := column in
            let '(identifier, rest, column) :=
              collect_identifier isalnum source [] column in
            let token_type :=
              if startswith_marker identifier then Parser.VARIABLE
              else Parser.IDENTIFIER in
            tokenize_loop isalnum fuel rest line column
              (tokens ++
                 [Parser.mkToken token_type (text identifier) line start_column])%list
          else Raised (mkLexerError c line column)
      end
  end.

Definition tokenize (isalnum : char → bool) (fuel : nat) (source : list char)
    : outcome (list Parser.Token) :=
  tokenize_loop isalnum fuel source 1 1 [].

End Lexer.

(** [parse_program] of parser.py: the tokens of the source are parsed. *)
Definition parse_program (isalnum : Lexer.char → bool) (fuel : nat)
    (source : list Lexer.char) : Lexer.outcome (result (list ast_node)) :=
  match Lexer.tokenize isalnum fuel source with
  | Lexer.Done tokens =>
      Lexer.Done
        (r ←! Parser.parse_program_internal fuel (new_parser tokens); Ok r.1)
  | Lexer.Raised e => Lexer.Raised e
  | Lexer.OutOfFuel => Lexer.OutOfFuel
  end.

(** ** cli.py *)

Module Cli.

(** What went wrong inside the [try] block of [main]: the parser or the
    interpreter raised, or [print(text)] raised inside [eval_program] (which
    hands it on as a [RuntimeError], as it does with every exception). *)
Inductive failure :=
| Raises (e : exception)
| PrintRaises (text : string).

(** What [main] prints: a line of [eval_program], or one of the three error
    reports. *)
Inductive printed :=
| Line (s : string)
| LexerErrorReport (e : Lexer.LexerError)     (* "Lexer error: ..." *)
| ParseErrorReport (e : parse_error)          (* "Parse error: ..." *)
| RuntimeErrorReport (f : failure).           (* "Runtime error: ..." *)

(** Standard output: whether [print] of a text returns ([true]) or raises
    ([false]: a text the stream cannot encode, a closed stream). *)
Definition stream : Type := printed → bool.

(** How [main] ends: it returns, it calls [sys.exit], or an exception leaves
    it ([print] raised inside an [except] clause). *)
Inductive ending :=
| Returns
| Exits (code : nat)
| Uncaught
| NoFuel.

(** How [eval_program] ends when its [print] calls go to a stream. *)
Inductive outcome :=
| Ended
| Failed (f : failure)
| Unfinished.

(** The last loop of [eval_program] with [print] on the stream [stdout];
    [lines] is what is printed so far. *)
Fixpoint print_queries_on (stdout : stream) (queries : list Query)
    (context : Context) (lines : list printed) : list printed * outcome :=
  match queries with
  | [] => (lines, Ended)
  | query :: queries =>
      match evaluate_query (NQuery query) context with
      | Ok result =>
          if stdout (Line result)
          then print_queries_on stdout queries context (lines ++ [Line result])%list
          else (lines, Failed (PrintRaises result))
      | Raise e => (lines, Failed (Raises (RuntimeError e)))
      | OutOfFuel => (lines, Unfinished)
      end
  end.

(** [eval_program] of interpreter.py as [main] runs it: the steps of
    [eval_program] above, with [print] on the stream [stdout]. *)
Definition eval_program_on (stdout : stream) (rounds : nat) (ast : list ast_node)
    : list printed * outcome :=
  match fixpoint rounds (initial_context ast) with
  | Ok final_context => print_queries_on stdout (queries_of ast) final_context []
  | Raise e => ([], Failed (Raises (RuntimeError e)))
  | OutOfFuel => ([], Unfinished)
  end.

(** The [except] clauses, for what the parser raises. *)
Definition report (e : exception) : printed :=
  match e with
  | ParseError e => ParseErrorReport e
  | _ => RuntimeErrorReport (Raises e)
  end.

(** The body of an [except] clause: [print(text)], then [sys.exit(1)]. *)
Definition report_and_exit (stdout : stream) (lines : list printed)
    (text : printed) : list printed * ending :=
  if stdout text then ((lines ++ [text])%list, Exits 1) else (lines, Uncaught).

(** [main] once the file is read: [source] is its text, [stdout] the stream
    it prints on, [fuel] bounds the loops of the lexer and of the parser,
    [rounds] those of the fixpoint. *)
Definition main (isalnum : Lexer.char → bool) (stdout : stream)
    (fuel rounds : nat) (source : list Lexer.char) : list printed * ending :=
  match parse_program isalnum fuel source with
  | Lexer.Raised e => report_and_exit stdout [] (LexerErrorReport e)
  | Lexer.OutOfFuel => ([], NoFuel)
  | Lexer.Done (Raise e) => report_and_exit stdout [] (report e)
  | Lexer.Done OutOfFuel => ([], NoFuel)
  | Lexer.Done (Ok ast) =>
      match eval_program_on stdout rounds ast with
      | (lines, Ended) => (lines, Returns)
      | (lines, Failed f) => report_and_exit stdout lines (RuntimeErrorReport f)
      | (lines, Unfinished) => (lines, NoFuel)
      end
  end.

End Cli.

(** ** Vocabulary of the statements *)

(** [S] is closed under the rule of the closure: with [A⊑B] and [B⊑C], [B]
    no variable on either side and the same name, it holds [A⊑C], the
    subtype end taken from the first edge and the supertype end from the
    second. *)
Definition transitively_closed (S : gset ClassificationEdge) : Prop :=
  ∀ edge1 edge2, edge1 ∈ S → edge2 ∈ S →
    supertype_is_var edge1 = false → subtype_is_var edge2 = false →
    supertype edge1 = subtype edge2 →
    mkClassificationEdge (subtype edge1) (subtype_is_var edge1)
                         (supertype edge2) (supertype_is_var edge2) ∈ S.

(** Every member of the fact set is a fact: a proposition, an SVO clause or
    a classification edge. *)
Definition facts_are_exprs (S : gset ast_node) : Prop :=
  ∀ f, f ∈ S → ∃ e, f = Expr e.

(** Two entries of a combination bind one variable name to different values. *)
Definition conflicting (combination : list (ast_node * substitution)) : Prop :=
  ∃ i j entry1 entry2 var value1 value2,
    combination !! i = Some entry1 ∧ combination !! j = Some entry2 ∧
    entry1.2 !! var = Some value1 ∧ entry2.2 !! var = Some value2 ∧
    value1 ≠ value2.

(** [merged] holds exactly the bindings of the entries of the combination. *)
Definition merges (combination : list (ast_node * substitution))
    (merged : substitution) : Prop :=
  ∀ var value, merged !! var = Some value ↔
    ∃ entry, entry ∈ combination ∧ entry.2 !! var = Some value.

(** The slot values of a fact: the identifiers it mentions. *)
Definition expr_identifiers (e : expr) : list string :=
  match e with
  | EProposition p => [identifier p]
  | ESVOClause c => [subject c; verb c; object c]
  | EClassificationEdge e => [subtype e; supertype e]
  end.

(** [e] mentions names of [N] only. *)
Definition expr_over (N : gset string) (e : expr) : Prop :=
  ∀ id, id ∈ expr_identifiers e → id ∈ N.

(** [f] is a fact (one of the three shapes) that mentions names of [N] only. *)
Definition fact_over (N : gset string) (f : ast_node) : Prop :=
  ∃ e, f = Expr e ∧ expr_over N e.

(** The rule mentions names of [N] only. *)
Definition rule_over (N : gset string) (rule : Rule) : Prop :=
  (∀ premise, premise ∈ premises rule → expr_over N premise) ∧
  expr_over N (conclusion rule).

(** The invariant of the driver: the facts are facts over [N], the edge set
    is the set of the classification edges among the facts, and the rules
    are rules over [N]. *)
Record context_over (N : gset string) (context : Context) : Prop := {
  over_facts : ∀ f, f ∈ facts context → fact_over N f;
  over_edges :
    classification_edges context = set_omap as_classification_edge (facts context);
  over_rules : ∀ rule, rule ∈ rules context → rule_over N rule }.

(** A slot: a name of [N] with either flag. *)
Definition slots (N : gset string) : gset (string * bool) :=
  set_bind (λ a : string, {[ (a, true); (a, false) ]} : gset (string * bool)) N.

(** Every fact over [N]: the propositions, SVO clauses and classification
    edges whose slots are slots over [N].  The set is finite, which bounds
    the number of rounds of the driver. *)
Definition universe (N : gset string) : gset ast_node :=
  set_map (C := gset (string * bool)) (D := gset ast_node)
    (λ s, Expr (EProposition (mkProposition s.1 s.2))) (slots N)
  ∪ set_bind (λ s1 : string * bool,
      set_bind (λ s2 : string * bool,
        set_map (C := gset (string * bool)) (D := gset ast_node)
          (λ s3, Expr (ESVOClause (mkSVOClause s1.1 s1.2 s2.1 s2.2 s3.1 s3.2)))
          (slots N)) (slots N) : gset ast_node) (slots N)
  ∪ set_bind (λ s1 : string * bool,
      set_map (C := gset (string * bool)) (D := gset ast_node)
        (λ s2, Expr (EClassificationEdge
                       (mkClassificationEdge s1.1 s1.2 s2.1 s2.2)))
        (slots N)) (slots N).

(** One round of the loop that derives something and goes on. *)
Inductive round_step : Context → Context → Prop :=
| round_continue context context' new_facts :
    fixpoint_round context = Ok (context', new_facts) →
    size new_facts ≠ 0 →
    round_step context (add_new_facts context' new_facts).

(** The identifiers of the premises and of the conclusion of a rule. *)
Definition rule_identifiers (rule : Rule) : list string :=
  (premises rule ≫= expr_identifiers) ++ expr_identifiers (conclusion rule).

(** The names that appear in the facts and the rules of a program. *)
Definition program_names (ast : list ast_node) : gset string :=
  list_to_set (ast ≫= λ n,
    match n with
    | Expr e => expr_identifiers e
    | NRule rule => rule_identifiers rule
    | _ => []
    end).

(** [verb] occurs in [text] as a substring. *)
Definition occurs_in (verb text : string) : Prop :=
  ∃ before after, text = before +:+ verb +:+ after.

(** [before] and [after] are what surrounds the first occurrence of [verb]
    in [text]. *)
Definition first_match (verb text before after : string) : Prop :=
  text = before +:+ verb +:+ after ∧
  ∀ before' after', text = before' +:+ verb +:+ after' →
    (String.length before ≤ String.length before')%nat.

(** What ends a bare proposition inside a rule or a query: the end of the
    line or of the input, or one of the particles that close an expression. *)
Definition expression_boundary (token : Parser.Token) : Prop :=
  Parser.type token = Parser.NEWLINE ∨ Parser.type token = Parser.EOF ∨
  (Parser.type token = Parser.KEYWORD ∧
   (Parser.value token = "乎" ∨ Parser.value token = "則"
    ∨ Parser.value token = "且")).

(** No slot of the fact is a variable. *)
Definition is_ground (e : expr) : bool :=
  match e with
  | EProposition p => negb (is_variable p)
  | ESVOClause c =>
      negb (subject_is_var c) && negb (verb_is_var c) && negb (object_is_var c)
  | EClassificationEdge e => negb (subtype_is_var e) && negb (supertype_is_var e)
  end.

(** Every member of the set is a fact without variable slots. *)
Definition facts_are_ground (S : gset ast_node) : Prop :=
  ∀ f, f ∈ S → ∃ e, f = Expr e ∧ is_ground e = true.

(** The token list ends with its only end-of-input token. *)
Definition eof_terminated (tokens : list Parser.Token) : Prop :=
  ∃ body eof, tokens = (body ++ [eof])%list ∧ Parser.type eof = Parser.EOF ∧
    Forall (λ token, Parser.type token ≠ Parser.EOF) body.

(** The cursor is on a token of an end-terminated list. *)
Definition parser_wf (self : Parser.Parser) : Prop :=
  eof_terminated (Parser.tokens self) ∧
  (Parser.position self < length (Parser.tokens self))%nat.

(** The number of tokens between the cursor and the end-of-input token. *)
Definition remaining (self : Parser.Parser) : nat :=
  (length (Parser.tokens self) - 1 - Parser.position self)%nat.

(** From [self] to [self']: the tokens are the same, the cursor has moved on
    by [k] tokens at least and is still on a token, and the lexicons are
    related by [L]. *)
Definition steps (L : relation (gset string)) (k : nat)
    (self self' : Parser.Parser) : Prop :=
  Parser.tokens self' = Parser.tokens self ∧
  (Parser.position self + k ≤ Parser.position self')%nat ∧
  (Parser.position self' < length (Parser.tokens self))%nat ∧
  L (Parser.verb_lexicon self) (Parser.verb_lexicon self').

(** The call ends: with a value that satisfies [P] in a state reached by
    [steps], or with a [ParseError]. *)
Definition good {A} (L : relation (gset string)) (k : nat)
    (P : A → Parser.Parser → Prop)
    (self : Parser.Parser) (r : result (A * Parser.Parser)) : Prop :=
  match r with
  | Ok (a, self') => steps L k self self' ∧ P a self'
  | Raise (ParseError _) => True
  | _ => False
  end.

(** A call that does not move the parser ends with a value that satisfies
    [P] or with a [ParseError]. *)
Definition ends_or_parse_error {A} (P : A → Prop) (r : result A) : Prop :=
  match r with
  | Ok a => P a
  | Raise (ParseError _) => True
  | _ => False
  end.

(** The verb of a clause is in the lexicon. *)
Definition uses_declared_verb (lexicon : gset string) (e : expr) : Prop :=
  match e with
  | ESVOClause c => verb c ∈ lexicon
  | _ => True
  end.

(** The clauses of a statement use verbs of the lexicon, and a rule has a
    premise. *)
Definition statement_wf (lexicon : gset string) (n : ast_node) : Prop :=
  match n with
  | Expr e => uses_declared_verb lexicon e
  | NRule r =>
      premises r ≠ [] ∧ Forall (uses_declared_verb lexicon) (premises r) ∧
      uses_declared_verb lexicon (conclusion r)
  | NQuery q => uses_declared_verb lexicon (expression q)
  | NVerbDeclaration _ => True
  end.

(** The lexicon after a statement: a verb declaration adds its verb. *)
Definition lexicon_after (statement : ast_node) (lexicon : gset string)
    : gset string :=
  match statement with
  | NVerbDeclaration d => {[ declared_verb d ]} ∪ lexicon
  | _ => lexicon
  end.

(** What [parse_statement] returns from [self]. *)
Definition statement_parsed (self : Parser.Parser)
    (statement : option ast_node) (self' : Parser.Parser) : Prop :=
  match statement with
  | None =>
      remaining self' = 0%nat ∧
      Parser.verb_lexicon self' = Parser.verb_lexicon self
  | Some statement =>
      (Parser.position self + 1 ≤ Parser.position self')%nat ∧
      Parser.verb_lexicon self' = lexicon_after statement (Parser.verb_lexicon self) ∧
      statement_wf (Parser.verb_lexicon self) statement
  end.

(** The lexicon after the statements of a program, from [lexicon]. *)
Definition lexicon_of (lexicon : gset string) (ast : list ast_node) : gset string :=
  foldl (λ lexicon statement, lexicon_after statement lexicon) lexicon ast.

(** Every statement is well formed for the lexicon of the statements before
    it. *)
Fixpoint declared_before_use (lexicon : gset string) (ast : list ast_node) : Prop :=
  match ast with
  | [] => True
  | statement :: ast =>
      statement_wf lexicon statement ∧
      declared_before_use (lexicon_after statement lexicon) ast
  end.

(** [m'] does what [m] does wherever [m] has fuel enough. *)
Definition stable {A} (m m' : Parser.parser A) : Prop :=
  ∀ self, m self ≠ OutOfFuel → m' self = m self.

(** The clauses of a statement use verbs of the lexicon. *)
Definition verbs_declared (lexicon : gset string) (n : ast_node) : Prop :=
  match n with
  | Expr e => uses_declared_verb lexicon e
  | NRule r =>
      Forall (uses_declared_verb lexicon) (premises r) ∧
      uses_declared_verb lexicon (conclusion r)
  | NQuery q => uses_declared_verb lexicon (expression q)
  | NVerbDeclaration _ => True
  end.

(** The tokens of a program with a verb declaration, a clause, a rule and a
    query, each on its line. *)
Definition example_tokens : list Parser.Token :=
  [ Parser.mkToken Parser.KEYWORD "以" 1 1;
    Parser.mkToken Parser.IDENTIFIER "愛" 1 2;
    Parser.mkToken Parser.KEYWORD "為" 1 3;
    Parser.mkToken Parser.KEYWORD "動" 1 4;
    Parser.mkToken Parser.NEWLINE "
" 1 5;
    Parser.mkToken Parser.IDENTIFIER "甲" 2 1;
    Parser.mkToken Parser.IDENTIFIER "愛" 2 3;
    Parser.mkToken Parser.IDENTIFIER "乙" 2 5;
    Parser.mkToken Parser.NEWLINE "
" 2 6;
    Parser.mkToken Parser.KEYWORD "若" 3 1;
    Parser.mkToken Parser.VARIABLE "其人" 3 2;
    Parser.mkToken Parser.IDENTIFIER "愛" 3 5;
    Parser.mkToken Parser.IDENTIFIER "乙" 3 7;
    Parser.mkToken Parser.KEYWORD "則" 3 8;
    Parser.mkToken Parser.KEYWORD "曰" 3 9;
    Parser.mkToken Parser.IDENTIFIER "善" 3 10;
    Parser.mkToken Parser.NEWLINE "
" 3 11;
    Parser.mkToken Parser.KEYWORD "問" 4 1;
    Parser.mkToken Parser.KEYWORD "曰" 4 2;
    Parser.mkToken Parser.IDENTIFIER "善" 4 3;
    Parser.mkToken Parser.KEYWORD "乎" 4 4;
    Parser.mkToken Parser.NEWLINE "
" 4 5;
    Parser.mkToken Parser.EOF "" 5 1 ].

Definition example_ast : list ast_node :=
  [ NVerbDeclaration (mkVerbDeclaration "愛");
    Expr (ESVOClause (mkSVOClause "甲" false "愛" false "乙" false));
    NRule (mkRule [ESVOClause (mkSVOClause "其人" true "愛" false "乙" false)]
             (EProposition (mkProposition "善" false)));
    NQuery (mkQuery (EProposition (mkProposition "善" false))) ].

(** The parser [n] tokens further. *)
Definition moved (n : nat) (self : Parser.Parser) : Parser.Parser :=
  Parser.mkParser (Parser.tokens self) (Parser.position self + n)
    (Parser.verb_lexicon self).

(** The tokens from the cursor on. *)
Definition ahead (self : Parser.Parser) : list Parser.Token :=
  drop (Parser.position self) (Parser.tokens self).

(** [any(t.type == TokenType.VARIABLE for t in tokens)] *)
Definition any_variable (tokens : list Parser.Token) : bool :=
  existsb (λ t, bool_decide (Parser.type t = Parser.VARIABLE)) tokens.

(** A token the clause loop goes over: it collects identifiers and variables
    and skips indentation. *)
Definition clause_token (token : Parser.Token) : Prop :=
  Parser.type token = Parser.IDENTIFIER ∨ Parser.type token = Parser.VARIABLE ∨
  Parser.type token = Parser.INDENT.

(** A token that ends a clause. *)
Definition clause_end (token : Parser.Token) : Prop :=
  Parser.type token = Parser.NEWLINE ∨ Parser.type token = Parser.EOF ∨
  Parser.type token = Parser.KEYWORD.

(** The identifiers of a clause: its tokens without the indentation. *)
Definition clause_identifiers (clause : list Parser.Token) : list Parser.Token :=
  filter (λ token, Parser.type token ≠ Parser.INDENT) clause.

(** The closing particle of a classification edge. *)
Definition closing_particle (token : Parser.Token) : Prop :=
  Parser.type token = Parser.KEYWORD ∧ Parser.value token = "也".

(** A token the supertype loop collects: an identifier, a variable, or a
    keyword other than the closing particle. *)
Definition supertype_token (token : Parser.Token) : Prop :=
  (Parser.type token = Parser.IDENTIFIER ∨ Parser.type token = Parser.VARIABLE ∨
   Parser.type token = Parser.KEYWORD) ∧ ¬ closing_particle token.

(** A token that ends the supertype loop. *)
Definition supertype_end (token : Parser.Token) : Prop :=
  closing_particle token ∨ Parser.type token = Parser.NEWLINE ∨
  Parser.type token = Parser.INDENT ∨ Parser.type token = Parser.EOF.

(** A character the main loop of the lexer accepts. *)
Definition lexable (isalnum : Lexer.char → bool) (c : Lexer.char) : Prop :=
  c = Lexer.tab ∨ c = Lexer.newline ∨ c = Lexer.space ∨
  c = Lexer.carriage_return ∨ c = Lexer.comment_marker ∨
  c ∈ Lexer.KEYWORDS ∨ Lexer.is_identifier_char isalnum c = true.

(** A character of an identifier: an identifier character that is no
    keyword. *)
Definition identifier_char (isalnum : Lexer.char → bool) (c : Lexer.char) : Prop :=
  (c ∉ Lexer.KEYWORDS) ∧ Lexer.is_identifier_char isalnum c = true.

(** The line and the column after the characters [chars], from
    [(line, column)]: a line break starts a line, any other character is one
    column. *)
Definition position_after (position : nat * nat) (chars : list Lexer.char)
    : nat * nat :=
  foldl (λ position c,
           if bool_decide (c = Lexer.newline) then (position.1 + 1, 1)%nat
           else (position.1, position.2 + 1)%nat)
    position chars.

(** The token is one of the six shapes the lexer makes. *)
Definition token_shape (isalnum : Lexer.char → bool) (token : Parser.Token)
    (chars : list Lexer.char) : Prop :=
  Parser.value token = Lexer.text chars ∧
  match Parser.type token with
  | Parser.INDENT => chars = [Lexer.tab]
  | Parser.NEWLINE => chars = [Lexer.newline]
  | Parser.KEYWORD => ∃ c, chars = [c] ∧ c ∈ Lexer.KEYWORDS
  | Parser.IDENTIFIER =>
      chars ≠ [] ∧ Forall (identifier_char isalnum) chars ∧
      Lexer.startswith_marker chars = false
  | Parser.VARIABLE =>
      Forall (identifier_char isalnum) chars ∧
      Lexer.startswith_marker chars = true
  | Parser.EOF => chars = []
  end.

(** The token is made of the characters [chars] of the source, and its line
    and column are those of the first of them. *)
Definition located (isalnum : Lexer.char → bool) (source : list Lexer.char)
    (token : Parser.Token) : Prop :=
  ∃ before chars after,
    source = (before ++ chars ++ after)%list ∧
    token_shape isalnum token chars ∧
    (Parser.line token, Parser.column token) = position_after (1, 1)%nat before.

(** The ASCII part of [str.isalnum]: digits and letters. *)
Definition ascii_isalnum (c : Lexer.char) : bool :=
  ((48 <=? c) && (c <=? 57) || (65 <=? c) && (c <=? 90) ||
   (97 <=? c) && (c <=? 122))%N.

(** [以愛為動], a line break, [甲 愛 乙], a comment and a line break. *)
Definition example_source : list Lexer.char :=
  [0x4EE5; 0x611B; 0x70BA; 0x52D5; 10; 0x7532; 32; 0x611B; 32; 0x4E59; 32;
   0xFF03; 0x4E59; 10]%N.

(** One of the two symbols a query prints. *)
Definition query_symbol (line : string) : Prop :=
  line = derivable ∨ line = not_derivable.

(** The stream takes the line. *)
Definition accepted (stdout : Cli.stream) (line : string) : Prop :=
  stdout (Cli.Line line) = true.

(** A stream that takes ASCII text only: it refuses the derivable symbol. *)
Definition ascii_stream : Cli.stream :=
  λ text,
    match text with
    | Cli.Line s => bool_decide (s = not_derivable)
    | _ => true
    end.

(** [曰A], a line break, [問A乎], a line break. *)
Definition query_source : list Lexer.char :=
  [0x66F0; 65; 10; 0x554F; 65; 0x4E4E; 10]%N.

(** ** Scenarios of the specification *)

Example scenario1 :
  let A := EProposition (mkProposition "A" false) in
  let B := EProposition (mkProposition "B" false) in
  let C := EProposition (mkProposition "C" false) in
  eval_program 5
    [NRule (mkRule [A] B); NRule (mkRule [B] C); Expr A; NQuery (mkQuery C)]
  = (["⊤"], Ok ()).
Proof. vm_compute. reflexivity. Qed.

Example scenario2 :
  let edge a b := EClassificationEdge (mkClassificationEdge a false b false) in
  eval_program 5
    [Expr (edge "A" "B"); Expr (edge "C" "A"); NQuery (mkQuery (edge "C" "B"))]
  = (["⊤"], Ok ()).
Proof. vm_compute. reflexivity. Qed.

(** The keywords, as the parser spells them. *)
Example keywords_text :
  Lexer.text <$> ((λ c, [c]) <$> [0x66F0; 0x554F; 0x4E4E; 0x82E5; 0x5247; 0x4E14;
                               0x8005; 0x4E5F; 0x4EE5; 0x70BA; 0x52D5; 0x5176]%N)
  = ["曰"; "問"; "乎"; "若"; "則"; "且"; "者"; "也"; "以"; "為"; "動"; "其"].
Proof. vm_compute. reflexivity. Qed.

(** * Properties *)

(** * Unification *)

Lemma apply_substitution_expr e subst :
  ∃ e', apply_substitution (Expr e) subst = Ok (Expr e') ∧
        type_of (Expr e') = type_of (Expr e).
Proof.
  destruct e as [p|c|e]; simpl.
  - destruct (is_variable p); [destruct (subst !! identifier p)|]; eauto.
  - eauto.
  - eauto.
Qed.

Lemma apply_substitution_not_expr node subst :
  (∀ e, node ≠ Expr e) →
  apply_substitution node subst = Raise (TypeError_substitution (type_of node)).
Proof. destruct node; [intros H; by destruct (H e)|done..]. Qed.

(** C9.  For a pattern and a fact of two different variants and every
    substitution, [unify] fails, whatever their slots and flags.  On the
    nodes it is defined on, [Proposition], [SVOClause] and
    [ClassificationEdge], it returns failure ([None]).  A [Rule], a [Query]
    or a [VerbDeclaration], which no caller passes, makes it fail too:
    [apply_substitution] raises its unsupported-node error for the first such
    node. *)
Theorem unify_different_variants pattern fact subst :
  type_of pattern ≠ type_of fact →
  match pattern, fact with
  | Expr _, Expr _ => unify pattern fact subst = Ok None
  | Expr _, _ =>
      unify pattern fact subst = Raise (TypeError_substitution (type_of fact))
  | _, _ =>
      unify pattern fact subst = Raise (TypeError_substitution (type_of pattern))
  end.
Proof.
  intros Hne. unfold unify.
  destruct pattern as [p| | |]; [|done..].
  destruct (apply_substitution_expr p subst) as (p'&->&Hp). cbn [bind].
  destruct fact as [f| | |]; [|done..].
  destruct (apply_substitution_expr f subst) as (f'&->&Hf). cbn [bind].
  rewrite bool_decide_false; [done|]. by rewrite Hp, Hf.
Qed.

Lemma unify_different_variants_witness :
  unify (Expr (EProposition (mkProposition "A" false)))
        (Expr (ESVOClause (mkSVOClause "人" false "愛" false "狗" false))) ∅
  = Ok None.
Proof.
  apply (unify_different_variants
           (Expr (EProposition (mkProposition "A" false)))
           (Expr (ESVOClause (mkSVOClause "人" false "愛" false "狗" false))) ∅).
  simpl. discriminate.
Defined.

(** * Closure *)

Lemma closure_loop_eq closure :
  closure_loop closure =
  if (closure_pass closure).2 then closure_loop (closure ∪ (closure_pass closure).1)
  else closure ∪ (closure_pass closure).1.
Proof.
  rewrite closure_loop_equation_1. unfold inspect.
  cut (∀ r (H : closure_pass closure = r),
         closure_loop_unfold_clause_1 closure (exist _ r H) =
         if r.2 then closure_loop (closure ∪ r.1) else closure ∪ r.1).
  { intros H. apply H. }
  intros [n []] H; reflexivity.
Qed.

(** Induction along the iterations of the loop. *)
Lemma closure_loop_ind (P : gset ClassificationEdge → gset ClassificationEdge → Prop) :
  (∀ closure, (closure_pass closure).2 = false →
     P closure (closure ∪ (closure_pass closure).1)) →
  (∀ closure result, (closure_pass closure).2 = true →
     P (closure ∪ (closure_pass closure).1) result → P closure result) →
  ∀ closure, P closure (closure_loop closure).
Proof.
  intros Hstop Hstep closure.
  remember (closure_measure closure) as m eqn:Hm. revert closure Hm.
  induction m as [m IH] using lt_wf_ind. intros closure ->.
  rewrite closure_loop_eq.
  destruct (closure_pass closure) as [new_edges changed] eqn:Hpass.
  destruct changed; simpl.
  - apply Hstep; rewrite Hpass; [done|]. simpl.
    eapply IH; [|done]. by apply closure_measure_decreases.
  - specialize (Hstop closure). rewrite Hpass in Hstop. by apply Hstop.
Qed.

Lemma closure_pass_stable closure :
  (closure_pass closure).2 = false →
  (closure_pass closure).1 = ∅ ∧ transitively_closed closure.
Proof.
  intros Hf. destruct (closure_pass_spec closure) as [H1 H2].
  assert (∀ x, x ∉ (closure_pass closure).1) as Hempty.
  { intros x Hx. destruct H2 as [_ H2]. rewrite H2 in Hf; [done|by exists x]. }
  split.
  - apply leibniz_equiv. intros x. split; [intros ?%Hempty; done|].
    by intros ?%not_elem_of_empty.
  - intros e1 e2 He1 He2 Hv1 Hv2 Heq.
    set (x := mkClassificationEdge _ _ _ _).
    destruct (decide (x ∈ closure)) as [|Hnot]; [done|].
    destruct (Hempty x). apply H1. split; [|done].
    exists e1, e2. split; [done|]. split; [done|].
    by apply transitive_edge_Some.
Qed.

Lemma closed_closure_pass closure :
  transitively_closed closure → closure_pass closure = (∅, false).
Proof.
  intros Hc. destruct (closure_pass_spec closure) as [H1 H2].
  assert (∀ x, x ∉ (closure_pass closure).1) as Hempty.
  { intros x [(e1&e2&He1&He2&Ht) Hx]%H1.
    apply transitive_edge_Some in Ht as (?&?&?&->). apply Hx. by apply Hc. }
  destruct (closure_pass closure) as [n ch]. simpl in *. f_equal.
  - apply leibniz_equiv. intros x. split; [intros ?%Hempty; done|].
    by intros ?%not_elem_of_empty.
  - destruct ch; [|done]. destruct H2 as [[x Hx] _]; [done|]. by apply Hempty in Hx.
Qed.

Lemma closure_loop_extensive closure : closure ⊆ closure_loop closure.
Proof.
  apply (closure_loop_ind (λ c r, c ⊆ r)).
  - intros c _ x Hx. apply elem_of_union. by left.
  - intros c r _ Hsub x Hx. apply Hsub, elem_of_union. by left.
Qed.

Lemma closure_loop_closed closure : transitively_closed (closure_loop closure).
Proof.
  apply (closure_loop_ind (λ _ r, transitively_closed r)).
  - intros c [-> Hc]%closure_pass_stable. by rewrite (right_id_L ∅ (∪)).
  - done.
Qed.

Lemma closure_loop_least closure S :
  closure ⊆ S → transitively_closed S → closure_loop closure ⊆ S.
Proof.
  intros Hsub HS. revert Hsub.
  apply (closure_loop_ind (λ c r, c ⊆ S → r ⊆ S)).
  - intros c [-> _]%closure_pass_stable. by rewrite (right_id_L ∅ (∪)).
  - intros c r _ IH Hsub. apply IH.
    intros x [Hx|Hx]%elem_of_union; [by apply Hsub|].
    apply closure_pass_spec in Hx as [(e1&e2&He1&He2&Ht) _].
    apply transitive_edge_Some in Ht as (?&?&?&->).
    apply HS; auto.
Qed.

(** C3.  For every set [E] of classification edges,
    [compute_classification_closure E] is the least superset of [E] closed
    under the rule: whenever [edge1 = A⊑B] and [edge2 = B⊑C] are in the set,
    the supertype of [edge1] and the subtype of [edge2] are not variables
    and the two names are equal, the edge [A⊑C] is in the set, its subtype
    name and flag those of [edge1], its supertype name and flag those of
    [edge2].  Being the least such set, it holds no other edge. *)
Theorem closure_least_closed_superset (E : gset ClassificationEdge) :
  E ⊆ compute_classification_closure E ∧
  transitively_closed (compute_classification_closure E) ∧
  ∀ S, E ⊆ S → transitively_closed S → compute_classification_closure E ⊆ S.
Proof.
  unfold compute_classification_closure. split; [|split].
  - apply closure_loop_extensive.
  - apply closure_loop_closed.
  - intros S. apply closure_loop_least.
Qed.

(** C7.  The closure is idempotent: computing the closure of a closure
    gives the same set of edges. *)
Theorem closure_idempotent (E : gset ClassificationEdge) :
  compute_classification_closure (compute_classification_closure E)
  = compute_classification_closure E.
Proof.
  unfold compute_classification_closure.
  rewrite (closure_loop_eq (closure_loop E)).
  rewrite (closed_closure_pass (closure_loop E)) by apply closure_loop_closed.
  simpl. by rewrite (right_id_L ∅ (∪)).
Qed.

(** C10.  A rule with no premise fires whatever the facts are:
    [apply_rule] returns the singleton of the rule's conclusion, unchanged,
    when the conclusion is not yet a fact of the context, and the empty set
    when it is. *)
Lemma apply_substitution_empty e : apply_substitution (Expr e) ∅ = Ok (Expr e).
Proof.
  destruct e as [p|c|e]; simpl.
  - destruct (is_variable p); [|done]. by rewrite lookup_empty.
  - destruct c as [? [] ? [] ? []]; unfold subst_slot, subst_flag; simpl;
      rewrite ?lookup_empty; done.
  - destruct e as [? [] ? []]; unfold subst_slot, subst_flag; simpl;
      rewrite ?lookup_empty; done.
Qed.

Theorem apply_rule_no_premises (concl : expr) (context : Context) :
  apply_rule (mkRule [] concl) context =
  Ok (if decide (Expr concl ∈ facts context) then ∅ else {[ Expr concl ]}).
Proof.
  unfold apply_rule.
  cbn [premises collect_premise_matches bind existsb product fold_result].
  unfold derive_step. cbn [combine_substitutions foldl conclusion].
  rewrite apply_substitution_empty. cbn [bind].
  destruct (decide (Expr concl ∈ facts context)); [done|].
  by rewrite (right_id_L ∅ (∪)).
Qed.

Lemma unify_expr p f subst : ∃ r, unify (Expr p) (Expr f) subst = Ok r.
Proof.
  unfold unify.
  destruct (apply_substitution_expr p subst) as (p'&->&Hp). cbn [bind].
  destruct (apply_substitution_expr f subst) as (f'&->&Hf). cbn [bind].
  case_bool_decide as Hty; simpl; [|by eauto].
  destruct p' as [?|?|?], f' as [?|?|?]; try discriminate Hty; eauto.
Qed.

(** * evaluate_query *)

Lemma query_loop_spec e (l : list ast_node) :
  (∀ f, f ∈ l → ∃ e', f = Expr e') →
  ∃ symbol, query_loop (Expr e) l = Ok symbol ∧
    (symbol = derivable ∨ symbol = not_derivable) ∧
    (symbol = derivable ↔
       ∃ fact subst, fact ∈ l ∧ unify (Expr e) fact ∅ = Ok (Some subst)).
Proof.
  induction l as [|f l IH]; intros Hl.
  - exists not_derivable. split; [done|]. split; [by right|].
    split; [done|]. intros (f&?&Hf&_). by apply elem_of_nil in Hf.
  - destruct (Hl f) as [e' ->]; [by left|].
    destruct IH as (symbol&Hq&Hsym&Hiff).
    { intros g Hg. apply Hl. by right. }
    simpl. destruct (unify_expr e e' ∅) as [[s|] Hu]; rewrite Hu; cbn [bind].
    + exists derivable. split; [done|]. split; [by left|]. split; [|done].
      intros _. exists (Expr e'), s. split; [by left|done].
    + exists symbol. split; [done|]. split; [done|]. rewrite Hiff. split.
      * intros (g&s&?&?). exists g, s. split; [by right|done].
      * intros (g&s&[->|?]%elem_of_cons&Hg); [congruence|]. by exists g, s.
Qed.

(** C6.  For every query and every set of facts, [evaluate_query] returns
    one of the two fixed symbols, and it returns the derivable one exactly
    when some fact of the set unifies with the query's expression from the
    empty substitution; the substitution found is not part of the result. *)
Theorem evaluate_query_spec (query : Query) (context : Context) :
  facts_are_exprs (facts context) →
  ∃ symbol, evaluate_query (NQuery query) context = Ok symbol ∧
    (symbol = derivable ∨ symbol = not_derivable) ∧
    derivable ≠ not_derivable ∧
    (symbol = derivable ↔
       ∃ fact subst, fact ∈ facts context ∧
         unify (Expr (expression query)) fact ∅ = Ok (Some subst)).
Proof.
  intros Hfacts. unfold evaluate_query.
  destruct (query_loop_spec (expression query) (elements (facts context)))
    as (symbol&Hq&Hsym&Hiff).
  { intros f Hf%elem_of_elements. by apply Hfacts. }
  exists symbol. split; [done|]. split; [done|]. split; [done|].
  rewrite Hiff. split; intros (f&s&Hf&Hu); exists f, s; split; try done;
    by apply elem_of_elements.
Qed.

Lemma evaluate_query_spec_witness :
  let context :=
    mkContext {[ Expr (EProposition (mkProposition "A" false)) ]} ∅ [] ∅ in
  ∃ symbol,
    evaluate_query (NQuery (mkQuery (EProposition (mkProposition "其X" true))))
      context = Ok symbol ∧
    (symbol = derivable ∨ symbol = not_derivable) ∧
    derivable ≠ not_derivable ∧
    (symbol = derivable ↔
       ∃ fact subst, fact ∈ facts context ∧
         unify (Expr (EProposition (mkProposition "其X" true))) fact ∅
         = Ok (Some subst)).
Proof.
  intros context.
  apply (evaluate_query_spec (mkQuery (EProposition (mkProposition "其X" true)))
           context).
  intros f Hf. simpl in Hf. apply elem_of_singleton in Hf. by eexists.
Defined.

(** * apply_rule *)

Lemma premise_matches_for_spec premise (l : list ast_node) :
  (∀ f, f ∈ l → ∃ e, f = Expr e) →
  ∃ matches, premise_matches_for premise l = Ok matches ∧
    ∀ fact subst, (fact, subst) ∈ matches ↔
      fact ∈ l ∧ unify (Expr premise) fact ∅ = Ok (Some subst).
Proof.
  induction l as [|f l IH]; intros Hl.
  - exists []. split; [done|]. intros fact subst. split.
    + by intros ?%elem_of_nil.
    + by intros [?%elem_of_nil _].
  - destruct (Hl f) as [e ->]; [by left|].
    destruct IH as (matches&Hm&Hiff). { intros g Hg. apply Hl. by right. }
    simpl. destruct (unify_expr premise e ∅) as [r Hu]. rewrite Hu, Hm. cbn [bind].
    eexists. split; [done|]. intros fact subst.
    destruct r as [s|].
    + rewrite elem_of_cons, Hiff, elem_of_cons. split.
      * intros [[= -> ->]|[? ?]]; [by split; [left|]|by split; [right|]].
      * intros [[->|?] Hf]; [left; congruence|by right].
    + rewrite Hiff, elem_of_cons. split.
      * intros [? ?]. by split; [right|].
      * intros [[->|?] Hf]; [congruence|done].
Qed.

Lemma collect_premise_matches_spec premises (l : list ast_node) :
  (∀ f, f ∈ l → ∃ e, f = Expr e) →
  ∃ premise_matches, collect_premise_matches premises l = Ok premise_matches ∧
    Forall2 (λ premise matches, ∀ fact subst, (fact, subst) ∈ matches ↔
               fact ∈ l ∧ unify (Expr premise) fact ∅ = Ok (Some subst))
            premises premise_matches.
Proof.
  intros Hl. induction premises as [|premise premises IH].
  - exists []. by split.
  - destruct IH as (pm&Hpm&HF).
    destruct (premise_matches_for_spec premise l Hl) as (matches&Hm&Hiff).
    exists (matches :: pm). simpl. rewrite Hm, Hpm. split; [done|].
    by constructor.
Qed.

Lemma elem_of_product {A} (pools : list (list A)) (combination : list A) :
  combination ∈ product pools ↔
  Forall2 (λ x pool, x ∈ pool) combination pools.
Proof.
  revert combination. induction pools as [|pool pools IH]; intros combination; simpl.
  - rewrite list_elem_of_singleton. split; [by intros ->|by intros ->%Forall2_nil_inv_r].
  - rewrite list_elem_of_bind. split.
    + intros (x&(c&->&Hc)%list_elem_of_fmap&Hx). constructor; [done|]. by apply IH.
    + intros (x&c&Hx&Hc&->)%Forall2_cons_inv_r. exists x. split; [|done].
      apply list_elem_of_fmap. exists c. split; [done|]. by apply IH.
Qed.

Lemma merge_binding_fold (combined subst : substitution) :
  map_fold merge_binding (Some combined) subst =
  if decide (map_agree combined subst) then Some (combined ∪ subst) else None.
Proof.
  revert subst. apply (map_fold_weak_ind (λ r m,
    r = if decide (map_agree combined m) then Some (combined ∪ m) else None)).
  - rewrite decide_True by apply map_agree_empty_r. by rewrite (right_id_L ∅ (∪)).
  - intros i x m r Hi ->.
    destruct (decide (map_agree combined m)) as [Hag|Hag]; simpl.
    + rewrite lookup_union_l by done.
      destruct (combined !! i) as [bound|] eqn:Hb.
      * destruct (decide (bound = x)) as [->|Hne].
        -- rewrite decide_True.
           ++ f_equal. apply map_eq. intros k. rewrite !lookup_union.
              destruct (decide (i = k)) as [->|Hik].
              ** rewrite Hb, Hi, lookup_insert_eq. done.
              ** by rewrite lookup_insert_ne.
           ++ apply map_agree_spec. intros k a b Ha Hb'.
              destruct (decide (i = k)) as [->|Hik].
              ** rewrite lookup_insert_eq in Hb'. congruence.
              ** rewrite lookup_insert_ne in Hb' by done.
                 eapply map_agree_spec; eauto.
        -- rewrite decide_False; [done|]. intros Hag'.
           apply Hne. eapply map_agree_spec; [exact Hag'|exact Hb|].
           by rewrite lookup_insert_eq.
      * rewrite decide_True.
        -- f_equal. by rewrite insert_union_r.
        -- apply map_agree_spec. intros k a b Ha Hb'.
           destruct (decide (i = k)) as [->|Hik]; [congruence|].
           rewrite lookup_insert_ne in Hb' by done.
           eapply map_agree_spec; eauto.
    + rewrite decide_False; [done|]. intros Hag'. apply Hag.
      apply map_agree_spec. intros k a b Ha Hb'.
      eapply map_agree_spec; [exact Hag'|exact Ha|].
      destruct (decide (i = k)) as [->|Hik]; [congruence|].
      by rewrite lookup_insert_ne.
Qed.

Lemma merge_binding_fold_None (subst : substitution) :
  map_fold merge_binding None subst = None.
Proof.
  revert subst.
  apply (map_fold_weak_ind (λ r (m : substitution), r = None)); [done|].
  by intros i x m r _ ->.
Qed.

Lemma combine_substitutions_snoc combination entry :
  combine_substitutions (combination ++ [entry]) =
  merge_substitution (combine_substitutions combination) entry.
Proof. unfold combine_substitutions. by rewrite foldl_app. Qed.

Lemma combine_substitutions_spec combination :
  match combine_substitutions combination with
  | Some merged => ¬ conflicting combination ∧ merges combination merged
  | None => conflicting combination
  end.
Proof.
  induction combination as [|entry combination IH] using rev_ind.
  - simpl. split.
    + intros (i&j&e1&?&?&?&?&Hi&_). by rewrite lookup_nil in Hi.
    + intros var value. rewrite lookup_empty. split; [done|].
      intros (e&He&_). by apply elem_of_nil in He.
  - rewrite combine_substitutions_snoc. unfold merge_substitution.
    destruct (combine_substitutions combination) as [merged|].
    + destruct IH as [Hok Hm]. rewrite merge_binding_fold.
      destruct (decide (map_agree merged entry.2)) as [Hag|Hag].
      * split.
        -- intros (i&j&e1&e2&var&v1&v2&Hi&Hj&H1&H2&Hne).
           apply lookup_app_Some in Hi as [Hi|[_ Hi]];
             apply lookup_app_Some in Hj as [Hj|[_ Hj]].
           ++ apply Hok. by exists i, j, e1, e2, var, v1, v2.
           ++ apply list_lookup_singleton_Some in Hj as [_ <-].
              apply Hne. eapply map_agree_spec; [exact Hag| |exact H2].
              apply Hm. exists e1. split; [|done]. by eapply list_elem_of_lookup_2.
           ++ apply list_lookup_singleton_Some in Hi as [_ <-].
              apply Hne. symmetry. eapply map_agree_spec; [exact Hag| |exact H1].
              apply Hm. exists e2. split; [|done]. by eapply list_elem_of_lookup_2.
           ++ apply list_lookup_singleton_Some in Hi as [_ <-].
              apply list_lookup_singleton_Some in Hj as [_ <-]. congruence.
        -- intros var value. rewrite lookup_union_Some_raw. split.
           ++ intros [(e&He&Hv)%Hm|[_ Hv]].
              ** exists e. split; [|done]. apply elem_of_app. by left.
              ** exists entry. split; [|done]. apply elem_of_app. right. by left.
           ++ intros (e&[He| ->%list_elem_of_singleton]%elem_of_app&Hv).
              ** left. apply Hm. by exists e.
              ** destruct (merged !! var) as [v'|] eqn:Hv'; [|by right].
                 left. f_equal. eapply map_agree_spec; eauto.
      * apply map_not_agree in Hag as (var&v1&v2&H1&H2&Hne); [|apply _].
        apply Hm in H1 as (e1&[i Hi]%list_elem_of_lookup_1&H1).
        exists i, (length combination), e1, entry, var, v1, v2.
        split; [by apply lookup_app_l_Some|].
        split; [|done]. rewrite lookup_app_r by done.
        by rewrite Nat.sub_diag.
    + rewrite merge_binding_fold_None.
      destruct IH as (i&j&e1&e2&var&v1&v2&Hi&Hj&H1&H2&Hne).
      exists i, j, e1, e2, var, v1, v2.
      split; [by apply lookup_app_l_Some|]. split; [by apply lookup_app_l_Some|done].
Qed.

Lemma merges_unique combination merged1 merged2 :
  merges combination merged1 → merges combination merged2 → merged1 = merged2.
Proof.
  intros H1 H2. apply map_eq. intros var. apply option_eq. intros value.
  by rewrite (H1 var value), (H2 var value).
Qed.

Lemma derive_loop_spec rule context combinations acc :
  ∃ derived_facts,
    fold_result (derive_step rule context) acc combinations = Ok derived_facts ∧
    ∀ d, d ∈ derived_facts ↔
      d ∈ acc ∨
      ∃ combination merged, combination ∈ combinations ∧
        combine_substitutions combination = Some merged ∧
        apply_substitution (Expr (conclusion rule)) merged = Ok d ∧
        d ∉ facts context.
Proof.
  revert acc. induction combinations as [|c combinations IH]; intros acc.
  - exists acc. split; [done|]. intros d. split; [by left|].
    intros [?|(?&?&Hc&_)]; [done|]. by apply elem_of_nil in Hc.
  - cbn [fold_result]. unfold derive_step at 1.
    destruct (combine_substitutions c) as [merged|] eqn:Hc.
    + destruct (apply_substitution_expr (conclusion rule) merged) as (e'&Ha&_).
      rewrite Ha. cbn [bind].
      destruct (IH (if decide (Expr e' ∈ facts context) then acc
                    else {[ Expr e' ]} ∪ acc)) as (R&HR&Hiff).
      exists R. split; [done|]. intros d. rewrite Hiff. split.
      * intros [Hd|(c'&m&?&?&?&?)].
        -- destruct (decide (Expr e' ∈ facts context)); [by left|].
           apply elem_of_union in Hd as [->%elem_of_singleton|?]; [|by left].
           right. exists c, merged. split; [by left|done].
        -- right. exists c', m. split; [by right|done].
      * intros [Hd|(c'&m&Hin&Hc'&Hd&Hnot)].
        { left. destruct (decide (Expr e' ∈ facts context)); [done|].
           apply elem_of_union. by right. }
        apply elem_of_cons in Hin as [Heq|Hin]; [subst c'|].
        -- left. assert (m = merged) as Hmm by congruence.
           rewrite Hmm, Ha in Hd. injection Hd as <-.
           rewrite decide_False by done. apply elem_of_union. left.
           by apply elem_of_singleton.
        -- right. by exists c', m.
    + cbn [bind]. destruct (IH acc) as (R&HR&Hiff).
      exists R. split; [done|]. intros d. rewrite Hiff. split.
      * intros [?|(c'&m&?&?&?&?)]; [by left|]. right. exists c', m.
        split; [by right|done].
      * intros [?|(c'&m&[->|?]%elem_of_cons&Hc'&?&?)]; [by left|congruence|].
        right. by exists c', m.
Qed.

(** C1.  For every rule and every set of facts: each premise is unified,
    from the empty substitution, with every fact, which gives one list of
    (fact, substitution) pairs per premise; when one of these lists is empty
    the result is the empty set; a combination of one pair per premise is
    rejected exactly when two of its substitutions bind one variable name to
    different values; and a fact is in the result exactly when it is the
    rule's conclusion under the merged substitution of a combination that
    is not rejected, and it is not yet a fact of the context. *)
Theorem apply_rule_spec (rule : Rule) (context : Context) :
  facts_are_exprs (facts context) →
  ∃ premise_matches derived_facts,
    apply_rule rule context = Ok derived_facts ∧
    Forall2 (λ premise matches, ∀ fact subst, (fact, subst) ∈ matches ↔
               fact ∈ facts context ∧
               unify (Expr premise) fact ∅ = Ok (Some subst))
            (premises rule) premise_matches ∧
    ((∃ matches, matches ∈ premise_matches ∧ matches = []) → derived_facts = ∅) ∧
    (∀ combination,
       combine_substitutions combination = None ↔ conflicting combination) ∧
    (∀ d, d ∈ derived_facts ↔
       ∃ combination merged,
         Forall2 (λ entry matches, entry ∈ matches) combination premise_matches ∧
         ¬ conflicting combination ∧ merges combination merged ∧
         apply_substitution (Expr (conclusion rule)) merged = Ok d ∧
         d ∉ facts context).
Proof.
  intros Hfacts. unfold apply_rule.
  destruct (collect_premise_matches_spec (premises rule) (elements (facts context)))
    as (pm&Hpm&HF).
  { intros f Hf%elem_of_elements. by apply Hfacts. }
  rewrite Hpm. cbn [bind].
  assert (∀ combination,
    combine_substitutions combination = None ↔ conflicting combination) as Hrej.
  { intros c. pose proof (combine_substitutions_spec c) as Hc.
    destruct (combine_substitutions c); [|done].
    split; [done|]. intros ?. by destruct Hc. }
  assert (existsb (λ matches : list (ast_node * substitution),
                     bool_decide (length matches = 0)) pm = true ↔
          ∃ matches, matches ∈ pm ∧ matches = []) as Hex.
  { rewrite existsb_exists. split.
    - intros (m&Hin%list_elem_of_In&Hlen%bool_decide_eq_true).
      exists m. split; [done|]. by apply nil_length_inv.
    - intros (m&Hin&->). exists []. split; [by apply list_elem_of_In|done]. }
  assert (Forall2 (λ premise matches, ∀ fact subst, (fact, subst) ∈ matches ↔
             fact ∈ facts context ∧ unify (Expr premise) fact ∅ = Ok (Some subst))
            (premises rule) pm) as HF'.
  { eapply Forall2_impl; [exact HF|]. intros premise matches H fact subst.
    specialize (H fact subst). cbv beta in H. rewrite H.
    by rewrite elem_of_elements. }
  destruct (existsb _ pm) eqn:Hany.
  - exists pm, ∅. split; [done|]. split; [done|]. split; [done|]. split; [done|].
    intros d. split; [by intros ?%not_elem_of_empty|].
    intros (c&m&Hc&_). exfalso.
    destruct Hex as [Hex _]. destruct Hex as (matches&Hin&->); [done|].
    apply list_elem_of_lookup_1 in Hin as [i Hi].
    destruct (Forall2_lookup_r _ _ _ _ _ Hc Hi) as (x&_&Hx).
    by apply elem_of_nil in Hx.
  - destruct (derive_loop_spec rule context (product pm) ∅) as (R&HR&Hiff).
    exists pm, R. split; [done|]. split; [done|]. split.
    { intros Hm. apply Hex in Hm. congruence. }
    split; [done|]. intros d. rewrite Hiff. split.
    + intros [?%not_elem_of_empty|(c&m&Hc%elem_of_product&Hm&Ha&Hd)]; [done|].
      exists c, m. pose proof (combine_substitutions_spec c) as Hs.
      rewrite Hm in Hs. destruct Hs. done.
    + intros (c&m&Hc&Hok&Hm&Ha&Hd). right.
      pose proof (combine_substitutions_spec c) as Hs.
      destruct (combine_substitutions c) as [m'|] eqn:Hcm; [|done].
      destruct Hs as [_ Hm']. exists c, m'. split; [by apply elem_of_product|].
      split; [done|]. by rewrite (merges_unique _ _ _ Hm' Hm).
Qed.

(** * Names *)

Lemma unify_proposition_values pattern fact subst subst' :
  _unify_proposition pattern fact subst = Some subst' →
  ∀ var value, subst' !! var = Some value →
    subst !! var = Some value ∨ value = identifier pattern ∨ value = identifier fact.
Proof.
  unfold _unify_proposition. intros H var value Hv.
  destruct (is_variable pattern).
  - destruct (subst !! identifier pattern) as [bound|] eqn:Hb.
    + destruct (decide (bound = identifier fact)); [|done].
      injection H as <-. by left.
    + injection H as <-. destruct (decide (var = identifier pattern)) as [->|Hne].
      * rewrite lookup_insert_eq in Hv. injection Hv as <-. right. by right.
      * rewrite lookup_insert_ne in Hv by done. by left.
  - destruct (is_variable fact).
    + destruct (subst !! identifier fact) as [bound|] eqn:Hb.
      * destruct (decide (bound = identifier pattern)); [|done].
        injection H as <-. by left.
      * injection H as <-. destruct (decide (var = identifier fact)) as [->|Hne].
        -- rewrite lookup_insert_eq in Hv. injection Hv as <-. right. by left.
        -- rewrite lookup_insert_ne in Hv by done. by left.
    + destruct (decide (identifier pattern = identifier fact)); [|done].
      injection H as <-. by left.
Qed.

Lemma unify_values pattern fact subst :
  unify (Expr pattern) (Expr fact) ∅ = Ok (Some subst) →
  ∀ var value, subst !! var = Some value →
    value ∈ expr_identifiers pattern ∨ value ∈ expr_identifiers fact.
Proof.
  unfold unify. rewrite !apply_substitution_empty. cbn [bind].
  case_bool_decide as Hty; cbn [negb]; [|done].
  destruct pattern as [p|p|p], fact as [f|f|f]; try discriminate Hty;
    intros [= Hu] var value Hv.
  - apply (unify_proposition_values _ _ _ _ Hu) in Hv as [Hv|[->| ->]].
    + by rewrite lookup_empty in Hv.
    + left. by left.
    + right. by left.
  - unfold _unify_svo_clause in Hu.
    destruct (_unify_proposition _ _ ∅) as [s1|] eqn:H1; [|done]. cbn in Hu.
    destruct (_unify_proposition _ _ s1) as [s2|] eqn:H2; [|done]. cbn in Hu.
    apply (unify_proposition_values _ _ _ _ Hu) in Hv as [Hv|[->| ->]]; cbn.
    + apply (unify_proposition_values _ _ _ _ H2) in Hv as [Hv|[->| ->]]; cbn.
      * apply (unify_proposition_values _ _ _ _ H1) in Hv as [Hv|[->| ->]]; cbn.
        -- by rewrite lookup_empty in Hv.
        -- left. by left.
        -- right. by left.
      * left. right. by left.
      * right. right. by left.
    + left. right. right. by left.
    + right. right. right. by left.
  - unfold _unify_classification_edge in Hu.
    destruct (_unify_proposition _ _ ∅) as [s1|] eqn:H1; [|done]. cbn in Hu.
    apply (unify_proposition_values _ _ _ _ Hu) in Hv as [Hv|[->| ->]]; cbn.
    + apply (unify_proposition_values _ _ _ _ H1) in Hv as [Hv|[->| ->]]; cbn.
      * by rewrite lookup_empty in Hv.
      * left. by left.
      * right. by left.
    + left. right. by left.
    + right. right. by left.
Qed.

Lemma subst_slot_values name is_var (subst : substitution) :
  subst_slot name is_var subst = name ∨
  ∃ var, subst !! var = Some (subst_slot name is_var subst).
Proof.
  unfold subst_slot. destruct is_var; [|by left].
  destruct (subst !! name) as [v|] eqn:Hv; [|by left]. right. by exists name.
Qed.

Lemma apply_substitution_values e (subst : substitution) d :
  apply_substitution (Expr e) subst = Ok d →
  ∃ e', d = Expr e' ∧
    ∀ id, id ∈ expr_identifiers e' →
      id ∈ expr_identifiers e ∨ ∃ var, subst !! var = Some id.
Proof.
  destruct e as [p|c|e]; cbn [apply_substitution].
  - destruct (is_variable p).
    + destruct (subst !! identifier p) as [v|] eqn:Hv; intros [= <-];
        eexists; (split; [done|]); intros id Hid.
      * apply list_elem_of_singleton in Hid as ->. right. by exists (identifier p).
      * by left.
    + intros [= <-]. eexists. split; [done|]. intros id Hid. by left.
  - intros [= <-]. eexists. split; [done|]. intros id Hid. cbn in Hid.
    apply elem_of_cons in Hid as [->|Hid].
    { destruct (subst_slot_values (subject c) (subject_is_var c) subst) as [->|?];
        [left; by left|by right]. }
    apply elem_of_cons in Hid as [->|Hid].
    { destruct (subst_slot_values (verb c) (verb_is_var c) subst) as [->|?];
        [left; right; by left|by right]. }
    apply list_elem_of_singleton in Hid as ->.
    destruct (subst_slot_values (object c) (object_is_var c) subst) as [->|?];
      [left; right; right; by left|by right].
  - intros [= <-]. eexists. split; [done|]. intros id Hid. cbn in Hid.
    apply elem_of_cons in Hid as [->|Hid].
    { destruct (subst_slot_values (subtype e) (subtype_is_var e) subst) as [->|?];
        [left; by left|by right]. }
    apply list_elem_of_singleton in Hid as ->.
    destruct (subst_slot_values (supertype e) (supertype_is_var e) subst) as [->|?];
      [left; right; by left|by right].
Qed.

(** What a rule derives from facts over [N], when the rule itself mentions
    names of [N] only. *)
Lemma apply_rule_over N rule context :
  (∀ f, f ∈ facts context → fact_over N f) →
  (∀ premise, premise ∈ premises rule → expr_over N premise) →
  expr_over N (conclusion rule) →
  ∃ derived, apply_rule rule context = Ok derived ∧
    ∀ d, d ∈ derived → fact_over N d ∧ d ∉ facts context.
Proof.
  intros Hfacts Hprem Hconcl. unfold apply_rule.
  destruct (collect_premise_matches_spec (premises rule) (elements (facts context)))
    as (pm&Hpm&HF).
  { intros f Hf%elem_of_elements. destruct (Hfacts f Hf) as (e&->&_). by exists e. }
  rewrite Hpm. cbn [bind].
  destruct (existsb _ pm).
  { exists ∅. split; [done|]. by intros d ?%not_elem_of_empty. }
  destruct (derive_loop_spec rule context (product pm) ∅) as (R&HR&Hiff).
  exists R. split; [done|]. intros d [?%not_elem_of_empty|(c&m&Hc&Hm&Ha&Hd)]%Hiff;
    [done|]. split; [|done].
  apply apply_substitution_values in Ha as (e'&->&He').
  exists e'. split; [done|]. intros id [Hid|[var Hvar]]%He'; [by apply Hconcl|].
  pose proof (combine_substitutions_spec c) as Hs. rewrite Hm in Hs.
  destruct Hs as [_ Hs]. apply Hs in Hvar as (entry&Hentry&Hvar).
  apply elem_of_product in Hc.
  apply list_elem_of_lookup_1 in Hentry as [i Hi].
  destruct (Forall2_lookup_l _ _ _ _ _ Hc Hi) as (matches&Hmi&Hin).
  destruct (Forall2_lookup_r _ _ _ _ _ HF Hmi) as (premise&Hpi&Hspec).
  destruct entry as [fact subst]. specialize (Hspec fact subst).
  cbv beta in Hspec. destruct Hspec as [Hspec _].
  destruct (Hspec Hin) as [Hfact Hu].
  apply elem_of_elements in Hfact.
  destruct (Hfacts fact Hfact) as (ef&->&Hef).
  apply (unify_values _ _ _ Hu) in Hvar as [Hv|Hv].
  - eapply Hprem; [|done]. by eapply list_elem_of_lookup_2.
  - by apply Hef.
Qed.

(** * The fixpoint driver *)

Section driver_invariant.
Context (N : gset string).

Lemma closure_loop_over (E : gset ClassificationEdge) :
  (∀ e, e ∈ E → subtype e ∈ N ∧ supertype e ∈ N) →
  ∀ e, e ∈ closure_loop E → subtype e ∈ N ∧ supertype e ∈ N.
Proof.
  intros HE.
  set (S := filter (λ e, subtype e ∈ N ∧ supertype e ∈ N) (closure_loop E)).
  assert (closure_loop E ⊆ S) as Hsub.
  { apply closure_loop_least.
    - intros e He. apply elem_of_filter. split; [by apply HE|].
      by apply closure_loop_extensive.
    - intros e1 e2 [[? _] He1]%elem_of_filter [[_ ?] He2]%elem_of_filter ? ? ?.
      apply elem_of_filter. split; [done|]. by apply closure_loop_closed. }
  intros e He. apply Hsub, elem_of_filter in He as [? _]. done.
Qed.

Lemma rules_loop_over context (rules : list Rule) acc :
  (∀ f, f ∈ facts context → fact_over N f) →
  (∀ rule, rule ∈ rules → rule_over N rule) →
  (∀ d, d ∈ acc → fact_over N d ∧ d ∉ facts context) →
  ∃ new_facts,
    fold_result (λ new_facts rule,
      derived ←! apply_rule rule context; Ok (new_facts ∪ derived)) acc rules
    = Ok new_facts ∧
    ∀ d, d ∈ new_facts → fact_over N d ∧ d ∉ facts context.
Proof.
  intros Hfacts. revert acc. induction rules as [|rule rules IH]; intros acc Hrules Hacc.
  - by exists acc.
  - destruct (Hrules rule) as [Hp Hc]; [by left|].
    destruct (apply_rule_over N rule context Hfacts Hp Hc) as (derived&Hd&Hder).
    cbn [fold_result]. rewrite Hd. cbn [bind].
    apply IH.
    + intros r Hr. apply Hrules. by right.
    + intros d [?|?]%elem_of_union; [by apply Hacc|by apply Hder].
Qed.

Lemma fact_over_edge e :
  fact_over N (edge_node e) ↔ subtype e ∈ N ∧ supertype e ∈ N.
Proof.
  split.
  - intros (e'&[= <-]&He). split; apply He; cbn; [by left|right; by left].
  - intros [? ?]. eexists. split; [done|]. intros id Hid. cbn in Hid.
    apply elem_of_cons in Hid as [->|Hid]; [done|].
    by apply list_elem_of_singleton in Hid as ->.
Qed.

Lemma as_classification_edge_Some f e :
  as_classification_edge f = Some e ↔ f = edge_node e.
Proof.
  destruct f as [[| |e']| | |]; cbn; split; try done; intros [= ->]; done.
Qed.

Lemma fixpoint_round_over context :
  context_over N context →
  ∃ context' new_facts,
    fixpoint_round context = Ok (context', new_facts) ∧
    facts context ⊆ facts context' ∧
    context_over N context' ∧
    (∀ d, d ∈ new_facts → fact_over N d ∧ d ∉ facts context').
Proof.
  intros [Hfacts Hedges Hrules]. unfold fixpoint_round.
  set (closed_edges := compute_classification_closure (classification_edges context)).
  set (context' := mkContext _ _ _ _).
  assert (∀ e, e ∈ closed_edges → subtype e ∈ N ∧ supertype e ∈ N) as Hclosed.
  { apply closure_loop_over. intros e He. rewrite Hedges in He.
    apply elem_of_set_omap in He as (f&Hf&->%as_classification_edge_Some).
    by apply fact_over_edge, Hfacts. }
  assert (∀ f, f ∈ facts context' → fact_over N f) as Hfacts'.
  { intros f [[_ Hf]%elem_of_filter|(e&->&He)%elem_of_map]%elem_of_union.
    - by apply Hfacts.
    - by apply fact_over_edge, Hclosed. }
  assert (facts context ⊆ facts context') as Hmono.
  { intros f Hf. apply elem_of_union.
    destruct (is_classification_edge f) eqn:Hfe.
    - right. destruct f as [[| |e]| | |]; try discriminate Hfe.
      apply elem_of_map. exists e. split; [done|].
      apply closure_loop_extensive. rewrite Hedges.
      apply elem_of_set_omap. by exists (Expr (EClassificationEdge e)).
    - left. by apply elem_of_filter. }
  assert (context_over N context') as Hover.
  { split; [done| |done].
    apply set_eq. intros e. cbn [classification_edges facts context'].
    rewrite elem_of_set_omap. split.
    - intros He. exists (edge_node e). split; [|done].
      apply elem_of_union. right. apply elem_of_map. by exists e.
    - intros (f&Hf&->%as_classification_edge_Some).
      apply elem_of_union in Hf as [[Hne _]%elem_of_filter|(e'&[= ->]&?)%elem_of_map];
        done. }
  destruct (rules_loop_over context' (rules context) ∅ Hfacts' Hrules)
    as (new_facts&Hnew&Hover_new).
  { by intros d ?%not_elem_of_empty. }
  exists context', new_facts. cbn [rules context'] in Hnew |- *.
  rewrite Hnew. done.
Qed.

Lemma add_new_facts_over context new_facts :
  context_over N context →
  (∀ d, d ∈ new_facts → fact_over N d) →
  context_over N (add_new_facts context new_facts).
Proof.
  intros [Hfacts Hedges Hrules] Hnew. split; cbn.
  - intros f [?|?]%elem_of_union; auto.
  - by rewrite set_omap_union_L, Hedges.
  - done.
Qed.

(** ** The finite universe of facts over [N] *)

Lemma elem_of_slots a b : a ∈ N → (a, b) ∈ slots N.
Proof.
  intros Ha. apply elem_of_set_bind. exists a. split; [done|].
  destruct b; [apply elem_of_union; left|apply elem_of_union; right];
    by apply elem_of_singleton.
Qed.

Lemma fact_over_universe f : fact_over N f → f ∈ universe N.
Proof.
  intros (e&->&He). unfold universe. destruct e as [[a b]|[a ab v vb o ob]|[a ab z zb]].
  - apply elem_of_union. left. apply elem_of_union. left.
    apply elem_of_map. exists (a, b). split; [done|].
    apply elem_of_slots, He. by left.
  - apply elem_of_union. left. apply elem_of_union. right.
    apply elem_of_set_bind. exists (a, ab).
    split; [apply elem_of_slots, He; by left|].
    apply elem_of_set_bind. exists (v, vb).
    split; [apply elem_of_slots, He; right; by left|].
    apply elem_of_map. exists (o, ob). split; [done|].
    apply elem_of_slots, He. right. right. by left.
  - apply elem_of_union. right.
    apply elem_of_set_bind. exists (a, ab).
    split; [apply elem_of_slots, He; by left|].
    apply elem_of_map. exists (z, zb). split; [done|].
    apply elem_of_slots, He. right. by left.
Qed.

(** ** Rounds *)

Lemma round_step_over context context' :
  context_over N context → round_step context context' → context_over N context'.
Proof.
  intros Hover Hstep. destruct Hstep as [context context' new_facts Hround _].
  destruct (fixpoint_round_over context Hover) as (c1&n1&Hr&_&Hover1&Hnew).
  rewrite Hround in Hr. injection Hr as <- <-.
  apply add_new_facts_over; [done|]. intros d Hd. by apply Hnew.
Qed.

Lemma rounds_over context context' :
  context_over N context → rtc round_step context context' → context_over N context'.
Proof.
  intros Hover Hrtc. induction Hrtc as [|c1 c2 c3 Hstep _ IH]; [done|].
  apply IH. by eapply round_step_over.
Qed.

Lemma fixpoint_terminates k : ∀ context,
  context_over N context →
  (size (universe N ∖ facts context) ≤ k)%nat →
  ∃ final last,
    fixpoint (S k) context = Ok final ∧
    rtc round_step context last ∧
    fixpoint_round last = Ok (final, ∅) ∧
    context_over N final ∧
    facts context ⊆ facts final.
Proof.
  induction k as [|k IH]; intros context Hover Hsize;
    destruct (fixpoint_round_over context Hover) as (c1&new&Hround&Hmono&Hover1&Hnew);
    cbn [fixpoint]; rewrite Hround; cbn [bind fst snd];
    case_bool_decide as Hz.
  - apply size_empty_inv, leibniz_equiv in Hz as ->.
    exists c1, context. split; [done|]. split; [done|]. done.
  - exfalso. apply size_non_empty_iff in Hz.
    apply set_choose in Hz as [d Hd].
    destruct (Hnew d Hd) as [Hd1 Hd2].
    assert (d ∈ universe N ∖ facts context) as Hin.
    { apply elem_of_difference. split; [by apply fact_over_universe|].
      intros ?. apply Hd2. by apply Hmono. }
    assert (size (universe N ∖ facts context) = 0) as Hs by lia.
    apply size_empty_inv in Hs. by apply Hs in Hin.
  - apply size_empty_inv, leibniz_equiv in Hz as ->.
    exists c1, context. split; [done|]. split; [done|]. done.
  - assert (context_over N (add_new_facts c1 new)) as Hover2.
    { apply add_new_facts_over; [done|]. intros d Hd. by apply Hnew. }
    destruct (IH (add_new_facts c1 new) Hover2) as (final&last&Hfix&Hrtc&Hlast&Hof&Hsub).
    { assert (universe N ∖ facts (add_new_facts c1 new) ⊂ universe N ∖ facts context)
        as Hlt; [|apply subset_size in Hlt; lia].
      apply size_non_empty_iff in Hz. apply set_choose in Hz as [d Hd].
      destruct (Hnew d Hd) as [Hd1 Hd2].
      split.
      - intros x [Hx Hnx]%elem_of_difference. apply elem_of_difference.
        split; [done|]. intros Hfx. apply Hnx. cbn. apply elem_of_union. left.
        by apply Hmono.
      - intros Hsub. assert (d ∈ universe N ∖ facts context) as Hin.
        { apply elem_of_difference. split; [by apply fact_over_universe|].
          intros ?. apply Hd2. by apply Hmono. }
        apply Hsub, elem_of_difference in Hin as [_ Hin]. apply Hin. cbn.
        apply elem_of_union. by right. }
    exists final, last. split; [done|]. split.
    { eapply rtc_l; [|exact Hrtc]. by econstructor. }
    split; [done|]. split; [done|].
    intros f Hf. apply Hsub. cbn. apply elem_of_union. left. by apply Hmono.
Qed.

Lemma fixpoint_no_raise fuel : ∀ context,
  context_over N context → ∀ e, fixpoint fuel context ≠ Raise e.
Proof.
  induction fuel as [|fuel IH]; intros context Hover e; [done|].
  destruct (fixpoint_round_over context Hover) as (c1&new&Hround&Hmono&Hover1&Hnew).
  cbn [fixpoint]. rewrite Hround. cbn [bind fst snd].
  case_bool_decide; [done|]. apply IH.
  apply add_new_facts_over; [done|]. intros d Hd. by apply Hnew.
Qed.

End driver_invariant.

(** ** Programs *)

Lemma initial_context_over ast :
  context_over (program_names ast) (initial_context ast).
Proof.
  split; cbn [initial_context facts classification_edges rules].
  - intros f [Hf Hin]%elem_of_list_to_set%list_elem_of_filter.
    destruct f as [e| | |]; try discriminate Hf.
    exists e. split; [done|]. intros id Hid. apply elem_of_list_to_set.
    apply list_elem_of_bind. by exists (Expr e).
  - done.
  - intros rule (n&Hn&Hr)%list_elem_of_omap.
    destruct n as [|r| |]; try discriminate Hr. injection Hr as ->.
    split.
    + intros premise Hp id Hid. apply elem_of_list_to_set.
      apply list_elem_of_bind. exists (NRule rule). split; [|done].
      apply elem_of_app. left. apply list_elem_of_bind. by exists premise.
    + intros id Hid. apply elem_of_list_to_set.
      apply list_elem_of_bind. exists (NRule rule). split; [|done].
      apply elem_of_app. by right.
Qed.

(** C2.  From the context [eval_program] builds for a program, the
    fixpoint driver terminates: some number of rounds suffices, the rounds
    before the last each derive a fact, and the last round derives none.
    Every round only adds facts: the facts before a round are facts after
    its closure step, and those are facts after the round.  Every fact met
    on the way is one of the three fact shapes and mentions only names that
    appear in the facts and rules of the program. *)
Theorem fixpoint_terminates_monotone (ast : list ast_node) :
  let context := initial_context ast in
  let N := program_names ast in
  (∃ fuel final last,
     fixpoint fuel context = Ok final ∧
     rtc round_step context last ∧
     fixpoint_round last = Ok (final, ∅) ∧
     facts context ⊆ facts final) ∧
  (∀ current, rtc round_step context current →
     ∃ closed new_facts,
       fixpoint_round current = Ok (closed, new_facts) ∧
       facts current ⊆ facts closed ∧
       facts closed ⊆ facts (add_new_facts closed new_facts) ∧
       ∀ f, f ∈ facts (add_new_facts closed new_facts) → fact_over N f).
Proof.
  intros context N.
  pose proof (initial_context_over ast) as Hover. fold context N in Hover.
  split.
  - destruct (fixpoint_terminates N (size (universe N ∖ facts context)) context)
      as (final&last&Hfix&Hrtc&Hlast&_&Hsub); [done|done|].
    by exists (S (size (universe N ∖ facts context))), final, last.
  - intros current Hrtc.
    pose proof (rounds_over N _ _ Hover Hrtc) as Hcur.
    destruct (fixpoint_round_over N current Hcur) as (closed&new&Hr&Hmono&Hov&Hnew).
    exists closed, new. split; [done|]. split; [done|]. split.
    + intros f Hf. cbn. apply elem_of_union. by left.
    + intros f [Hf|Hf]%elem_of_union; [by apply Hov|by apply Hnew].
Qed.

(** * eval_program *)

Lemma print_queries_ok queries context stdout :
  (∀ f, f ∈ facts context → ∃ e, f = Expr e) →
  ∃ out, print_queries queries context stdout = (out, Ok ()).
Proof.
  intros Hfacts. revert stdout.
  induction queries as [|query queries IH]; intros stdout; [by eexists|].
  cbn [print_queries]. unfold evaluate_query.
  destruct (query_loop_spec (expression query) (elements (facts context)))
    as (symbol&->&_).
  { intros f Hf%elem_of_elements. by apply Hfacts. }
  apply IH.
Qed.

Lemma fixpoint_result_over N fuel : ∀ context final,
  context_over N context → fixpoint fuel context = Ok final → context_over N final.
Proof.
  induction fuel as [|fuel IH]; intros context final Hover; [done|].
  destruct (fixpoint_round_over N context Hover) as (c1&new&Hround&_&Hover1&Hnew).
  cbn [fixpoint]. rewrite Hround. cbn [bind fst snd].
  case_bool_decide; [by intros [= <-]|]. apply IH.
  apply add_new_facts_over; [done|]. intros d Hd. by apply Hnew.
Qed.

Lemma unify_no_own_error pattern fact subst t :
  unify pattern fact subst ≠ Raise (TypeError_unification t).
Proof.
  unfold unify. destruct pattern as [p| | |]; [|done..].
  destruct (apply_substitution_expr p subst) as (p'&->&_). cbn [bind].
  destruct fact as [f| | |]; [|done..].
  destruct (apply_substitution_expr f subst) as (f'&->&_). cbn [bind].
  case_bool_decide as Hty; cbn [negb]; [|done].
  destruct p' as [?|?|?], f' as [?|?|?]; done.
Qed.

(** C8.  Evaluating a parsed program never fails: with enough rounds
    [eval_program] ends normally, however many rounds it is given it never
    raises, and the unsupported-node branch of [unify] is taken on no input
    at all (the one of [apply_substitution] is taken first). *)
Theorem eval_program_total (ast : list ast_node) :
  (∃ fuel stdout, eval_program fuel ast = (stdout, Ok ())) ∧
  (∀ fuel e, (eval_program fuel ast).2 ≠ Raise e) ∧
  (∀ pattern fact subst t,
     unify pattern fact subst ≠ Raise (TypeError_unification t)).
Proof.
  pose proof (initial_context_over ast) as Hover.
  set (N := program_names ast) in *. set (context := initial_context ast) in *.
  split; [|split].
  - destruct (fixpoint_terminates N (size (universe N ∖ facts context)) context)
      as (final&last&Hfix&_&_&Hfinal&_); [done|done|].
    destruct (print_queries_ok (queries_of ast) final []) as [out Hout].
    { intros f Hf. destruct (over_facts _ _ Hfinal f Hf) as (e&->&_). by exists e. }
    exists (S (size (universe N ∖ facts context))), out.
    unfold eval_program. fold context. by rewrite Hfix, Hout.
  - intros fuel e. unfold eval_program. fold context.
    destruct (fixpoint fuel context) as [final|e'|] eqn:Hfix; cbn.
    + pose proof (fixpoint_result_over N fuel context final Hover Hfix) as Hfinal.
      destruct (print_queries_ok (queries_of ast) final []) as [out ->]; [|done].
      intros f Hf. destruct (over_facts _ _ Hfinal f Hf) as (e0&->&_). by exists e0.
    + by destruct (fixpoint_no_raise N fuel context Hover e').
    + done.
  - apply unify_no_own_error.
Qed.

(** * The clause segmenter *)

Lemma string_app_nil_l (s : string) : "" +:+ s = s.
Proof. reflexivity. Qed.

Lemma string_app_cons a (s1 s2 : string) :
  String a s1 +:+ s2 = String a (s1 +:+ s2).
Proof. reflexivity. Qed.

Lemma prefix_nil (s : string) : String.prefix "" s = true.
Proof. by destruct s. Qed.

Lemma prefix_spec (s1 s2 : string) :
  String.prefix s1 s2 = true ↔ ∃ rest, s2 = s1 +:+ rest.
Proof.
  revert s2. induction s1 as [|a s1 IH]; intros s2.
  - rewrite prefix_nil. split; [|done]. intros _. by exists s2.
  - destruct s2 as [|b s2]; cbn [String.prefix].
    + split; [done|]. intros [rest Hr]. by rewrite string_app_cons in Hr.
    + destruct (Ascii.ascii_dec a b) as [->|Hne].
      * rewrite IH. split; intros [rest Hr]; exists rest.
        -- by rewrite string_app_cons, Hr.
        -- rewrite string_app_cons in Hr. by injection Hr.
      * split; [done|]. intros [rest Hr]. rewrite string_app_cons in Hr.
        injection Hr as ? ?. done.
Qed.

Lemma string_length_app (s1 s2 : string) :
  String.length (s1 +:+ s2) = (String.length s1 + String.length s2)%nat.
Proof.
  induction s1 as [|a s1 IH]; [done|].
  rewrite string_app_cons. cbn [String.length]. by rewrite IH.
Qed.

Lemma str_take_app (s1 s2 : string) :
  Parser.str_take (String.length s1) (s1 +:+ s2) = s1.
Proof.
  induction s1 as [|a s1 IH]; [by destruct s2|].
  rewrite string_app_cons. cbn [String.length Parser.str_take]. by rewrite IH.
Qed.

Lemma str_drop_app (s1 s2 : string) :
  Parser.str_drop (String.length s1) (s1 +:+ s2) = s2.
Proof.
  induction s1 as [|a s1 IH]; [by destruct s2|].
  rewrite string_app_cons. cbn [String.length Parser.str_drop]. by rewrite IH.
Qed.

Lemma find_unfold (text sub : string) :
  Parser.find text sub =
  if String.prefix sub text then Some 0
  else match text with
       | EmptyString => None
       | String _ text => S <$> Parser.find text sub
       end.
Proof. by destruct text. Qed.

Lemma find_Some_match text sub n :
  Parser.find text sub = Some n →
  ∃ before after, first_match sub text before after ∧ String.length before = n.
Proof.
  revert n. induction text as [|c text IH]; intros n; rewrite find_unfold;
    destruct (String.prefix sub _) eqn:Hp.
  - apply prefix_spec in Hp as [rest Hr]. intros [= <-].
    exists "", rest. split; [|done]. split; [done|]. intros. cbn. lia.
  - done.
  - apply prefix_spec in Hp as [rest Hr]. intros [= <-].
    exists "", rest. split; [|done]. split; [done|]. intros. cbn. lia.
  - destruct (Parser.find text sub) as [m|] eqn:Hf; [|done]. intros [= <-].
    destruct (IH m eq_refl) as (before&after&[Heq Hmin]&Hlen).
    exists (String c before), after. split; [|by cbn; rewrite Hlen].
    split; [by rewrite string_app_cons, Heq|].
    intros before' after' Heq'. destruct before' as [|c' before'].
    + assert (String.prefix sub (String c text) = true) as Hp'; [|congruence].
      apply prefix_spec. by exists after'.
    + rewrite string_app_cons in Heq'. injection Heq' as -> Heq'.
      cbn. specialize (Hmin _ _ Heq'). lia.
Qed.

Lemma find_occurs text sub : occurs_in sub text → is_Some (Parser.find text sub).
Proof.
  intros (before&after&->). induction before as [|c before IH];
    rewrite find_unfold.
  - replace (String.prefix sub _) with true; [done|]. symmetry.
    apply prefix_spec. by exists after.
  - destruct (String.prefix sub _); [done|]. rewrite string_app_cons.
    destruct IH as [m ->]. done.
Qed.

Lemma find_None text sub : Parser.find text sub = None ↔ ¬ occurs_in sub text.
Proof.
  split.
  - intros Hf Hocc%find_occurs. rewrite Hf in Hocc. by destruct Hocc.
  - intros Hnot. destruct (Parser.find text sub) as [n|] eqn:Hf; [|done].
    destruct Hnot. apply find_Some_match in Hf as (before&after&[Heq _]&_).
    by exists before, after.
Qed.

Lemma string_app_inj_length (a1 a2 b1 b2 : string) :
  a1 +:+ b1 = a2 +:+ b2 → String.length a1 = String.length a2 →
  a1 = a2 ∧ b1 = b2.
Proof.
  revert a2. induction a1 as [|c a1 IH]; intros [|c' a2] Heq Hlen; try done.
  rewrite !string_app_cons in Heq. injection Heq as -> Heq.
  injection Hlen as Hlen. destruct (IH _ Heq Hlen) as [-> ->]. done.
Qed.

Lemma first_match_find verb text before after :
  first_match verb text before after →
  Parser.find text verb = Some (String.length before).
Proof.
  intros [Heq Hmin].
  destruct (find_occurs text verb) as [n Hn]; [by exists before, after|].
  rewrite Hn. f_equal.
  apply find_Some_match in Hn as (before'&after'&[Heq' Hmin']&<-).
  specialize (Hmin _ _ Heq'). specialize (Hmin' _ _ Heq). lia.
Qed.

Lemma find_verb_loop_none text (l : list string) found :
  (∀ v, v ∈ l → Parser.find text v = None) →
  fold_result (Parser.find_verb_step text) found l = Ok found.
Proof.
  revert found. induction l as [|h l IH]; intros found Hl; [done|].
  cbn [fold_result]. unfold Parser.find_verb_step at 1.
  rewrite (Hl h) by (by left). cbn [bind]. apply IH. intros v Hv. apply Hl. by right.
Qed.

Lemma find_verb_loop_taken text (l : list string) x v :
  v ∈ l → is_Some (Parser.find text v) →
  fold_result (Parser.find_verb_step text) (Some x) l = Raise (ParseError MultipleVerbs).
Proof.
  induction l as [|h l IH]; intros Hv Hs; [by apply elem_of_nil in Hv|].
  cbn [fold_result]. unfold Parser.find_verb_step at 1.
  destruct (Parser.find text h) as [pos|] eqn:Hh; [done|]. cbn [bind].
  apply elem_of_cons in Hv as [->|Hv]; [|by apply IH].
  rewrite Hh in Hs. by destruct Hs.
Qed.

Lemma find_verb_loop_unique text (l : list string) v pos :
  NoDup l → v ∈ l → Parser.find text v = Some pos →
  (∀ v', v' ∈ l → is_Some (Parser.find text v') → v' = v) →
  fold_result (Parser.find_verb_step text) None l = Ok (Some (v, pos)).
Proof.
  induction l as [|h l IH]; intros Hnd Hv Hf Huniq; [by apply elem_of_nil in Hv|].
  apply NoDup_cons in Hnd as [Hh Hnd].
  cbn [fold_result]. unfold Parser.find_verb_step at 1.
  destruct (decide (h = v)) as [->|Hne].
  - rewrite Hf. cbn [bind]. apply find_verb_loop_none. intros v' Hv'.
    destruct (Parser.find text v') eqn:Hf'; [|done].
    assert (v' = v) as ->; [|done]. apply Huniq; [by right|by rewrite Hf'].
  - destruct (Parser.find text h) eqn:Hh'.
    + destruct Hne. apply Huniq; [by left|by rewrite Hh'].
    + cbn [bind]. apply elem_of_cons in Hv as [->|Hv]; [done|].
      apply IH; try done. intros v' Hv'. apply Huniq. by right.
Qed.

Lemma find_verb_loop_multiple text (l : list string) v1 v2 :
  v1 ∈ l → v2 ∈ l → v1 ≠ v2 →
  is_Some (Parser.find text v1) → is_Some (Parser.find text v2) →
  fold_result (Parser.find_verb_step text) None l = Raise (ParseError MultipleVerbs).
Proof.
  induction l as [|h l IH]; intros H1 H2 Hne Hs1 Hs2; [by apply elem_of_nil in H1|].
  cbn [fold_result]. unfold Parser.find_verb_step at 1.
  destruct (Parser.find text h) as [pos|] eqn:Hh; cbn [bind].
  - apply elem_of_cons in H1 as [->|H1].
    + apply elem_of_cons in H2 as [->|H2]; [done|].
      by apply (find_verb_loop_taken text l _ v2).
    + by apply (find_verb_loop_taken text l _ v1).
  - apply elem_of_cons in H1 as [->|H1]; [rewrite Hh in Hs1; by destruct Hs1|].
    apply elem_of_cons in H2 as [->|H2]; [rewrite Hh in Hs2; by destruct Hs2|].
    by apply IH.
Qed.

Lemma is_marked_spec (s : string) :
  Parser.is_marked s = true ↔ ∃ rest, s = Parser.variable_marker +:+ rest.
Proof. apply prefix_spec. Qed.

(** C4.  When the identifier tokens of a clause are the single token
    [first_token], [parse_svo_clause] fails with the undeclared-verb error
    if no verb of the lexicon occurs in the token's text, with the
    multiple-verbs error if two different verbs of the lexicon occur in it,
    and otherwise, for the one verb that occurs and its first occurrence:
    with the missing-subject error if nothing precedes the occurrence, else
    with the missing-object error if nothing follows it, else it returns the
    clause whose subject is the text before the occurrence and whose object
    is the text after it, the verb not a variable; the subject and the
    object are marked variable exactly when they start with the marker. *)
Theorem parse_svo_clause_single_token fuel first_token self self' :
  Parser.collect_identifiers fuel [first_token] self = Ok ([first_token], self') →
  let text := Parser.value first_token in
  let lexicon := Parser.verb_lexicon self' in
  let parsed := Parser.parse_svo_clause fuel first_token self in
  ((∀ verb, verb ∈ lexicon → ¬ occurs_in verb text) →
     parsed = Raise (ParseError UndeclaredVerb)) ∧
  ((∃ verb1 verb2, verb1 ∈ lexicon ∧ verb2 ∈ lexicon ∧ verb1 ≠ verb2 ∧
      occurs_in verb1 text ∧ occurs_in verb2 text) →
     parsed = Raise (ParseError MultipleVerbs)) ∧
  (∀ verb before after,
     verb ∈ lexicon →
     (∀ verb', verb' ∈ lexicon → occurs_in verb' text → verb' = verb) →
     first_match verb text before after →
     (before = "" → parsed = Raise (ParseError MissingSubject)) ∧
     (before ≠ "" → after = "" → parsed = Raise (ParseError MissingObject)) ∧
     (before ≠ "" → after ≠ "" →
        parsed = Ok (mkSVOClause before (Parser.is_marked before) verb false
                                 after (Parser.is_marked after), self'))) ∧
  (∀ s, Parser.is_marked s = true ↔ ∃ rest, s = Parser.variable_marker +:+ rest).
Proof.
  intros Hcollect text lexicon parsed.
  assert (parsed =
    (clause ←! Parser.split_single_token lexicon text; Ok (clause, self'))) as ->.
  { unfold parsed, Parser.parse_svo_clause, Parser.pbind. by rewrite Hcollect. }
  unfold Parser.split_single_token.
  split; [|split; [|split]].
  - intros Hnone. rewrite find_verb_loop_none; [done|].
    intros v Hv%elem_of_elements. by apply find_None, Hnone.
  - intros (v1&v2&H1&H2&Hne&Ho1&Ho2).
    rewrite (find_verb_loop_multiple text _ v1 v2); try done;
      try (by apply elem_of_elements); by apply find_occurs.
  - intros verb before after Hverb Huniq Hmatch.
    pose proof (first_match_find _ _ _ _ Hmatch) as Hfind.
    rewrite (find_verb_loop_unique text _ verb (String.length before)); try done.
    + cbn [bind]. destruct Hmatch as [Heq _].
      split; [|split].
      * intros ->. done.
      * intros Hb ->. rewrite bool_decide_false by (by destruct before).
        rewrite bool_decide_true; [done|].
        rewrite Heq, !string_length_app. cbn. lia.
      * intros Hb Ha. rewrite bool_decide_false by (by destruct before).
        rewrite bool_decide_false.
        2:{ rewrite Heq, !string_length_app. destruct after; [done|]. cbn. lia. }
        cbn [bind]. rewrite Heq at 1 2 3 4.
        rewrite str_take_app.
        replace (before +:+ verb +:+ after) with ((before +:+ verb) +:+ after).
        2:{ clear. induction before as [|c b IH]; [done|].
            rewrite !string_app_cons. by rewrite IH. }
        rewrite <-string_length_app, str_drop_app. done.
    + apply NoDup_elements.
    + by apply elem_of_elements.
    + intros v' Hv'%elem_of_elements Hs. apply Huniq; [done|].
      destruct (Parser.find text v') eqn:Hf; [|by destruct Hs].
      apply find_Some_match in Hf as (b&a&[Hba _]&_). by exists b, a.
  - apply is_marked_spec.
Qed.

(** * Statement dispatch *)

Lemma contains_verb_false lexicon text :
  (∀ verb, verb ∈ lexicon → ¬ occurs_in verb text) →
  Parser.contains_verb lexicon text = false.
Proof.
  intros Hnone. unfold Parser.contains_verb.
  apply not_true_is_false. intros (v&Hv%list_elem_of_In&Hs)%existsb_exists.
  apply bool_decide_eq_true in Hs. apply elem_of_elements in Hv.
  specialize (Hnone v Hv). apply find_None in Hnone.
  rewrite Hnone in Hs. by destruct Hs.
Qed.

Lemma advance_token self token :
  Parser.peek 0 self = Ok (token, self) →
  Parser.type token ≠ Parser.EOF →
  Parser.advance self =
  Ok (token, Parser.mkParser (Parser.tokens self) (Parser.position self + 1)
               (Parser.verb_lexicon self)).
Proof.
  intros Hpeek Hne. unfold Parser.advance, Parser.pbind. rewrite Hpeek.
  by rewrite bool_decide_true.
Qed.

(** C5, as amended.  In an expression (a rule premise, a rule conclusion, a
    query), an identifier or variable token that contains no declared verb
    and is followed directly by a line break, the end of the input or one of
    the particles [乎], [則], [且] is parsed by [parse_expression] as a plain
    proposition that carries the token's variable flag.  As a top-level
    statement the same tokens go to the SVO segmenter, and [parse_statement]
    fails with the undeclared-verb error. *)
Theorem parse_expression_bare_proposition fuel self first_token next_token :
  let self' := Parser.mkParser (Parser.tokens self) (Parser.position self + 1)
                 (Parser.verb_lexicon self) in
  Parser.peek 0 self = Ok (first_token, self) →
  Parser.type first_token = Parser.IDENTIFIER
    ∨ Parser.type first_token = Parser.VARIABLE →
  (∀ verb, verb ∈ Parser.verb_lexicon self →
     ¬ occurs_in verb (Parser.value first_token)) →
  Parser.peek 0 self' = Ok (next_token, self') →
  expression_boundary next_token →
  Parser.parse_expression fuel self =
    Ok (EProposition (mkProposition (Parser.value first_token)
          (bool_decide (Parser.type first_token = Parser.VARIABLE))), self') ∧
  Parser.parse_statement (S fuel) self = Raise (ParseError UndeclaredVerb).
Proof.
  intros self' Hfirst Hty Hnone Hnext Hb.
  assert (Parser.type first_token ≠ Parser.EOF) as Hneof.
  { by destruct Hty as [-> | ->]. }
  assert (Parser.type first_token ≠ Parser.KEYWORD) as Hnkw.
  { by destruct Hty as [-> | ->]. }
  pose proof (advance_token self first_token Hfirst Hneof) as Hadv. fold self' in Hadv.
  pose proof (contains_verb_false _ _ Hnone) as Hcv.
  assert (¬ (Parser.type next_token = Parser.KEYWORD ∧ Parser.value next_token = "者"))
    as Hzhe.
  { intros [Hk Hv]. destruct Hb as [Hb|[Hb|[_ [Hb|[Hb|Hb]]]]]; congruence. }
  split.
  - unfold Parser.parse_expression, Parser.pbind. rewrite Hfirst.
    rewrite bool_decide_false by (intros [? _]; done).
    rewrite bool_decide_false by (intros [? ?]; by destruct Hty).
    rewrite Hadv, Hnext. rewrite bool_decide_false by done.
    cbn [Parser.verb_lexicon self']. rewrite Hcv. cbn [negb andb].
    destruct Hb as [Hb|[Hb|Hb]].
    + rewrite bool_decide_true by (by left). done.
    + rewrite bool_decide_true by (by right). done.
    + rewrite (bool_decide_true (_ ∧ _)) by done.
      by destruct (bool_decide _).
  - unfold Parser.parse_statement, Parser.pbind.
    cbn [Parser.skip_blank]. unfold Parser.pbind. rewrite Hfirst.
    rewrite bool_decide_false by (intros [?|?]; destruct Hty; congruence).
    unfold Parser.ret at 1. rewrite Hfirst.
    rewrite bool_decide_false by done. rewrite bool_decide_false by done.
    rewrite bool_decide_true by (destruct Hty; [by left|by right]).
    rewrite Hadv, Hnext. rewrite bool_decide_false by done.
    unfold Parser.parse_svo_clause, Parser.pbind.
    cbn [Parser.collect_identifiers]. unfold Parser.pbind. rewrite Hnext.
    rewrite bool_decide_true.
    2:{ destruct Hb as [Hb|[Hb|[Hb _]]]; [by left|right; by left|right; by right]. }
    unfold Parser.ret at 1. unfold Parser.split_single_token.
    rewrite find_verb_loop_none; [done|].
    intros v Hv%elem_of_elements. by apply find_None, Hnone.
Qed.

Lemma parse_expression_bare_proposition_witness :
  let first_token := Parser.mkToken Parser.IDENTIFIER "A" 1 2 in
  let self := Parser.mkParser
    [Parser.mkToken Parser.KEYWORD "問" 1 1; first_token;
     Parser.mkToken Parser.KEYWORD "乎" 1 3; Parser.mkToken Parser.EOF "" 1 4]
    1 ∅ in
  Parser.parse_expression 1 self =
    Ok (EProposition (mkProposition "A" false),
        Parser.mkParser (Parser.tokens self) 2 ∅) ∧
  Parser.parse_statement 2 self = Raise (ParseError UndeclaredVerb).
Proof.
  intros first_token self.
  apply (parse_expression_bare_proposition 1 self first_token
           (Parser.mkToken Parser.KEYWORD "乎" 1 3)).
  - reflexivity.
  - by left.
  - intros verb Hverb. by apply not_elem_of_empty in Hverb.
  - reflexivity.
  - right. right. split; [reflexivity|by left].
Defined.

(** The input of [test_svo_undeclared_verb_error]: a top-level statement
    that is one identifier token, with no verb declared, followed by the
    end of the input. *)
Lemma parse_statement_bare_identifier_counterexample :
  let first_token := Parser.mkToken Parser.IDENTIFIER "人愛狗" 1 1 in
  let self := Parser.mkParser [first_token; Parser.mkToken Parser.EOF "" 1 4] 0 ∅ in
  Parser.peek 0 self = Ok (first_token, self) ∧
  (∀ verb, verb ∈ Parser.verb_lexicon self →
     ¬ occurs_in verb (Parser.value first_token)) ∧
  Parser.peek 1 self = Ok (Parser.mkToken Parser.EOF "" 1 4, self) ∧
  ∀ fuel, ¬ ∃ proposition self',
    Parser.parse_statement fuel self
    = Ok (Some (Expr (EProposition proposition)), self').
Proof.
  intros first_token self. split; [reflexivity|]. split.
  { intros verb Hverb. by apply not_elem_of_empty in Hverb. }
  split; [reflexivity|].
  intros [|fuel] (p&s&H); [discriminate H|].
  assert (Parser.parse_statement (S fuel) self = Raise (ParseError UndeclaredVerb))
    as Hr; [|rewrite Hr in H; discriminate H].
  vm_compute. reflexivity.
Qed.

(** * Witnesses *)

Lemma parse_svo_clause_single_token_witness :
  let first_token := Parser.mkToken Parser.IDENTIFIER "AlovesB" 1 1 in
  let self := Parser.mkParser [first_token; Parser.mkToken Parser.EOF "" 1 8]
                1 {[ "loves" ]} in
  Parser.collect_identifiers 1 [first_token] self = Ok ([first_token], self) ∧
  Parser.parse_svo_clause 1 first_token self =
    Ok (mkSVOClause "A" false "loves" false "B" false, self).
Proof.
  intros first_token self.
  assert (Parser.collect_identifiers 1 [first_token] self = Ok ([first_token], self))
    as Hcollect by reflexivity.
  split; [done|].
  destruct (parse_svo_clause_single_token 1 first_token self self Hcollect)
    as (_&_&Hsplit&_).
  destruct (Hsplit "loves" "A" "B") as (_&_&Hok).
  - change ("loves" ∈ ({[ "loves" ]} : gset string)). by apply elem_of_singleton.
  - intros verb' Hverb' _.
    change (verb' ∈ ({[ "loves" ]} : gset string)) in Hverb'.
    by apply elem_of_singleton in Hverb'.
  - split; [reflexivity|]. intros [|c before'] after' Heq; [discriminate Heq|].
    cbn. lia.
  - by apply Hok.
Defined.

Lemma apply_rule_spec_witness :
  let A := Expr (EProposition (mkProposition "A" false)) in
  let rule := mkRule [EProposition (mkProposition "其X" true)]
                     (EProposition (mkProposition "B" false)) in
  let context := mkContext {[ A ]} ∅ [rule] ∅ in
  facts_are_exprs (facts context) ∧
  ∃ derived_facts, apply_rule rule context = Ok derived_facts.
Proof.
  intros A rule context.
  assert (facts_are_exprs (facts context)) as Hfacts.
  { intros f Hf. cbn in Hf. apply elem_of_singleton in Hf. by eexists. }
  split; [done|].
  destruct (apply_rule_spec rule context Hfacts) as (_&derived&Hok&_).
  by exists derived.
Defined.

(** * More on substitution and unification *)

Lemma subst_slot_again name is_var (subst : substitution) :
  subst_slot (subst_slot name is_var subst) (subst_flag name is_var subst) subst
  = subst_slot name is_var subst.
Proof.
  unfold subst_slot, subst_flag. destruct is_var; [|done]. cbn [andb].
  destruct (subst !! name) as [v|] eqn:Hv.
  - by rewrite bool_decide_false.
  - rewrite bool_decide_true by done. cbn. by rewrite Hv.
Qed.

Lemma subst_flag_again name is_var (subst : substitution) :
  subst_flag (subst_slot name is_var subst) (subst_flag name is_var subst) subst
  = subst_flag name is_var subst.
Proof.
  unfold subst_slot, subst_flag. destruct is_var; [|done]. cbn [andb].
  destruct (subst !! name) as [v|] eqn:Hv.
  - by rewrite bool_decide_false.
  - rewrite bool_decide_true by done. cbn. rewrite Hv. by rewrite bool_decide_true.
Qed.

(** X1.  Applying a substitution twice is applying it once: on every node
    and for every substitution, [apply_substitution] applied to its own
    result returns that result, and it raises on the second call only if it
    raised on the first. *)
Theorem apply_substitution_idempotent (node : ast_node) (subst : substitution) :
  (node' ←! apply_substitution node subst; apply_substitution node' subst)
  = apply_substitution node subst.
Proof.
  destruct node as [[p|c|e]| | |]; try done; cbn [apply_substitution bind].
  - destruct (is_variable p) eqn:Hv.
    + destruct (subst !! identifier p) as [v|] eqn:Hl; cbn [bind apply_substitution].
      * done.
      * by rewrite Hv, Hl.
    + cbn [bind apply_substitution]. by rewrite Hv.
  - cbn [subject subject_is_var verb verb_is_var object object_is_var].
    by rewrite !subst_slot_again, !subst_flag_again.
  - cbn [subtype subtype_is_var supertype supertype_is_var].
    by rewrite !subst_slot_again, !subst_flag_again.
Qed.

Lemma apply_substitution_ground_expr e (subst : substitution) :
  is_ground e = true → apply_substitution (Expr e) subst = Ok (Expr e).
Proof.
  destruct e as [[a []]|[a [] v [] o []]|[a [] z []]]; try done.
Qed.

Lemma unify_proposition_extends pattern fact (subst subst' : substitution) :
  _unify_proposition pattern fact subst = Some subst' → subst ⊆ subst'.
Proof.
  unfold _unify_proposition. intros H.
  destruct (is_variable pattern).
  - destruct (subst !! identifier pattern) as [bound|] eqn:Hb.
    + destruct (decide (bound = identifier fact)); [|done]. by injection H as <-.
    + injection H as <-. by apply insert_subseteq.
  - destruct (is_variable fact).
    + destruct (subst !! identifier fact) as [bound|] eqn:Hb.
      * destruct (decide (bound = identifier pattern)); [|done]. by injection H as <-.
      * injection H as <-. by apply insert_subseteq.
    + destruct (decide (identifier pattern = identifier fact)); [|done].
      by injection H as <-.
Qed.

Lemma unify_svo_clause_extends pattern fact (subst subst' : substitution) :
  _unify_svo_clause pattern fact subst = Some subst' → subst ⊆ subst'.
Proof.
  unfold _unify_svo_clause. intros H.
  destruct (_unify_proposition _ _ subst) as [s1|] eqn:H1; [|done]. cbn in H.
  destruct (_unify_proposition _ _ s1) as [s2|] eqn:H2; [|done]. cbn in H.
  apply unify_proposition_extends in H1, H2, H.
  by etrans; [|etrans].
Qed.

Lemma unify_classification_edge_extends pattern fact (subst subst' : substitution) :
  _unify_classification_edge pattern fact subst = Some subst' → subst ⊆ subst'.
Proof.
  unfold _unify_classification_edge. intros H.
  destruct (_unify_proposition _ _ subst) as [s1|] eqn:H1; [|done]. cbn in H.
  apply unify_proposition_extends in H1, H. by etrans.
Qed.

(** X2.  A successful [unify] only adds bindings: the substitution it
    returns contains the one it was given. *)
Theorem unify_extends_substitution (pattern fact : ast_node)
    (subst subst' : substitution) :
  unify pattern fact subst = Ok (Some subst') → subst ⊆ subst'.
Proof.
  unfold unify.
  destruct (apply_substitution pattern subst) as [p| |]; [|done..]. cbn [bind].
  destruct (apply_substitution fact subst) as [f| |]; [|done..]. cbn [bind].
  case_bool_decide as Hty; cbn [negb]; [|done].
  destruct p as [[p|p|p]| | |], f as [[f|f|f]| | |]; try done; intros [= H].
  - by eapply unify_proposition_extends.
  - by eapply unify_svo_clause_extends.
  - by eapply unify_classification_edge_extends.
Qed.

Lemma unify_extends_substitution_witness :
  ({[ "其Y" := "B" ]} : substitution) ⊆ {[ "其X" := "A"; "其Y" := "B" ]}.
Proof.
  apply (unify_extends_substitution
           (Expr (EProposition (mkProposition "其X" true)))
           (Expr (EProposition (mkProposition "A" false)))).
  vm_compute. reflexivity.
Defined.

(** The slot [(name, is_var)] of a pattern, once the incoming substitution
    [subst0] is applied, unified with the slot [value] of a ground fact:
    every substitution that extends the result sends the slot to [value]. *)
Lemma unify_slot_sound name is_var value (subst0 subst subst' subst'' : substitution) :
  subst0 ⊆ subst →
  _unify_proposition
    (mkProposition (subst_slot name is_var subst0) (subst_flag name is_var subst0))
    (mkProposition value false) subst = Some subst' →
  subst' ⊆ subst'' →
  subst_slot name is_var subst'' = value ∧ subst_flag name is_var subst'' = false.
Proof.
  unfold _unify_proposition, subst_slot, subst_flag.
  cbn [identifier is_variable]. intros H0 H Hext.
  destruct is_var; cbn [andb] in *.
  - destruct (subst0 !! name) as [a|] eqn:Ha.
    + rewrite bool_decide_false in H by done. cbn in H.
      destruct (decide (a = value)) as [->|]; [|done]. injection H as <-.
      assert (subst'' !! name = Some value) as Hl.
      { eapply lookup_weaken; [|exact Hext]. by eapply lookup_weaken. }
      rewrite Hl. by rewrite bool_decide_false.
    + rewrite bool_decide_true in H by done. cbn in H.
      assert (subst'' !! name = Some value) as Hl.
      { destruct (subst !! name) as [b|] eqn:Hb.
        - destruct (decide (b = value)) as [->|]; [|done]. injection H as <-.
          by eapply lookup_weaken.
        - injection H as <-. eapply lookup_weaken; [|exact Hext].
          by rewrite lookup_insert_eq. }
      rewrite Hl. by rewrite bool_decide_false.
  - destruct (decide (name = value)); [|done]. done.
Qed.

(** X3.  [unify] is sound on ground facts: when a pattern unifies with a
    fact that has no variable, the pattern under the returned substitution
    is the fact. *)
Theorem unify_sound (pattern fact : expr) (subst subst' : substitution) :
  is_ground fact = true →
  unify (Expr pattern) (Expr fact) subst = Ok (Some subst') →
  apply_substitution (Expr pattern) subst' = Ok (Expr fact).
Proof.
  intros Hg. unfold unify.
  rewrite (apply_substitution_ground_expr fact) by done.
  destruct pattern as [p|p|p], fact as [f|f|f];
    cbn [apply_substitution bind type_of];
    try (destruct (is_variable p); [destruct (subst !! identifier p)|];
         cbn [bind type_of]; done);
    try done.
  - destruct f as [fid fv]. cbn in Hg. apply negb_true_iff in Hg. cbn in Hg. subst fv.
    destruct p as [name v].
    assert (apply_substitution (Expr (EProposition (mkProposition name v))) subst
            = Ok (Expr (EProposition
                (mkProposition (subst_slot name v subst) (subst_flag name v subst)))))
      as Hp.
    { cbn. unfold subst_slot, subst_flag. destruct v; [|done].
      destruct (subst !! name); [by rewrite bool_decide_false|by rewrite bool_decide_true]. }
    cbn [identifier is_variable] in *.
    change (if v then match subst !! name with
                      | Some v0 => Ok (Expr (EProposition (mkProposition v0 false)))
                      | None => Ok (Expr (EProposition (mkProposition name v)))
                      end
            else Ok (Expr (EProposition (mkProposition name v))))
      with (apply_substitution (Expr (EProposition (mkProposition name v))) subst).
    rewrite Hp. cbn [bind type_of]. rewrite bool_decide_true by done. cbn [negb].
    intros [= H].
    destruct (unify_slot_sound name v fid subst subst subst' subst') as [Hs Hf];
      [done|done|done|].
    unfold subst_slot, subst_flag in Hs, Hf. destruct v; cbn in *.
    + destruct (subst' !! name) as [a|]; [by subst|].
      by rewrite bool_decide_true in Hf.
    + by subst.
  - destruct f as [fs fsv fv fvv fo fov]. cbn in Hg.
    apply andb_true_iff in Hg as [[H1 H2]%andb_true_iff H3].
    apply negb_true_iff in H1, H2, H3. subst fsv fvv fov.
    rewrite bool_decide_true by done. cbn [negb]. intros [= H].
    unfold _unify_svo_clause in H.
    cbn [subject subject_is_var verb verb_is_var object object_is_var] in H.
    destruct (_unify_proposition _ _ subst) as [s1|] eqn:E1; [|done]. cbn in H.
    destruct (_unify_proposition _ _ s1) as [s2|] eqn:E2; [|done]. cbn in H.
    pose proof (unify_proposition_extends _ _ _ _ E1) as X1.
    pose proof (unify_proposition_extends _ _ _ _ E2) as X2.
    pose proof (unify_proposition_extends _ _ _ _ H) as X3.
    destruct (unify_slot_sound _ _ _ subst subst s1 subst' (reflexivity _) E1)
      as [-> ->]; [by etrans|].
    destruct (unify_slot_sound _ _ _ subst s1 s2 subst' X1 E2) as [-> ->]; [done|].
    destruct (unify_slot_sound _ _ _ subst s2 subst' subst' (transitivity X1 X2) H)
      as [-> ->]; [done|].
    done.
  - destruct f as [fa fav fz fzv]. cbn in Hg.
    apply andb_true_iff in Hg as [H1 H2]. apply negb_true_iff in H1, H2. subst fav fzv.
    rewrite bool_decide_true by done. cbn [negb]. intros [= H].
    unfold _unify_classification_edge in H.
    cbn [subtype subtype_is_var supertype supertype_is_var] in H.
    destruct (_unify_proposition _ _ subst) as [s1|] eqn:E1; [|done]. cbn in H.
    pose proof (unify_proposition_extends _ _ _ _ E1) as X1.
    pose proof (unify_proposition_extends _ _ _ _ H) as X2.
    destruct (unify_slot_sound _ _ _ subst subst s1 subst' (reflexivity _) E1)
      as [-> ->]; [done|].
    destruct (unify_slot_sound _ _ _ subst s1 subst' subst' X1 H) as [-> ->]; [done|].
    done.
Qed.

Lemma unify_sound_witness :
  apply_substitution
    (Expr (ESVOClause (mkSVOClause "其X" true "喜歡" false "蘋果" false)))
    {[ "其X" := "小明" ]}
  = Ok (Expr (ESVOClause (mkSVOClause "小明" false "喜歡" false "蘋果" false))).
Proof.
  apply (unify_sound
           (ESVOClause (mkSVOClause "其X" true "喜歡" false "蘋果" false))
           (ESVOClause (mkSVOClause "小明" false "喜歡" false "蘋果" false)) ∅).
  - reflexivity.
  - vm_compute. reflexivity.
Defined.

Lemma unify_proposition_concrete a b (subst : substitution) :
  _unify_proposition (mkProposition a false) (mkProposition b false) subst
  = if decide (a = b) then Some subst else None.
Proof. done. Qed.

Lemma unify_ground_expr (pattern fact : expr) (subst : substitution) :
  is_ground pattern = true → is_ground fact = true →
  unify (Expr pattern) (Expr fact) subst
  = Ok (if decide (pattern = fact) then Some subst else None).
Proof.
  intros Hp Hf. unfold unify.
  rewrite !apply_substitution_ground_expr by done. cbn [bind].
  destruct pattern as [[a av]|[a av v vv o ov]|[a av z zv]],
           fact as [[b bv]|[b bv w wv q qv]|[b bv y yv]];
    cbn in Hp, Hf; cbn [type_of];
    try (rewrite bool_decide_false by done; cbn [negb];
         by rewrite decide_False by done).
  - apply negb_true_iff in Hp, Hf. subst av bv.
    rewrite bool_decide_true by done. lazy beta iota.
    rewrite unify_proposition_concrete.
    destruct (decide (a = b)) as [->|Hne].
    + by rewrite decide_True.
    + rewrite decide_False; [done|]. by intros [= ?].
  - apply andb_true_iff in Hp as [[H1 H2]%andb_true_iff H3].
    apply negb_true_iff in H1, H2, H3. subst av vv ov.
    apply andb_true_iff in Hf as [[H1 H2]%andb_true_iff H3].
    apply negb_true_iff in H1, H2, H3. subst bv wv qv.
    rewrite bool_decide_true by done. lazy beta iota. unfold _unify_svo_clause.
    cbn [subject subject_is_var verb verb_is_var object object_is_var].
    rewrite unify_proposition_concrete.
    destruct (decide (a = b)) as [->|Hne]; cbn [mbind option_bind];
      [|rewrite decide_False; [done|by intros [= ?]]].
    rewrite unify_proposition_concrete.
    destruct (decide (v = w)) as [->|Hne]; cbn [mbind option_bind];
      [|rewrite decide_False; [done|by intros [= ?]]].
    rewrite unify_proposition_concrete.
    destruct (decide (o = q)) as [->|Hne]; cbn [mbind option_bind];
      [|rewrite decide_False; [done|by intros [= ?]]].
    by rewrite decide_True.
  - apply andb_true_iff in Hp as [H1 H2]. apply negb_true_iff in H1, H2. subst av zv.
    apply andb_true_iff in Hf as [H1 H2]. apply negb_true_iff in H1, H2. subst bv yv.
    rewrite bool_decide_true by done. lazy beta iota. unfold _unify_classification_edge.
    cbn [subtype subtype_is_var supertype supertype_is_var].
    rewrite unify_proposition_concrete.
    destruct (decide (a = b)) as [->|Hne]; cbn [mbind option_bind];
      [|rewrite decide_False; [done|by intros [= ?]]].
    rewrite unify_proposition_concrete.
    destruct (decide (z = y)) as [->|Hne]; cbn [mbind option_bind];
      [|rewrite decide_False; [done|by intros [= ?]]].
    by rewrite decide_True.
Qed.

(** X4.  On two expressions without variables [unify] is the equality
    test: it returns the substitution unchanged when the two are equal and
    failure when they differ. *)
Theorem unify_ground (pattern fact : expr) (subst : substitution) :
  is_ground pattern = true → is_ground fact = true →
  (pattern = fact → unify (Expr pattern) (Expr fact) subst = Ok (Some subst)) ∧
  (pattern ≠ fact → unify (Expr pattern) (Expr fact) subst = Ok None).
Proof.
  intros Hp Hf. rewrite unify_ground_expr by done.
  split; intros H; [by rewrite decide_True|by rewrite decide_False].
Qed.

Lemma unify_ground_witness :
  let A := EProposition (mkProposition "A" false) in
  let B := EProposition (mkProposition "B" false) in
  (A = A → unify (Expr A) (Expr A) ∅ = Ok (Some ∅)) ∧
  (A ≠ B → unify (Expr A) (Expr B) ∅ = Ok None).
Proof.
  intros A B. split.
  - apply (unify_ground A A ∅); reflexivity.
  - apply (unify_ground A B ∅); reflexivity.
Defined.

(** X5.  A variable the substitution already binds unifies with a ground
    proposition exactly when it is bound to that proposition's identifier,
    and the substitution is returned unchanged. *)
Theorem unify_bound_variable (var bound value : string) (subst : substitution) :
  subst !! var = Some bound →
  unify (Expr (EProposition (mkProposition var true)))
        (Expr (EProposition (mkProposition value false))) subst
  = Ok (if decide (bound = value) then Some subst else None).
Proof.
  intros Hb. unfold unify. cbn [apply_substitution is_variable identifier].
  rewrite Hb. cbn [bind type_of]. rewrite bool_decide_true by done.
  lazy beta iota. by rewrite unify_proposition_concrete.
Qed.

Lemma unify_bound_variable_witness :
  unify (Expr (EProposition (mkProposition "其X" true)))
        (Expr (EProposition (mkProposition "B" false))) {[ "其X" := "A" ]}
  = Ok (if decide ("A" = "B") then Some {[ "其X" := "A" ]} else None).
Proof.
  apply (unify_bound_variable "其X" "A" "B" {[ "其X" := "A" ]}).
  reflexivity.
Defined.

(** * More on queries and rules *)

Lemma query_loop_ground e (l : list ast_node) :
  is_ground e = true →
  (∀ f, f ∈ l → ∃ e', f = Expr e' ∧ is_ground e' = true) →
  query_loop (Expr e) l
  = Ok (if decide (Expr e ∈ l) then derivable else not_derivable).
Proof.
  intros He. induction l as [|f l IH]; intros Hl.
  - cbn [query_loop]. rewrite decide_False; [done|]. by intros ?%elem_of_nil.
  - destruct (Hl f) as (e'&->&He'); [by left|].
    cbn [query_loop]. rewrite unify_ground_expr by done.
    destruct (decide (e = e')) as [->|Hne]; cbn [bind].
    + rewrite decide_True; [done|by left].
    + rewrite IH by (intros g Hg; apply Hl; by right).
      destruct (decide (Expr e ∈ l)) as [Hin|Hin].
      * rewrite decide_True; [done|by right].
      * rewrite decide_False; [done|].
        intros [[= ?]|?]%elem_of_cons; done.
Qed.

(** X6.  A query without variables over facts without variables is a
    membership test: [evaluate_query] returns the derivable symbol when the
    query's expression is a fact and the other symbol when it is not. *)
Theorem evaluate_query_ground (query : Query) (context : Context) :
  is_ground (expression query) = true →
  facts_are_ground (facts context) →
  evaluate_query (NQuery query) context
  = Ok (if decide (Expr (expression query) ∈ facts context)
        then derivable else not_derivable).
Proof.
  intros Hq Hfacts. unfold evaluate_query.
  rewrite query_loop_ground; [|done|].
  - destruct (decide (Expr (expression query) ∈ facts context)) as [Hin|Hin].
    + rewrite decide_True; [done|]. by apply elem_of_elements.
    + rewrite decide_False; [done|]. by rewrite elem_of_elements.
  - intros f Hf%elem_of_elements. by apply Hfacts.
Qed.

Lemma evaluate_query_ground_witness :
  let A := EProposition (mkProposition "A" false) in
  let B := EProposition (mkProposition "B" false) in
  let context := mkContext {[ Expr A ]} ∅ [] ∅ in
  evaluate_query (NQuery (mkQuery B)) context
  = Ok (if decide (Expr B ∈ facts context) then derivable else not_derivable).
Proof.
  intros A B context. apply (evaluate_query_ground (mkQuery B) context).
  - reflexivity.
  - intros f Hf. cbn in Hf. apply elem_of_singleton in Hf as ->. by exists A.
Defined.

(** The members of the result of [apply_rule], over facts of the three
    shapes. *)
Lemma apply_rule_members rule context :
  facts_are_exprs (facts context) →
  ∃ (premise_matches : list (list (ast_node * substitution))) derived_facts,
    apply_rule rule context = Ok derived_facts ∧
    Forall2 (λ premise matches, ∀ fact subst, (fact, subst) ∈ matches ↔
               fact ∈ facts context ∧
               unify (Expr premise) fact ∅ = Ok (Some subst))
            (premises rule) premise_matches ∧
    ∀ d, d ∈ derived_facts ↔
      ∃ combination merged,
        Forall2 (λ entry matches, entry ∈ matches) combination premise_matches ∧
        combine_substitutions combination = Some merged ∧
        apply_substitution (Expr (conclusion rule)) merged = Ok d ∧
        d ∉ facts context.
Proof.
  intros Hfacts. unfold apply_rule.
  destruct (collect_premise_matches_spec (premises rule) (elements (facts context)))
    as (pm&Hpm&HF).
  { intros f Hf%elem_of_elements. by apply Hfacts. }
  rewrite Hpm. cbn [bind].
  assert (Forall2 (λ premise matches, ∀ fact subst, (fact, subst) ∈ matches ↔
             fact ∈ facts context ∧ unify (Expr premise) fact ∅ = Ok (Some subst))
            (premises rule) pm) as HF'.
  { eapply Forall2_impl; [exact HF|]. intros premise matches H fact subst.
    specialize (H fact subst). cbv beta in H. rewrite H.
    by rewrite elem_of_elements. }
  destruct (existsb _ pm) eqn:Hany.
  - exists pm, ∅. split; [done|]. split; [done|].
    intros d. split; [by intros ?%not_elem_of_empty|].
    intros (c&m&Hc&_). exfalso.
    apply existsb_exists in Hany as (matches&Hin%list_elem_of_In&Hlen).
    apply bool_decide_eq_true, nil_length_inv in Hlen as ->.
    apply list_elem_of_lookup_1 in Hin as [i Hi].
    destruct (Forall2_lookup_r _ _ _ _ _ Hc Hi) as (x&_&Hx).
    by apply elem_of_nil in Hx.
  - destruct (derive_loop_spec rule context (product pm) ∅) as (R&HR&Hiff).
    exists pm, R. split; [done|]. split; [done|].
    intros d. rewrite Hiff. split.
    + intros [?%not_elem_of_empty|(c&m&Hc%elem_of_product&?)]; [done|].
      by exists c, m.
    + intros (c&m&Hc&?). right. exists c, m. split; [by apply elem_of_product|done].
Qed.

Lemma combine_substitutions_empty (combination : list (ast_node * substitution)) :
  (∀ entry, entry ∈ combination → entry.2 = ∅) →
  combine_substitutions combination = Some ∅.
Proof.
  intros Hall. pose proof (combine_substitutions_spec combination) as Hs.
  destruct (combine_substitutions combination) as [m|].
  - destruct Hs as [_ Hm]. f_equal. apply map_eq. intros var.
    rewrite lookup_empty. apply eq_None_not_Some. intros [v Hv].
    apply Hm in Hv as (entry&Hin&Hv). rewrite (Hall entry Hin) in Hv.
    by rewrite lookup_empty in Hv.
  - destruct Hs as (i&j&e1&e2&var&v1&v2&Hi&_&H1&_).
    rewrite (Hall e1) in H1 by (by eapply list_elem_of_lookup_2).
    by rewrite lookup_empty in H1.
Qed.

(** X7.  A rule whose premises have no variable, over facts without
    variables, fires exactly when every premise is a fact: [apply_rule]
    returns the singleton of the conclusion when all premises are facts and
    the conclusion is not one yet, and the empty set otherwise. *)
Theorem apply_rule_ground_premises (rule : Rule) (context : Context) :
  Forall (λ premise, is_ground premise = true) (premises rule) →
  facts_are_ground (facts context) →
  apply_rule rule context =
  Ok (if decide (Forall (λ premise, Expr premise ∈ facts context) (premises rule)
                 ∧ Expr (conclusion rule) ∉ facts context)
      then {[ Expr (conclusion rule) ]} else ∅).
Proof.
  intros Hprem Hfacts.
  destruct (apply_rule_members rule context) as (pm&R&->&HF&Hiff).
  { intros f Hf. destruct (Hfacts f Hf) as (e&->&_). by exists e. }
  f_equal. apply set_eq. intros d. rewrite Hiff.
  assert (∀ i premise matches entry,
    premises rule !! i = Some premise → pm !! i = Some matches →
    (entry ∈ matches ↔ entry = (Expr premise, ∅) ∧ Expr premise ∈ facts context))
    as Hmatch.
  { intros i premise matches [fact subst] Hp Hm.
    destruct (Forall2_lookup_lr _ _ _ _ _ _ HF Hp Hm fact subst) as [H1 H2].
    assert (is_ground premise = true) as Hg.
    { eapply Forall_lookup_1 in Hprem; [exact Hprem|exact Hp]. }
    split.
    - intros [Hin Hu]%H1. destruct (Hfacts fact Hin) as (e&->&He).
      rewrite unify_ground_expr in Hu by done.
      destruct (decide (premise = e)) as [->|]; [|done].
      injection Hu as <-. done.
    - intros [[= -> ->] Hin]. apply H2. split; [done|].
      rewrite unify_ground_expr by done. by rewrite decide_True. }
  split.
  - intros (c&m&Hc&Hm&Ha&Hd).
    assert (∀ entry, entry ∈ c → entry.2 = ∅) as Hempty.
    { intros entry [i Hi]%list_elem_of_lookup_1.
      destruct (Forall2_lookup_l _ _ _ _ _ Hc Hi) as (matches&Hmi&Hin).
      destruct (Forall2_lookup_r _ _ _ _ _ HF Hmi) as (premise&Hpi&_).
      destruct (proj1 (Hmatch i premise matches entry Hpi Hmi) Hin) as [Heq _].
      by rewrite Heq. }
    rewrite combine_substitutions_empty in Hm by done. injection Hm as <-.
    rewrite apply_substitution_empty in Ha. injection Ha as <-.
    rewrite decide_True; [by apply elem_of_singleton|]. split; [|done].
    apply Forall_lookup. intros i premise Hp.
    destruct (Forall2_lookup_l _ _ _ _ _ HF Hp) as (matches&Hmi&_).
    destruct (Forall2_lookup_r _ _ _ _ _ Hc Hmi) as (entry&_&Hin).
    by destruct (proj1 (Hmatch i premise matches entry Hp Hmi) Hin) as [_ ?].
  - destruct (decide _) as [[Hall Hnot]|Hno]; [|by intros ?%not_elem_of_empty].
    intros ->%elem_of_singleton.
    exists ((λ premise, (Expr premise, ∅)) <$> premises rule), ∅.
    split; [|split; [|split]].
    + apply Forall2_fmap_l. apply Forall2_same_length_lookup.
      split; [by eapply Forall2_length|].
      intros i premise matches Hp Hm.
      apply (Hmatch i premise matches _ Hp Hm). split; [done|].
      eapply Forall_lookup_1 in Hall; [exact Hall|exact Hp].
    + apply combine_substitutions_empty.
      intros entry (premise&->&_)%list_elem_of_fmap. done.
    + apply apply_substitution_empty.
    + done.
Qed.

Lemma apply_rule_ground_premises_witness :
  let A := EProposition (mkProposition "下雨" false) in
  let B := EProposition (mkProposition "週末" false) in
  let C := EProposition (mkProposition "在家" false) in
  let rule := mkRule [A; B] C in
  let context := mkContext {[ Expr A; Expr B ]} ∅ [rule] ∅ in
  apply_rule rule context =
  Ok (if decide (Forall (λ premise, Expr premise ∈ facts context) (premises rule)
                 ∧ Expr (conclusion rule) ∉ facts context)
      then {[ Expr (conclusion rule) ]} else ∅).
Proof.
  intros A B C rule context. apply (apply_rule_ground_premises rule context).
  - repeat constructor.
  - intros f Hf. cbn in Hf.
    apply elem_of_union in Hf as [Hf|Hf]; apply elem_of_singleton in Hf as ->;
      by eexists.
Defined.

(** * More on the closure *)

(** X8.  The fixed points of [compute_classification_closure] are exactly
    the sets of edges that are closed under the transitivity rule. *)
Theorem closure_fixed_point (E : gset ClassificationEdge) :
  compute_classification_closure E = E ↔ transitively_closed E.
Proof.
  unfold compute_classification_closure. split.
  - intros <-. apply closure_loop_closed.
  - intros Hc. rewrite closure_loop_eq, (closed_closure_pass E) by done.
    cbn. by rewrite (right_id_L ∅ (∪)).
Qed.

(** X9.  The closure is monotone: more edges give a closure that holds at
    least the same edges. *)
Theorem closure_monotone (E E' : gset ClassificationEdge) :
  E ⊆ E' → compute_classification_closure E ⊆ compute_classification_closure E'.
Proof.
  intros Hsub. unfold compute_classification_closure.
  apply closure_loop_least; [|apply closure_loop_closed].
  etrans; [exact Hsub|]. apply closure_loop_extensive.
Qed.

Lemma closure_monotone_witness :
  let edge a b := mkClassificationEdge a false b false in
  compute_classification_closure {[ edge "A" "B" ]}
  ⊆ compute_classification_closure {[ edge "A" "B"; edge "B" "C" ]}.
Proof.
  intros edge. apply closure_monotone.
  intros e He. apply elem_of_union. by left.
Defined.

(** X10.  The closure invents no name: every edge of the closure has the
    subtype name and flag of an input edge and the supertype name and flag
    of an input edge. *)
Theorem closure_endpoints (E : gset ClassificationEdge) (e : ClassificationEdge) :
  e ∈ compute_classification_closure E →
  ∃ edge1 edge2, edge1 ∈ E ∧ edge2 ∈ E ∧
    subtype e = subtype edge1 ∧ subtype_is_var e = subtype_is_var edge1 ∧
    supertype e = supertype edge2 ∧ supertype_is_var e = supertype_is_var edge2.
Proof.
  unfold compute_classification_closure. intros He.
  set (S := closure_candidates E ∩ closure_loop E).
  assert (closure_loop E ⊆ S) as Hsub.
  { apply closure_loop_least.
    - intros x Hx. apply elem_of_intersection.
      split; [by apply closure_subseteq_candidates|by apply closure_loop_extensive].
    - intros e1 e2 [H1 L1]%elem_of_intersection [H2 L2]%elem_of_intersection ? ? ?.
      apply elem_of_intersection. split; [|by apply closure_loop_closed].
      apply elem_of_closure_candidates in H1 as (a&a'&Ha&Ha'&->).
      apply elem_of_closure_candidates in H2 as (b'&b&Hb'&Hb&->).
      apply elem_of_closure_candidates. by exists a, b. }
  apply Hsub, elem_of_intersection in He as [He _].
  destruct (proj1 (elem_of_closure_candidates _ _) He) as (a&b&Ha&Hb&Heq).
  rewrite Heq. by exists a, b.
Qed.

Lemma closure_endpoints_witness :
  let edge a b := mkClassificationEdge a false b false in
  ∃ edge1 edge2 : ClassificationEdge,
    edge1 ∈ ({[ edge "A" "B"; edge "B" "C" ]} : gset ClassificationEdge) ∧
    edge2 ∈ ({[ edge "A" "B"; edge "B" "C" ]} : gset ClassificationEdge) ∧
    "A" = subtype edge1 ∧ false = subtype_is_var edge1 ∧
    "C" = supertype edge2 ∧ false = supertype_is_var edge2.
Proof.
  intros edge.
  apply (closure_endpoints {[ edge "A" "B"; edge "B" "C" ]} (edge "A" "C")).
  vm_compute. reflexivity.
Defined.

(** * More on the fixpoint driver *)

(** The loop over the rules of one round, as a function of the rule list. *)
Lemma rules_loop_empty context (rules : list Rule) acc :
  fold_result (λ new_facts rule,
    derived ←! apply_rule rule context; Ok (new_facts ∪ derived)) acc rules
  = Ok ∅ →
  acc = ∅ ∧ ∀ rule, rule ∈ rules → apply_rule rule context = Ok ∅.
Proof.
  revert acc. induction rules as [|rule rules IH]; intros acc H.
  - injection H as ->. split; [done|]. by intros rule ?%elem_of_nil.
  - cbn [fold_result] in H.
    destruct (apply_rule rule context) as [derived| |] eqn:Hr; [|done..].
    cbn [bind] in H. destruct (IH _ H) as [Hacc Hrest].
    apply empty_union_L in Hacc as [-> ->]. split; [done|].
    intros r [->|Hin]%elem_of_cons; [done|by apply Hrest].
Qed.

Lemma rules_loop_all_empty context (rules : list Rule) :
  (∀ rule, rule ∈ rules → apply_rule rule context = Ok ∅) →
  fold_result (λ new_facts rule,
    derived ←! apply_rule rule context; Ok (new_facts ∪ derived)) ∅ rules
  = Ok ∅.
Proof.
  induction rules as [|rule rules IH]; intros H; [done|].
  cbn [fold_result]. rewrite (H rule) by (by left). cbn [bind].
  rewrite (left_id_L ∅ (∪)). apply IH. intros r Hr. apply H. by right.
Qed.

(** How the loop ends: its last round derived nothing. *)
Lemma fixpoint_last_round fuel : ∀ context final,
  fixpoint fuel context = Ok final →
  ∃ last, fixpoint_round last = Ok (final, ∅).
Proof.
  induction fuel as [|fuel IH]; intros context final; [done|].
  cbn [fixpoint].
  destruct (fixpoint_round context) as [[c1 new]| |] eqn:Hround; [|done..].
  cbn [bind fst snd]. case_bool_decide as Hz.
  - intros [= <-]. exists context.
    apply size_empty_inv, leibniz_equiv in Hz as ->. done.
  - apply IH.
Qed.

Lemma filter_non_edges (F : gset ast_node) (E : gset ClassificationEdge) :
  filter (λ f, is_classification_edge f = false)
    (filter (λ f, is_classification_edge f = false) F ∪ set_map edge_node E)
  = filter (λ f, is_classification_edge f = false) F.
Proof.
  apply set_eq. intros f. rewrite !elem_of_filter, elem_of_union, elem_of_filter.
  split.
  - intros [Hne [[_ Hf]|(e&->&_)%elem_of_map]]; [done|discriminate Hne].
  - intros [Hne Hf]. split; [done|]. by left.
Qed.

(** X11.  The context [fixpoint] returns is stable: its classification
    edges are transitively closed, no rule derives a new fact from it, and
    one more round of [fixpoint] returns it unchanged. *)
Theorem fixpoint_stable (fuel : nat) (context final : Context) :
  fixpoint fuel context = Ok final →
  transitively_closed (classification_edges final) ∧
  (∀ rule, rule ∈ rules final → apply_rule rule final = Ok ∅) ∧
  fixpoint 1 final = Ok final.
Proof.
  intros (last&Hlast)%fixpoint_last_round.
  unfold fixpoint_round in Hlast.
  set (closed := compute_classification_closure (classification_edges last)) in *.
  set (F := filter (λ f, is_classification_edge f = false) (facts last)) in *.
  set (final' := mkContext (F ∪ set_map edge_node closed) closed (rules last)
                   (verb_lexicon last)) in *.
  destruct (fold_result _ _ _) as [new| |] eqn:Hfold; [|done..].
  cbn [bind] in Hlast. injection Hlast as <- ->.
  apply rules_loop_empty in Hfold as [_ Hrules].
  assert (transitively_closed closed) as Hclosed by apply closure_loop_closed.
  split; [done|]. split; [done|].
  assert (fixpoint_round final' = Ok (final', ∅)) as Hround.
  { unfold fixpoint_round. cbn [classification_edges facts rules verb_lexicon final'].
    assert (compute_classification_closure closed = closed) as ->.
    { unfold compute_classification_closure.
      rewrite closure_loop_eq, (closed_closure_pass closed) by done.
      cbn. by rewrite (right_id_L ∅ (∪)). }
    unfold F. rewrite !filter_non_edges. fold F. fold final'.
    change (rules last) with (rules final').
    by rewrite rules_loop_all_empty. }
  cbn [fixpoint]. rewrite Hround. cbn [bind fst snd]. done.
Qed.

Lemma fixpoint_stable_witness :
  let A := EProposition (mkProposition "A" false) in
  let B := EProposition (mkProposition "B" false) in
  let rule := mkRule [A] B in
  let final := mkContext {[ Expr A; Expr B ]} ∅ [rule] ∅ in
  transitively_closed (classification_edges final) ∧
  (∀ rule, rule ∈ rules final → apply_rule rule final = Ok ∅) ∧
  fixpoint 1 final = Ok final.
Proof.
  intros A B rule final.
  apply (fixpoint_stable 2 (mkContext {[ Expr A ]} ∅ [rule] ∅) final).
  vm_compute. reflexivity.
Defined.

(** * More on eval_program *)

Lemma query_loop_symbol expression (l : list ast_node) symbol :
  query_loop expression l = Ok symbol →
  symbol = derivable ∨ symbol = not_derivable.
Proof.
  induction l as [|f l IH]; cbn [query_loop].
  - intros [= <-]. by right.
  - destruct (unify expression f ∅) as [[s|]| |]; cbn [bind]; try done.
    intros [= <-]. by left.
Qed.

Lemma print_queries_lines queries context : ∀ stdout out,
  print_queries queries context stdout = (out, Ok ()) →
  ∃ lines, out = (stdout ++ lines)%list ∧
    Forall2 (λ query line, evaluate_query (NQuery query) context = Ok line ∧
                           (line = derivable ∨ line = not_derivable))
            queries lines.
Proof.
  induction queries as [|query queries IH]; intros stdout out; cbn [print_queries].
  - intros [= <-]. exists []. split; [by rewrite app_nil_r|constructor].
  - destruct (evaluate_query (NQuery query) context) as [line| |] eqn:Hq;
      [|by intros [= ? ?]..].
    intros (lines&->&HF)%IH. exists (line :: lines).
    split; [by rewrite <-app_assoc|]. constructor; [|done].
    split; [done|]. by eapply query_loop_symbol.
Qed.

(** X12.  When [eval_program] ends normally it has printed one line per
    query of the program, in order, each the result of [evaluate_query] on
    the final context of [fixpoint], and each one of the two symbols. *)
Theorem eval_program_output (fuel : nat) (ast : list ast_node) (stdout : list string) :
  eval_program fuel ast = (stdout, Ok ()) →
  ∃ final, fixpoint fuel (initial_context ast) = Ok final ∧
    Forall2 (λ query line, evaluate_query (NQuery query) final = Ok line ∧
                           (line = derivable ∨ line = not_derivable))
            (queries_of ast) stdout.
Proof.
  unfold eval_program.
  destruct (fixpoint fuel (initial_context ast)) as [final| |]; [|by intros [= ? ?]..].
  destruct (print_queries (queries_of ast) final []) as [out r] eqn:Hp.
  cbn [fst snd]. destruct r as [[]| |]; cbn; intros [= <-]; try done.
  apply print_queries_lines in Hp as (lines&->&HF).
  by exists final.
Qed.

Lemma eval_program_output_witness :
  let A := EProposition (mkProposition "A" false) in
  let B := EProposition (mkProposition "B" false) in
  let ast := [Expr A; NQuery (mkQuery A); NQuery (mkQuery B)] in
  ∃ final, fixpoint 2 (initial_context ast) = Ok final ∧
    Forall2 (λ query line, evaluate_query (NQuery query) final = Ok line ∧
                           (line = derivable ∨ line = not_derivable))
            (queries_of ast) ["⊤"; "?"].
Proof.
  intros A B ast. apply (eval_program_output 2 ast ["⊤"; "?"]).
  vm_compute. reflexivity.
Defined.

(** * The parser on the token lists of the lexer *)

Section parser_progress.
Local Open Scope nat_scope.

Lemma steps_wf L k self self' :
  parser_wf self → steps L k self self' → parser_wf self'.
Proof. intros [He Hp] (Ht&_&Hlt&_). split; rewrite Ht; done. Qed.

Lemma steps_remaining L k self self' :
  steps L k self self' → remaining self' + k ≤ remaining self.
Proof. intros (Ht&Hp&Hlt&_). unfold remaining. rewrite Ht. lia. Qed.

Lemma steps_refl L `{!Reflexive L} self :
  Parser.position self < length (Parser.tokens self) → steps L 0 self self.
Proof. intros Hp. split; [done|]. split; [lia|]. done. Qed.

Lemma steps_trans L `{!Transitive L} k1 k2 k s1 s2 s3 :
  steps L k1 s1 s2 → steps L k2 s2 s3 → k ≤ k1 + k2 → steps L k s1 s3.
Proof.
  intros (T1&P1&B1&L1) (T2&P2&B2&L2) Hk.
  split; [congruence|]. split; [lia|]. split; [by rewrite <-T1|]. by etrans.
Qed.

Lemma steps_lexicon k self self' :
  steps eq k self self' → Parser.verb_lexicon self' = Parser.verb_lexicon self.
Proof. by intros (_&_&_&->). Qed.

Lemma good_bind {A B} L `{!Transitive L} k1 k2 k
    (P1 : A → Parser.Parser → Prop) (P2 : B → Parser.Parser → Prop) self
    (m : Parser.parser A) (f : A → Parser.parser B) :
  good L k1 P1 self (m self) →
  (∀ a self1, m self = Ok (a, self1) → steps L k1 self self1 → P1 a self1 →
     good L k2 P2 self1 (f a self1)) →
  k ≤ k1 + k2 →
  good L k P2 self (Parser.pbind m f self).
Proof.
  intros Hm Hf Hk. unfold Parser.pbind.
  destruct (m self) as [[a self1]|e|] eqn:Hr; [|done..].
  cbn [good] in Hm. destruct Hm as [Hm HP1].
  specialize (Hf a self1 eq_refl Hm HP1).
  destruct (f a self1) as [[b self2]|e|]; [|done..]. cbn [good] in *.
  destruct Hf as [Hf HP2]. split; [|done]. by eapply steps_trans.
Qed.

Lemma good_weaken {A} (L L' : relation (gset string)) k k'
    (P P' : A → Parser.Parser → Prop) self (r : result (A * Parser.Parser)) :
  (∀ x y, L x y → L' x y) → k' ≤ k → (∀ a self', P a self' → P' a self') →
  good L k P self r → good L' k' P' self r.
Proof.
  intros HL Hk HP. destruct r as [[a self']|[]|]; try done.
  intros [(?&?&?&?) ?]. split; [|by apply HP].
  split; [done|]. split; [lia|]. split; [done|]. by apply HL.
Qed.

Lemma good_ret {A} L `{!Reflexive L} (P : A → Parser.Parser → Prop) self (a : A) :
  parser_wf self → P a self → good L 0 P self (Parser.ret a self).
Proof. intros [_ Hp] HP. split; [by apply steps_refl|done]. Qed.

Lemma good_raise {A} L k (P : A → Parser.Parser → Prop) self e :
  good L k P self (Parser.raise e self).
Proof. done. Qed.

(** ** peek, advance, expect *)

Lemma peek_wf self :
  parser_wf self →
  ∃ token, Parser.peek 0 self = Ok (token, self) ∧
    Parser.tokens self !! Parser.position self = Some token ∧
    (Parser.type token = Parser.EOF ↔ remaining self = 0).
Proof.
  intros [(body&eof&Ht&Heof&Hbody) Hp]. unfold Parser.peek, remaining.
  rewrite Nat.add_0_r.
  destruct (Parser.tokens self !! Parser.position self) as [token|] eqn:Hl.
  - exists token. split; [done|]. split; [done|].
    rewrite Ht in Hl |- *. rewrite length_app. cbn [length].
    destruct (decide (Parser.position self < length body)) as [Hlt|Hge].
    + rewrite lookup_app_l in Hl by done.
      eapply Forall_lookup_1 in Hbody; [|exact Hl]. split; [done|lia].
    + rewrite lookup_app_r in Hl by lia.
      rewrite Ht, length_app in Hp. cbn in Hp.
      replace (Parser.position self - length body) with 0 in Hl by lia.
      injection Hl as <-. split; [lia|done].
  - apply lookup_ge_None in Hl. lia.
Qed.

Lemma good_peek L `{!Reflexive L} self :
  parser_wf self →
  good L 0
    (λ token self', self' = self ∧
       Parser.tokens self !! Parser.position self = Some token ∧
       (Parser.type token = Parser.EOF ↔ remaining self = 0))
    self (Parser.peek 0 self).
Proof.
  intros Hwf. destruct (peek_wf self Hwf) as (t&->&?&?). cbn.
  split; [|done]. apply steps_refl; [done|apply Hwf].
Qed.

Lemma advance_Ok self token self' :
  parser_wf self → Parser.advance self = Ok (token, self') →
  Parser.tokens self !! Parser.position self = Some token ∧
  ((Parser.type token = Parser.EOF ∧ self' = self) ∨
   (Parser.type token ≠ Parser.EOF ∧
    self' = Parser.mkParser (Parser.tokens self) (Parser.position self + 1)
              (Parser.verb_lexicon self) ∧
    0 < remaining self)).
Proof.
  intros Hwf. destruct (peek_wf self Hwf) as (t&Hp&Hl&Heof).
  unfold Parser.advance, Parser.pbind. rewrite Hp.
  case_bool_decide as Hty.
  - intros [= <- <-]. split; [done|]. right. split; [done|]. split; [done|].
    destruct (remaining self); [|lia]. destruct Hty. by apply Heof.
  - intros [= <- <-]. split; [done|]. left. split; [|done].
    by destruct (decide (Parser.type t = Parser.EOF)).
Qed.

Lemma advance_total self :
  parser_wf self → ∃ token self', Parser.advance self = Ok (token, self').
Proof.
  intros Hwf. destruct (peek_wf self Hwf) as (t&Hp&_).
  unfold Parser.advance, Parser.pbind. rewrite Hp.
  case_bool_decide; by eexists _, _.
Qed.

(** [advance] returns the token under the cursor; the cursor moves unless the
    token is the end of the input. *)
Lemma good_advance L `{!Reflexive L} self :
  parser_wf self →
  good L 0
    (λ token self',
       Parser.tokens self !! Parser.position self = Some token ∧
       (Parser.type token ≠ Parser.EOF →
        Parser.position self + 1 ≤ Parser.position self'))
    self (Parser.advance self).
Proof.
  intros Hwf. destruct (advance_total self Hwf) as (t&s1&Ha). rewrite Ha.
  destruct (advance_Ok _ _ _ Hwf Ha) as [Hl [[Heof ->]|(_&->&Hrem)]]; cbn.
  - split; [|done]. apply steps_refl; [done|apply Hwf].
  - split; [|split; [done|cbn; lia]].
    split; [done|]. split; [cbn; lia|]. split; [|done]. cbn.
    unfold remaining in Hrem. lia.
Qed.

(** [advance] on a token other than the end of the input. *)
Lemma good_advance_moved L `{!Reflexive L} self token :
  parser_wf self →
  Parser.tokens self !! Parser.position self = Some token →
  Parser.type token ≠ Parser.EOF →
  good L 1 (λ token' self', token' = token) self (Parser.advance self).
Proof.
  intros Hwf Hl Hty. destruct (advance_total self Hwf) as (t&s1&Ha). rewrite Ha.
  destruct (advance_Ok _ _ _ Hwf Ha) as [Hl' [[Heof _]|(_&->&Hrem)]].
  { rewrite Hl in Hl'. injection Hl' as <-. done. }
  rewrite Hl in Hl'. injection Hl' as <-. split; [|done].
  split; [done|]. split; [cbn; lia|]. split; [|done]. cbn.
  unfold remaining in Hrem. lia.
Qed.

(** [expect] of a token type other than the end moves the cursor. *)
Lemma good_expect L `{!Reflexive L} self token_type val :
  parser_wf self → token_type ≠ Parser.EOF →
  good L 1
    (λ token _, Parser.type token = token_type ∧
       ∀ v, val = Some v → Parser.value token = v)
    self (Parser.expect token_type val self).
Proof.
  intros Hwf Hne. destruct (peek_wf self Hwf) as (t&Hp&Hl&_).
  unfold Parser.expect, Parser.pbind. rewrite Hp.
  case_bool_decide as Hty; [done|].
  assert (Parser.type t = token_type) as Hty'.
  { by destruct (decide (Parser.type t = token_type)). }
  assert (∀ P' : Parser.Token → Prop, P' t →
    good L 1 (λ token _, Parser.type token = token_type ∧ P' token)
      self (Parser.advance self)) as Hadv.
  { intros P' HP'. eapply good_weaken;
      [done|done| |apply (good_advance_moved L self t); try done; congruence].
    intros a _ ->. done. }
  destruct val as [v|].
  - case_bool_decide as Hv; [done|].
    assert (Parser.value t = v) by (by destruct (decide (Parser.value t = v))).
    apply (Hadv (λ token, ∀ v0, Some v = Some v0 → Parser.value token = v0)).
    by intros ? [= <-].
  - apply (Hadv (λ token, ∀ v0, None = Some v0 → Parser.value token = v0)). done.
Qed.

(** ** The parsing functions *)

(** One [pbind]: the first call by [lem], then the continuation from a
    well-formed state; [k2] is the progress asked of the continuation. *)
Ltac bind_at k2 lem :=
  eapply (good_bind eq _ k2 _ _ _);
  [ lem
  | let a := fresh "a" in let s := fresh "s" in
    let E := fresh "E" in let St := fresh "St" in let HP := fresh "HP" in
    intros a s E St HP;
    let W := fresh "Hwf" in
    pose proof (steps_wf _ _ _ _ ltac:(eassumption) St) as W; cbv beta in HP
  | lia ].

Ltac bind_with lem := bind_at 0 lem.

Ltac peek_at k2 :=
  bind_at k2 ltac:(by apply good_peek);
  [ match goal with
    | HP : _ = _ ∧ _ ∧ _ |- _ =>
        let Hl := fresh "Hl" in let He := fresh "Heof" in
        destruct HP as (->&Hl&He)
    end ].

Ltac bind_peek := peek_at 0.

Ltac fuel_left :=
  repeat match goal with
         | H : steps _ _ _ _ |- _ => apply steps_remaining in H
         end; lia.

(** A call whose value is not looked at. *)
Ltac keep k lem :=
  eapply (good_weaken eq eq _ k); [done| |intros ? ? HH; exact HH|lem]; [lia].

Ltac forget k lem :=
  eapply (good_weaken eq eq _ k); [done| |intros ? ? _; exact I|lem]; [lia].

Lemma good_parse_proposition self :
  parser_wf self →
  good eq 1 (λ _ _, True) self (Parser.parse_proposition self).
Proof.
  intros Hwf. unfold Parser.parse_proposition.
  bind_with ltac:(by apply good_expect).
  bind_peek.
  repeat case_bool_decide; try apply good_raise.
  - bind_with ltac:(by apply good_advance). by apply good_ret.
  - bind_with ltac:(by apply good_advance). by apply good_ret.
Qed.

Lemma good_collect_identifiers fuel : ∀ identifiers self,
  parser_wf self → remaining self < fuel →
  good eq 0 (λ _ _, True) self (Parser.collect_identifiers fuel identifiers self).
Proof.
  induction fuel as [|fuel IH]; intros identifiers self Hwf Hfuel; [lia|].
  cbn [Parser.collect_identifiers].
  bind_peek.
  case_bool_decide as Hb; [by apply good_ret|].
  assert (Parser.type a ≠ Parser.EOF) as Hne by (intros ?; apply Hb; auto).
  case_bool_decide.
  - bind_with ltac:(by apply (good_advance_moved eq _ a)).
    apply IH; [done|fuel_left].
  - bind_with ltac:(by apply (good_advance_moved eq _ a)).
    apply IH; [done|fuel_left].
Qed.

(** ** parse_svo_clause *)

Lemma find_verb_loop_ends text (l : list string) found :
  ends_or_parse_error
    (λ found', found' = found ∨ ∃ v pos, found' = Some (v, pos) ∧ v ∈ l)
    (fold_result (Parser.find_verb_step text) found l).
Proof.
  revert found. induction l as [|h l IH]; intros found; [by left|].
  cbn [fold_result]. unfold Parser.find_verb_step at 1.
  destruct (Parser.find text h) as [pos|]; [destruct found|]; cbn [bind]; [done|..].
  - specialize (IH (Some (h, pos))).
    destruct (fold_result _ _ l) as [found'|[]|]; try done. cbn in *.
    right. destruct IH as [->|(v&pos'&->&Hv)].
    + exists h, pos. split; [done|by left].
    + exists v, pos'. split; [done|by right].
  - specialize (IH found).
    destruct (fold_result _ _ l) as [found'|[]|]; try done. cbn in *.
    destruct IH as [->|(v&pos'&->&Hv)]; [by left|].
    right. exists v, pos'. split; [done|by right].
Qed.

Lemma split_single_token_ends lexicon text :
  ends_or_parse_error (λ clause, verb clause ∈ lexicon)
    (Parser.split_single_token lexicon text).
Proof.
  unfold Parser.split_single_token.
  pose proof (find_verb_loop_ends text (elements lexicon) None) as H.
  destruct (fold_result _ _ _) as [[[v pos]|]|[]|]; try done. cbn [bind].
  repeat case_bool_decide; try done. cbn.
  destruct H as [?|(v'&pos'&[= <- <-]&Hv)]; [done|]. by apply elem_of_elements.
Qed.

Lemma verb_positions_from_spec lexicon identifiers : ∀ i pos,
  pos ∈ Parser.verb_positions_from lexicon i identifiers →
  i ≤ pos ∧ ∃ token, identifiers !! (pos - i) = Some token ∧
    Parser.value token ∈ lexicon.
Proof.
  induction identifiers as [|token identifiers IH]; intros i pos;
    cbn [Parser.verb_positions_from].
  - intros H. by apply elem_of_nil in H.
  - assert (pos ∈ Parser.verb_positions_from lexicon (S i) identifiers →
      i ≤ pos ∧ ∃ token', (token :: identifiers) !! (pos - i) = Some token' ∧
        Parser.value token' ∈ lexicon) as Hrec.
    { intros H'. apply IH in H' as (Hle&t&Hl&Hv). split; [lia|]. exists t.
      replace (pos - i) with (S (pos - S i)) by lia. done. }
    case_bool_decide as Hv; [|done].
    intros [->|H']%elem_of_cons; [|by apply Hrec].
    split; [lia|]. exists token. by rewrite Nat.sub_diag.
Qed.

(** The index of the verb is inside the list: [identifiers[verb_pos]] never
    raises. *)
Lemma split_tokens_ends lexicon identifiers :
  ends_or_parse_error (λ clause, verb clause ∈ lexicon)
    (Parser.split_tokens lexicon identifiers).
Proof.
  unfold Parser.split_tokens.
  destruct (Parser.verb_positions_from lexicon 0 identifiers) as [|pos [|]] eqn:Hv;
    try done.
  repeat case_bool_decide; try done.
  destruct (verb_positions_from_spec lexicon identifiers 0 pos) as (_&t&Hl&Ht).
  { rewrite Hv. by left. }
  rewrite Nat.sub_0_r in Hl. rewrite Hl. done.
Qed.

Lemma good_parse_svo_clause fuel first_token self :
  parser_wf self → remaining self < fuel →
  good eq 0 (λ clause self', verb clause ∈ Parser.verb_lexicon self')
    self (Parser.parse_svo_clause fuel first_token self).
Proof.
  intros Hwf Hfuel. unfold Parser.parse_svo_clause.
  bind_with ltac:(by apply good_collect_identifiers).
  assert (∀ r : result SVOClause,
    ends_or_parse_error (λ clause, verb clause ∈ Parser.verb_lexicon s) r →
    good eq 0 (λ clause self', verb clause ∈ Parser.verb_lexicon self') s
      (clause ←! r; Ok (clause, s))) as Hr.
  { intros [c|[]|]; try done. intros Hc. cbn. split; [|done].
    apply steps_refl; [done|apply Hwf0]. }
  destruct a as [|t [|]]; apply Hr;
    auto using split_single_token_ends, split_tokens_ends.
Qed.

(** ** parse_classification_edge *)

Lemma good_collect_supertype fuel : ∀ supertype_parts supertype_is_var self,
  parser_wf self → remaining self < fuel →
  good eq 0 (λ _ _, True) self
    (Parser.collect_supertype fuel supertype_parts supertype_is_var self).
Proof.
  induction fuel as [|fuel IH]; intros parts is_var self Hwf Hfuel; [lia|].
  cbn [Parser.collect_supertype].
  bind_peek.
  assert (∀ parts' is_var', Parser.type a ≠ Parser.EOF →
    good eq 0 (λ _ _, True) self (Parser.pbind Parser.advance
      (λ token, Parser.collect_supertype fuel (parts' token) is_var') self))
    as Hstep.
  { intros parts' is_var' Hne.
    bind_with ltac:(by apply (good_advance_moved eq _ a)).
    apply IH; [done|fuel_left]. }
  case_bool_decide; [by apply good_ret|].
  case_bool_decide as H1; [apply (Hstep (λ token, _)); congruence|].
  case_bool_decide as H2; [apply (Hstep (λ token, _)); congruence|].
  case_bool_decide as H3; [apply (Hstep (λ token, _)); congruence|].
  by apply good_ret.
Qed.

Lemma good_parse_classification_edge fuel first_token self :
  parser_wf self → remaining self < fuel →
  good eq 1 (λ _ _, True) self
    (Parser.parse_classification_edge fuel first_token self).
Proof.
  intros Hwf Hfuel. unfold Parser.parse_classification_edge. cbv zeta.
  bind_with ltac:(by apply good_expect).
  bind_with ltac:(apply good_collect_supertype; [done|fuel_left]).
  destruct (a0.1); [apply good_raise|].
  bind_with ltac:(forget 1 ltac:(by apply good_expect)).
  by apply good_ret.
Qed.

(** ** parse_expression, parse_rule, parse_query *)

Lemma good_parse_expression fuel self :
  parser_wf self → remaining self < fuel →
  good eq 1 (λ e self', uses_declared_verb (Parser.verb_lexicon self') e)
    self (Parser.parse_expression fuel self).
Proof.
  intros Hwf Hfuel. unfold Parser.parse_expression.
  peek_at 1.
  case_bool_decide.
  { bind_with ltac:(by apply good_parse_proposition). by apply good_ret. }
  case_bool_decide as Hty; [apply good_raise|].
  assert (Parser.type a ≠ Parser.EOF) as Hne.
  { intros Heq. apply Hty. rewrite Heq. done. }
  bind_with ltac:(by apply (good_advance_moved eq _ a)).
  bind_peek.
  case_bool_decide.
  { bind_with ltac:(forget 0 ltac:(apply good_parse_classification_edge;
                                    [done|fuel_left])).
    by apply good_ret. }
  destruct (negb _ && bool_decide (_ ∨ _)); [by apply good_ret|].
  destruct (negb _ && bool_decide (_ ∧ _)); [by apply good_ret|].
  bind_with ltac:(apply good_parse_svo_clause; [done|fuel_left]).
  by apply good_ret.
Qed.

Lemma good_more_premises fuel : ∀ premises self,
  parser_wf self → remaining self < fuel →
  premises ≠ [] →
  Forall (uses_declared_verb (Parser.verb_lexicon self)) premises →
  good eq 0
    (λ premises' self', premises' ≠ [] ∧
       Forall (uses_declared_verb (Parser.verb_lexicon self')) premises')
    self (Parser.more_premises fuel premises self).
Proof.
  induction fuel as [|fuel IH]; intros premises self Hwf Hfuel Hne Hall; [lia|].
  cbn [Parser.more_premises].
  bind_peek.
  case_bool_decide; [|by apply good_ret].
  bind_with ltac:(by apply good_advance).
  bind_with ltac:(keep 1 ltac:(apply good_parse_expression; [done|fuel_left])).
  apply IH; [done|fuel_left|by intros [_ [=]]%app_eq_nil|].
  apply steps_lexicon in St0, St1. rewrite St1, St0 in HP0 |- *.
  apply Forall_app. split; [done|]. by apply Forall_singleton.
Qed.

Lemma good_parse_rule fuel self :
  parser_wf self → remaining self < fuel →
  good eq 1 (λ rule self', statement_wf (Parser.verb_lexicon self') (NRule rule))
    self (Parser.parse_rule fuel self).
Proof.
  intros Hwf Hfuel. unfold Parser.parse_rule.
  bind_with ltac:(by apply good_expect).
  bind_with ltac:(keep 1 ltac:(apply good_parse_expression; [done|fuel_left])).
  bind_with ltac:(apply good_more_premises;
    [done|fuel_left|done|by apply Forall_singleton]).
  bind_with ltac:(forget 1 ltac:(by apply good_expect)).
  bind_with ltac:(keep 1 ltac:(apply good_parse_expression; [done|fuel_left])).
  apply good_ret; [done..|]. cbn. destruct HP1 as [Hne Hall].
  apply steps_lexicon in St2, St3. rewrite St3, St2 in HP3 |- *. done.
Qed.

Lemma good_parse_query fuel self :
  parser_wf self → remaining self < fuel →
  good eq 1 (λ query self', statement_wf (Parser.verb_lexicon self') (NQuery query))
    self (Parser.parse_query fuel self).
Proof.
  intros Hwf Hfuel. unfold Parser.parse_query.
  bind_with ltac:(by apply good_expect).
  bind_with ltac:(keep 1 ltac:(apply good_parse_expression; [done|fuel_left])).
  bind_with ltac:(forget 1 ltac:(by apply good_expect)).
  apply good_ret; [done..|]. cbn. apply steps_lexicon in St1. by rewrite St1.
Qed.

(** ** parse_statement *)

Lemma good_skip_blank fuel : ∀ self,
  parser_wf self → remaining self < fuel →
  good eq 0 (λ _ _, True) self (Parser.skip_blank fuel self).
Proof.
  induction fuel as [|fuel IH]; intros self Hwf Hfuel; [lia|].
  cbn [Parser.skip_blank].
  bind_peek.
  case_bool_decide as Hty; [|by apply good_ret].
  assert (Parser.type a ≠ Parser.EOF) as Hne.
  { intros Heq. rewrite Heq in Hty. by destruct Hty. }
  bind_with ltac:(by apply (good_advance_moved eq _ a)).
  apply IH; [done|fuel_left].
Qed.

Lemma good_skip_newlines fuel : ∀ self,
  parser_wf self → remaining self < fuel →
  good eq 0 (λ _ _, True) self (Parser.skip_newlines fuel self).
Proof.
  induction fuel as [|fuel IH]; intros self Hwf Hfuel; [lia|].
  cbn [Parser.skip_newlines].
  bind_peek.
  case_bool_decide as Hty; [|by apply good_ret].
  assert (Parser.type a ≠ Parser.EOF) as Hne by congruence.
  bind_with ltac:(by apply (good_advance_moved eq _ a)).
  apply IH; [done|fuel_left].
Qed.

(** Runs one call of a [pbind] chain: its result by [lem], the outcomes other
    than a value closed. *)
Ltac run lem :=
  let G := fresh "G" in
  pose proof lem as G;
  match type of G with
  | good _ _ _ _ ?r =>
      let a := fresh "a" in let s := fresh "s" in let E := fresh "E" in
      destruct r as [[a s]|[]|] eqn:E; cbn [good] in G; try done
  end.

(** [parse_verb_declaration] adds the verb it returns to the lexicon. *)
Lemma good_parse_verb_declaration self :
  parser_wf self →
  good (⊆) 3
    (λ declaration self',
       Parser.verb_lexicon self' =
       {[ declared_verb declaration ]} ∪ Parser.verb_lexicon self)
    self (Parser.parse_verb_declaration self).
Proof.
  intros Hwf. unfold Parser.parse_verb_declaration, Parser.pbind.
  run (good_expect eq self Parser.KEYWORD (Some "以") Hwf ltac:(done)).
  destruct G as [G _]. pose proof (steps_wf _ _ _ _ Hwf G) as Hwf1.
  destruct (peek_wf s Hwf1) as (t&->&Hl&Ht).
  case_bool_decide as Hty; [done|].
  assert (Parser.type t ≠ Parser.EOF) as Hne.
  { intros Heq. apply Hty. by rewrite Heq. }
  run (good_advance_moved eq s t Hwf1 Hl Hne).
  destruct G0 as [G0 ->]. pose proof (steps_wf _ _ _ _ Hwf1 G0) as Hwf2.
  run (good_expect eq s0 Parser.KEYWORD (Some "為") Hwf2 ltac:(done)).
  destruct G1 as [G1 _]. pose proof (steps_wf _ _ _ _ Hwf2 G1) as Hwf3.
  run (good_expect eq s1 Parser.KEYWORD (Some "動") Hwf3 ltac:(done)).
  destruct G2 as [G2 _].
  destruct G as (T1&P1&B1&L1), G0 as (T2&P2&B2&L2), G1 as (T3&P3&B3&L3),
    G2 as (T4&P4&B4&L4).
  split; [|cbn; congruence].
  split; [cbn; congruence|]. split; [cbn; lia|].
  split; [cbn; rewrite <-T1, <-T2, <-T3; done|].
  cbn [Parser.verb_lexicon]. rewrite <-L4, <-L3, <-L2, <-L1.
  apply union_subseteq_r.
Qed.

(** A branch of [parse_statement] other than the verb declaration. *)
Lemma good_statement_branch {A} k0 k1 self s (m : Parser.parser A)
    (wrap : A → ast_node) :
  parser_wf s → steps eq k0 self s → 1 ≤ k0 + k1 →
  (∀ a lexicon, lexicon_after (wrap a) lexicon = lexicon) →
  good eq k1 (λ a self', statement_wf (Parser.verb_lexicon self') (wrap a)) s (m s) →
  good (⊆) 0 (statement_parsed self) s
    (Parser.pbind m (λ a, Parser.ret (Some (wrap a))) s).
Proof.
  intros Hwf Hs Hk Hwrap Hm. unfold Parser.pbind, Parser.ret.
  destruct (m s) as [[a s']|[]|]; try done. destruct Hm as [Hm Ha].
  pose proof (steps_lexicon _ _ _ Hm) as Hl'.
  pose proof (steps_lexicon _ _ _ Hs) as Hl.
  split.
  - destruct Hm as (?&?&?&?). split; [done|]. split; [lia|]. split; [done|].
    by rewrite Hl'.
  - cbn. rewrite Hwrap. destruct Hs as (_&Hp&_), Hm as (_&Hp'&_).
    split; [lia|]. split; [congruence|]. by rewrite <-Hl, <-Hl'.
Qed.

Lemma steps_eq_subseteq k self self' :
  steps eq k self self' → steps (⊆) k self self'.
Proof. intros (?&?&?&HL). repeat (split; [done|]). by rewrite HL. Qed.

Lemma good_parse_statement fuel self :
  parser_wf self → remaining self < fuel →
  good (⊆) 0 (statement_parsed self) self (Parser.parse_statement fuel self).
Proof.
  intros Hwf Hfuel. unfold Parser.parse_statement.
  eapply (good_bind (⊆) 0 0 0 (λ _ self', steps eq 0 self self'));
    [|intros [] s _ _ St|lia].
  { pose proof (good_skip_blank fuel self Hwf Hfuel) as G.
    destruct (Parser.skip_blank fuel self) as [[a s]|[]|]; try done.
    destruct G as [G _]. split; [by apply steps_eq_subseteq|done]. }
  pose proof (steps_wf _ _ _ _ Hwf St) as Hwf1.
  assert (remaining s < fuel) as Hfuel1 by (apply steps_remaining in St; lia).
  eapply (good_bind (⊆) 0 0 0); [apply good_peek; [apply _|done]| |lia].
  intros token ? _ _ (->&Hl&Heof).
  case_bool_decide as Heof'.
  { apply good_ret; [apply _|done|]. split; [by apply Heof|by apply steps_lexicon in St]. }
  case_bool_decide as Hkw.
  { case_bool_decide.
    { pose proof (good_parse_verb_declaration s Hwf1) as G.
      unfold Parser.pbind, Parser.ret.
      destruct (Parser.parse_verb_declaration s) as [[d s']|[]|]; try done.
      destruct G as [G Hd]. split.
      - destruct G as (T&P&B&LL). split; [done|]. split; [lia|]. done.
      - cbn. destruct St as (_&?&_&HL), G as (_&?&_). split; [lia|].
        split; [congruence|done]. }
    case_bool_decide.
    { apply (good_statement_branch 0 1 self s Parser.parse_proposition
               (λ p, Expr (EProposition p))); try done.
      eapply good_weaken; [done|done| |by apply good_parse_proposition]. done. }
    case_bool_decide.
    { apply (good_statement_branch 0 1 self s (Parser.parse_rule fuel) NRule);
        try done.
      by apply good_parse_rule. }
    case_bool_decide.
    { apply (good_statement_branch 0 1 self s (Parser.parse_query fuel) NQuery);
        try done.
      by apply good_parse_query. }
    apply good_raise. }
  case_bool_decide as Hid; [|apply good_raise].
  eapply (good_bind (⊆) 0 0 0 (λ _ self', steps eq 1 s self'));
    [|intros first_token s1 _ _ St1|lia].
  { pose proof (good_advance_moved eq s token Hwf1 Hl Heof') as G.
    destruct (Parser.advance s) as [[a s1]|[]|]; try done.
    destruct G as [G _]. split; [|done].
    apply steps_eq_subseteq. destruct G as (T&P&B&LL).
    split; [done|]. split; [lia|]. done. }
  pose proof (steps_wf _ _ _ _ Hwf1 St1) as Hwf2.
  assert (remaining s1 < fuel) as Hfuel2 by (apply steps_remaining in St1; lia).
  assert (steps eq 1 self s1) as St'.
  { eapply (steps_trans eq 0 1 1); [exact St|exact St1|lia]. }
  eapply (good_bind (⊆) 0 0 0); [apply good_peek; [apply _|done]| |lia].
  intros next_token ? _ _ (->&Hl1&Heof1).
  case_bool_decide.
  - apply (good_statement_branch 1 0 self s1
             (Parser.parse_classification_edge fuel first_token)
             (λ e, Expr (EClassificationEdge e))); try done.
    eapply good_weaken; [done| |
      |by apply good_parse_classification_edge]; [lia|done].
  - apply (good_statement_branch 1 0 self s1
             (Parser.parse_svo_clause fuel first_token)
             (λ c, Expr (ESVOClause c))); try done.
    by apply good_parse_svo_clause.
Qed.

(** ** parse_program_internal *)

Lemma lexicon_of_snoc lexicon ast statement :
  lexicon_of lexicon (ast ++ [statement]) =
  lexicon_after statement (lexicon_of lexicon ast).
Proof. unfold lexicon_of. by rewrite foldl_app. Qed.

Lemma declared_before_use_snoc ast : ∀ lexicon statement,
  declared_before_use lexicon (ast ++ [statement]) ↔
  declared_before_use lexicon ast ∧ statement_wf (lexicon_of lexicon ast) statement.
Proof.
  induction ast as [|h ast IH]; intros lexicon statement; cbn.
  - tauto.
  - rewrite IH. unfold lexicon_of. cbn. tauto.
Qed.

(** The lexicon the parser builds is the one [eval_program] builds from the
    verb declarations of the program. *)
Lemma lexicon_of_initial_context ast :
  lexicon_of ∅ ast = verb_lexicon (initial_context ast).
Proof.
  cbn [initial_context verb_lexicon].
  induction ast as [|statement ast IH] using rev_ind; [done|].
  rewrite lexicon_of_snoc, IH. unfold verb_declarations_of.
  rewrite omap_app, fmap_app, list_to_set_app_L.
  destruct statement as [e|r|q|d]; cbn; [by rewrite (right_id_L ∅ (∪))..|].
  rewrite (right_id_L ∅ (∪)). apply (comm_L (∪)).
Qed.

Lemma good_parse_program_loop fuel : ∀ statements self,
  parser_wf self → remaining self < fuel →
  Parser.verb_lexicon self = lexicon_of ∅ statements →
  declared_before_use ∅ statements →
  good (⊆) 0
    (λ ast self', remaining self' = 0 ∧
       Parser.verb_lexicon self' = lexicon_of ∅ ast ∧
       declared_before_use ∅ ast)
    self (Parser.parse_program_loop fuel statements self).
Proof.
  induction fuel as [|fuel IH]; intros statements self Hwf Hfuel Hlex Hast; [lia|].
  cbn [Parser.parse_program_loop].
  eapply (good_bind (⊆) 0 0 0); [by apply good_parse_statement| |lia].
  intros [statement|] s1 _ St1 Hst; cbn in Hst.
  - destruct Hst as (Hpos&Hlex1&Hwf1).
    pose proof (steps_wf _ _ _ _ Hwf St1) as Hwfs1.
    assert (remaining s1 < fuel) as Hfuel1.
    { destruct St1 as (T&_&B&_). unfold remaining in *. rewrite T. lia. }
    eapply (good_bind (⊆) 0 0 0 (λ _ self', steps eq 0 s1 self'));
      [|intros [] s2 _ _ St2|lia].
    { pose proof (good_skip_newlines (S fuel) s1 Hwfs1 ltac:(lia)) as G.
      destruct (Parser.skip_newlines (S fuel) s1) as [[a s2]|[]|]; try done.
      destruct G as [G _]. split; [by apply steps_eq_subseteq|done]. }
    apply IH.
    + by eapply steps_wf.
    + apply steps_remaining in St2. lia.
    + apply steps_lexicon in St2. by rewrite St2, lexicon_of_snoc, Hlex1, Hlex.
    + apply declared_before_use_snoc. by rewrite <-Hlex.
  - destruct Hst as [Hrem Hlex1].
    apply good_ret; [apply _|by eapply steps_wf|]. split; [done|]. split; [|done].
    congruence.
Qed.

(** ** More fuel changes nothing *)

Lemma stable_refl {A} (m : Parser.parser A) : stable m m.
Proof. by intros self _. Qed.

Lemma stable_bind {A B} (m m' : Parser.parser A) (f f' : A → Parser.parser B) :
  stable m m' → (∀ a, stable (f a) (f' a)) →
  stable (Parser.pbind m f) (Parser.pbind m' f').
Proof.
  intros Hm Hf self H. unfold Parser.pbind in *.
  rewrite Hm by (intros Heq; by rewrite Heq in H).
  destruct (m self) as [[a s]|e|]; [|done..]. by apply Hf.
Qed.

Lemma stable_collect_identifiers fuel : ∀ fuel' identifiers,
  fuel ≤ fuel' →
  stable (Parser.collect_identifiers fuel identifiers)
    (Parser.collect_identifiers fuel' identifiers).
Proof.
  induction fuel as [|fuel IH]; intros fuel' identifiers Hle.
  { by intros self H. }
  destruct fuel' as [|fuel']; [lia|]. cbn [Parser.collect_identifiers].
  apply stable_bind; [apply stable_refl|]. intros token.
  repeat case_bool_decide; try apply stable_refl;
    (apply stable_bind; [apply stable_refl|]; intros ?; apply IH; lia).
Qed.

Lemma stable_collect_supertype fuel : ∀ fuel' supertype_parts supertype_is_var,
  fuel ≤ fuel' →
  stable (Parser.collect_supertype fuel supertype_parts supertype_is_var)
    (Parser.collect_supertype fuel' supertype_parts supertype_is_var).
Proof.
  induction fuel as [|fuel IH]; intros fuel' parts is_var Hle.
  { by intros self H. }
  destruct fuel' as [|fuel']; [lia|]. cbn [Parser.collect_supertype].
  apply stable_bind; [apply stable_refl|]. intros token.
  repeat case_bool_decide; try apply stable_refl;
    (apply stable_bind; [apply stable_refl|]; intros ?; apply IH; lia).
Qed.

Lemma stable_parse_svo_clause fuel fuel' first_token :
  fuel ≤ fuel' →
  stable (Parser.parse_svo_clause fuel first_token)
    (Parser.parse_svo_clause fuel' first_token).
Proof.
  intros Hle. unfold Parser.parse_svo_clause.
  apply stable_bind; [by apply stable_collect_identifiers|].
  intros ?. apply stable_refl.
Qed.

Lemma stable_parse_classification_edge fuel fuel' first_token :
  fuel ≤ fuel' →
  stable (Parser.parse_classification_edge fuel first_token)
    (Parser.parse_classification_edge fuel' first_token).
Proof.
  intros Hle. unfold Parser.parse_classification_edge. cbv zeta.
  apply stable_bind; [apply stable_refl|]. intros _.
  apply stable_bind; [by apply stable_collect_supertype|].
  intros ?. apply stable_refl.
Qed.

Lemma stable_parse_expression fuel fuel' :
  fuel ≤ fuel' →
  stable (Parser.parse_expression fuel) (Parser.parse_expression fuel').
Proof.
  intros Hle. unfold Parser.parse_expression.
  apply stable_bind; [apply stable_refl|]. intros token.
  repeat case_bool_decide; try apply stable_refl.
  apply stable_bind; [apply stable_refl|]. intros first_token.
  apply stable_bind; [apply stable_refl|]. intros next_token.
  case_bool_decide.
  { apply stable_bind; [by apply stable_parse_classification_edge|].
    intros ?. apply stable_refl. }
  intros self.
  destruct (negb _ && bool_decide (_ ∨ _)); [done|].
  destruct (negb _ && bool_decide (_ ∧ _)); [done|].
  apply stable_bind; [by apply stable_parse_svo_clause|].
  intros ?. apply stable_refl.
Qed.

Lemma stable_more_premises fuel : ∀ fuel' premises,
  fuel ≤ fuel' →
  stable (Parser.more_premises fuel premises) (Parser.more_premises fuel' premises).
Proof.
  induction fuel as [|fuel IH]; intros fuel' premises Hle.
  { by intros self H. }
  destruct fuel' as [|fuel']; [lia|]. cbn [Parser.more_premises].
  apply stable_bind; [apply stable_refl|]. intros token.
  case_bool_decide; [|apply stable_refl].
  apply stable_bind; [apply stable_refl|]. intros _.
  apply stable_bind; [by apply stable_parse_expression|]. intros premise.
  apply IH. lia.
Qed.

Lemma stable_parse_rule fuel fuel' :
  fuel ≤ fuel' → stable (Parser.parse_rule fuel) (Parser.parse_rule fuel').
Proof.
  intros Hle. unfold Parser.parse_rule.
  apply stable_bind; [apply stable_refl|]. intros _.
  apply stable_bind; [by apply stable_parse_expression|]. intros premise.
  apply stable_bind; [by apply stable_more_premises|]. intros premises.
  apply stable_bind; [apply stable_refl|]. intros _.
  apply stable_bind; [by apply stable_parse_expression|]. intros concl.
  apply stable_refl.
Qed.

Lemma stable_parse_query fuel fuel' :
  fuel ≤ fuel' → stable (Parser.parse_query fuel) (Parser.parse_query fuel').
Proof.
  intros Hle. unfold Parser.parse_query.
  apply stable_bind; [apply stable_refl|]. intros _.
  apply stable_bind; [by apply stable_parse_expression|]. intros e.
  apply stable_refl.
Qed.

Lemma stable_skip_blank fuel : ∀ fuel',
  fuel ≤ fuel' → stable (Parser.skip_blank fuel) (Parser.skip_blank fuel').
Proof.
  induction fuel as [|fuel IH]; intros fuel' Hle.
  { by intros self H. }
  destruct fuel' as [|fuel']; [lia|]. cbn [Parser.skip_blank].
  apply stable_bind; [apply stable_refl|]. intros token.
  case_bool_decide; [|apply stable_refl].
  apply stable_bind; [apply stable_refl|]. intros _. apply IH. lia.
Qed.

Lemma stable_skip_newlines fuel : ∀ fuel',
  fuel ≤ fuel' → stable (Parser.skip_newlines fuel) (Parser.skip_newlines fuel').
Proof.
  induction fuel as [|fuel IH]; intros fuel' Hle.
  { by intros self H. }
  destruct fuel' as [|fuel']; [lia|]. cbn [Parser.skip_newlines].
  apply stable_bind; [apply stable_refl|]. intros token.
  case_bool_decide; [|apply stable_refl].
  apply stable_bind; [apply stable_refl|]. intros _. apply IH. lia.
Qed.

Lemma stable_parse_statement fuel fuel' :
  fuel ≤ fuel' → stable (Parser.parse_statement fuel) (Parser.parse_statement fuel').
Proof.
  intros Hle. unfold Parser.parse_statement.
  apply stable_bind; [by apply stable_skip_blank|]. intros _.
  apply stable_bind; [apply stable_refl|]. intros token.
  repeat case_bool_decide; try apply stable_refl.
  - apply stable_bind; [by apply stable_parse_rule|]. intros ?. apply stable_refl.
  - apply stable_bind; [by apply stable_parse_query|]. intros ?. apply stable_refl.
  - apply stable_bind; [apply stable_refl|]. intros first_token.
    apply stable_bind; [apply stable_refl|]. intros next_token.
    case_bool_decide.
    + apply stable_bind; [by apply stable_parse_classification_edge|].
      intros ?. apply stable_refl.
    + apply stable_bind; [by apply stable_parse_svo_clause|].
      intros ?. apply stable_refl.
Qed.

Lemma stable_parse_program_loop fuel : ∀ fuel' statements,
  fuel ≤ fuel' →
  stable (Parser.parse_program_loop fuel statements)
    (Parser.parse_program_loop fuel' statements).
Proof.
  induction fuel as [|fuel IH]; intros fuel' statements Hle.
  { by intros self H. }
  destruct fuel' as [|fuel']; [lia|]. cbn [Parser.parse_program_loop].
  apply stable_bind; [by apply stable_parse_statement|]. intros [statement|].
  - apply stable_bind; [by apply stable_skip_newlines|]. intros _. apply IH. lia.
  - apply stable_refl.
Qed.

End parser_progress.

(** * The parser on a whole program *)

Lemma new_parser_wf tokens : eof_terminated tokens → parser_wf (new_parser tokens).
Proof.
  intros Heof. split; [done|]. destruct Heof as (body&eof&->&_).
  cbn. rewrite length_app. cbn. lia.
Qed.

Lemma parse_program_internal_good tokens fuel :
  eof_terminated tokens → (length tokens ≤ fuel)%nat →
  good (⊆) 0
    (λ ast self', remaining self' = 0%nat ∧
       Parser.verb_lexicon self' = lexicon_of ∅ ast ∧
       declared_before_use ∅ ast)
    (new_parser tokens) (Parser.parse_program_internal fuel (new_parser tokens)).
Proof.
  intros Heof Hfuel. apply good_parse_program_loop; try done.
  - by apply new_parser_wf.
  - unfold remaining. cbn. destruct Heof as (body&eof&->&_).
    rewrite length_app in *. cbn in *. lia.
Qed.

Lemma declared_before_use_lookup ast : ∀ lexicon i statement,
  declared_before_use lexicon ast → ast !! i = Some statement →
  statement_wf (lexicon_of lexicon (take i ast)) statement.
Proof.
  induction ast as [|h ast IH]; intros lexicon i statement Hall Hl; [done|].
  destruct Hall as [Hh Hall]. destruct i as [|i].
  - injection Hl as <-. done.
  - cbn in Hl. cbn [take]. unfold lexicon_of. cbn [foldl]. by apply IH.
Qed.

(** X13.  [parse_program_internal] ends on every token list that ends with
    its only end-of-input token: it returns the statements or raises a
    [ParseError], it never indexes outside the token list, and as many loop
    iterations as there are tokens suffice, the result being the same for
    every larger bound. *)
Theorem parse_program_internal_total tokens fuel :
  eof_terminated tokens → (length tokens ≤ fuel)%nat →
  let r := Parser.parse_program_internal fuel (new_parser tokens) in
  r = Parser.parse_program_internal (length tokens) (new_parser tokens) ∧
  ((∃ ast self', r = Ok (ast, self')) ∨ (∃ e, r = Raise (ParseError e))).
Proof.
  intros Heof Hfuel r.
  pose proof (parse_program_internal_good tokens (length tokens) Heof ltac:(lia)) as G.
  assert (r = Parser.parse_program_internal (length tokens) (new_parser tokens)) as Hr.
  { apply (stable_parse_program_loop (length tokens) fuel [] Hfuel).
    intros Heq. unfold Parser.parse_program_internal in G. by rewrite Heq in G. }
  split; [exact Hr|]. rewrite Hr. clear Hr r.
  destruct (Parser.parse_program_internal (length tokens) _)
    as [[ast self']|[]|]; try done.
  - left. by exists ast, self'.
  - right. by eexists.
Qed.

(** X14.  A successful parse reads the whole input: [parse_program_internal]
    leaves the token list unchanged and the cursor on the last token, the
    end-of-input token. *)
Theorem parse_program_internal_consumes_all tokens fuel ast self' :
  eof_terminated tokens → (length tokens ≤ fuel)%nat →
  Parser.parse_program_internal fuel (new_parser tokens) = Ok (ast, self') →
  Parser.tokens self' = tokens ∧
  (Parser.position self' + 1)%nat = length tokens.
Proof.
  intros Heof Hfuel Hr.
  pose proof (parse_program_internal_good tokens fuel Heof Hfuel) as G.
  rewrite Hr in G. destruct G as [(T&_&B&_) (Hrem&_)].
  split; [done|]. unfold remaining in Hrem. rewrite T in Hrem. cbn in *. lia.
Qed.

(** X15.  The verb lexicon of the parser after a successful parse is the
    set of the verbs declared by the program, the lexicon [eval_program]
    builds from the same statements. *)
Theorem parse_program_internal_lexicon tokens fuel ast self' :
  eof_terminated tokens → (length tokens ≤ fuel)%nat →
  Parser.parse_program_internal fuel (new_parser tokens) = Ok (ast, self') →
  Parser.verb_lexicon self' = verb_lexicon (initial_context ast).
Proof.
  intros Heof Hfuel Hr.
  pose proof (parse_program_internal_good tokens fuel Heof Hfuel) as G.
  rewrite Hr in G. destruct G as [_ (_&Hlex&_)].
  by rewrite Hlex, lexicon_of_initial_context.
Qed.

(** X16.  Verbs are declared before use: in a parsed program the verb of
    every SVO clause (a statement, a premise, a conclusion or a query) is
    declared by a verb declaration among the statements before it. *)
Theorem parse_program_internal_declared_before_use tokens fuel ast self' i statement :
  eof_terminated tokens → (length tokens ≤ fuel)%nat →
  Parser.parse_program_internal fuel (new_parser tokens) = Ok (ast, self') →
  ast !! i = Some statement →
  verbs_declared (verb_lexicon (initial_context (take i ast))) statement.
Proof.
  intros Heof Hfuel Hr Hl.
  pose proof (parse_program_internal_good tokens fuel Heof Hfuel) as G.
  rewrite Hr in G. destruct G as [_ (_&_&Hall)].
  pose proof (declared_before_use_lookup _ _ _ _ Hall Hl) as Hwf.
  rewrite lexicon_of_initial_context in Hwf.
  destruct statement as [e|r|q|d]; try done. by destruct Hwf as (_&?&?).
Qed.

(** X17.  Every rule of a parsed program has at least one premise. *)
Theorem parse_program_internal_rule_premises tokens fuel ast self' rule :
  eof_terminated tokens → (length tokens ≤ fuel)%nat →
  Parser.parse_program_internal fuel (new_parser tokens) = Ok (ast, self') →
  NRule rule ∈ ast → premises rule ≠ [].
Proof.
  intros Heof Hfuel Hr (i&Hl)%list_elem_of_lookup.
  pose proof (parse_program_internal_good tokens fuel Heof Hfuel) as G.
  rewrite Hr in G. destruct G as [_ (_&_&Hall)].
  pose proof (declared_before_use_lookup _ _ _ _ Hall Hl) as Hwf.
  by destruct Hwf as (?&_).
Qed.

Lemma example_tokens_eof_terminated : eof_terminated example_tokens.
Proof.
  exists (take 22 example_tokens), (Parser.mkToken Parser.EOF "" 5 1).
  split; [reflexivity|]. split; [reflexivity|].
  cbn. repeat constructor; discriminate.
Qed.

Lemma example_tokens_parsed :
  Parser.parse_program_internal 23 (new_parser example_tokens) =
  Ok (example_ast, Parser.mkParser example_tokens 22 {[ "愛" ]}).
Proof. vm_compute. reflexivity. Qed.

Lemma parse_program_internal_total_witness :
  let r := Parser.parse_program_internal 40 (new_parser example_tokens) in
  r = Parser.parse_program_internal (length example_tokens) (new_parser example_tokens) ∧
  ((∃ ast self', r = Ok (ast, self')) ∨ (∃ e, r = Raise (ParseError e))).
Proof.
  apply (parse_program_internal_total example_tokens 40).
  - exact example_tokens_eof_terminated.
  - cbn. lia.
Defined.

Lemma parse_program_internal_consumes_all_witness :
  Parser.tokens (Parser.mkParser example_tokens 22 {[ "愛" ]}) = example_tokens ∧
  (Parser.position (Parser.mkParser example_tokens 22 {[ "愛" ]}) + 1)%nat =
  length example_tokens.
Proof.
  apply (parse_program_internal_consumes_all example_tokens 23 example_ast).
  - exact example_tokens_eof_terminated.
  - cbn. lia.
  - exact example_tokens_parsed.
Defined.

Lemma parse_program_internal_lexicon_witness :
  Parser.verb_lexicon (Parser.mkParser example_tokens 22 {[ "愛" ]}) =
  verb_lexicon (initial_context example_ast).
Proof.
  apply (parse_program_internal_lexicon example_tokens 23).
  - exact example_tokens_eof_terminated.
  - cbn. lia.
  - exact example_tokens_parsed.
Defined.

Lemma parse_program_internal_declared_before_use_witness :
  verbs_declared (verb_lexicon (initial_context (take 2 example_ast)))
    (NRule (mkRule [ESVOClause (mkSVOClause "其人" true "愛" false "乙" false)]
              (EProposition (mkProposition "善" false)))).
Proof.
  apply (parse_program_internal_declared_before_use example_tokens 23 example_ast
           (Parser.mkParser example_tokens 22 {[ "愛" ]}) 2).
  - exact example_tokens_eof_terminated.
  - cbn. lia.
  - exact example_tokens_parsed.
  - reflexivity.
Defined.

Lemma parse_program_internal_rule_premises_witness :
  let rule := mkRule [ESVOClause (mkSVOClause "其人" true "愛" false "乙" false)]
                (EProposition (mkProposition "善" false)) in
  example_ast !! 2%nat = Some (NRule rule) ∧ premises rule ≠ [].
Proof.
  intros rule. split; [reflexivity|].
  apply (parse_program_internal_rule_premises example_tokens 23 example_ast
           (Parser.mkParser example_tokens 22 {[ "愛" ]})).
  - exact example_tokens_eof_terminated.
  - cbn. lia.
  - exact example_tokens_parsed.
  - apply (list_elem_of_lookup_2 _ 2). reflexivity.
Defined.

(** * Clauses of several tokens and classification edges *)

Lemma ahead_lookup self token rest :
  ahead self = token :: rest →
  Parser.tokens self !! Parser.position self = Some token.
Proof.
  unfold ahead. intros H.
  pose proof (lookup_drop (Parser.tokens self) (Parser.position self) 0) as Hl.
  rewrite H, Nat.add_0_r in Hl. by rewrite <-Hl.
Qed.

Lemma ahead_moved self token rest :
  ahead self = token :: rest → ahead (moved 1 self) = rest.
Proof.
  intros H. pose proof (ahead_lookup _ _ _ H) as Hl. unfold ahead in *. cbn.
  rewrite (drop_S _ _ _ Hl) in H. injection H as H. by rewrite Nat.add_1_r.
Qed.

Lemma moved_moved n m self : moved n (moved m self) = moved (m + n) self.
Proof. unfold moved. cbn. f_equal. lia. Qed.

Lemma peek_ahead self token rest :
  ahead self = token :: rest → Parser.peek 0 self = Ok (token, self).
Proof.
  intros H%ahead_lookup. unfold Parser.peek. by rewrite Nat.add_0_r, H.
Qed.

Lemma advance_ahead self token rest :
  ahead self = token :: rest → Parser.type token ≠ Parser.EOF →
  Parser.advance self = Ok (token, moved 1 self).
Proof. intros H Hne. apply advance_token; [by eapply peek_ahead|done]. Qed.

Lemma expect_ahead self token rest :
  ahead self = token :: rest → Parser.type token ≠ Parser.EOF →
  Parser.expect (Parser.type token) (Some (Parser.value token)) self =
  Ok (token, moved 1 self).
Proof.
  intros H Hne. unfold Parser.expect, Parser.pbind.
  rewrite (peek_ahead _ _ _ H).
  rewrite bool_decide_false by (by intros []).
  rewrite bool_decide_false by (by intros []).
  by eapply advance_ahead.
Qed.

Lemma expect_other self token rest token_type val :
  ahead self = token :: rest →
  ¬ (Parser.type token = token_type ∧ Parser.value token = val) →
  Parser.expect token_type (Some val) self = Raise (ParseError UnexpectedToken).
Proof.
  intros H Hne. unfold Parser.expect, Parser.pbind.
  rewrite (peek_ahead _ _ _ H).
  case_bool_decide as Hty; [done|]. case_bool_decide as Hv; [done|].
  destruct Hne. split.
  - by destruct (decide (Parser.type token = token_type)).
  - by destruct (decide (Parser.value token = val)).
Qed.

(** ** The clause loop *)

Lemma collect_identifiers_spec clause : ∀ fuel identifiers self stop rest,
  ahead self = (clause ++ stop :: rest)%list →
  Forall clause_token clause → clause_end stop →
  (length clause < fuel)%nat →
  Parser.collect_identifiers fuel identifiers self =
  Ok ((identifiers ++ clause_identifiers clause)%list, moved (length clause) self).
Proof.
  induction clause as [|token clause IH];
    intros fuel identifiers self stop rest Hahead Hclause Hstop Hfuel;
    (destruct fuel as [|fuel]; [cbn in Hfuel; lia|]);
    cbn [Parser.collect_identifiers]; unfold Parser.pbind at 1;
    rewrite (peek_ahead _ _ _ Hahead).
  - rewrite bool_decide_true by done. cbn. rewrite app_nil_r.
    unfold Parser.ret, moved. rewrite Nat.add_0_r. by destruct self.
  - apply Forall_cons in Hclause as [Htoken Hclause].
    assert (Parser.type token ≠ Parser.EOF) as Hne.
    { by destruct Htoken as [->|[->| ->]]. }
    rewrite bool_decide_false
      by (intros [H|[H|H]]; destruct Htoken as [H'|[H'|H']]; congruence).
    pose proof (ahead_moved _ _ _ Hahead) as Hahead'.
    cbn [length] in Hfuel.
    case_bool_decide as Hid; unfold Parser.pbind;
      rewrite (advance_ahead _ _ _ Hahead Hne);
      rewrite (IH fuel _ _ stop rest Hahead' Hclause Hstop ltac:(lia));
      rewrite moved_moved; unfold clause_identifiers; cbn [length].
    + rewrite filter_cons_True by (destruct Hid; congruence).
      by rewrite <-app_assoc.
    + rewrite filter_cons_False; [done|].
      intros Hn. apply Hn. destruct Htoken as [H|[H|H]]; [destruct Hid; auto..|done].
Qed.

Lemma verb_positions_from_app lexicon l1 : ∀ i l2,
  Parser.verb_positions_from lexicon i (l1 ++ l2) =
  (Parser.verb_positions_from lexicon i l1 ++
   Parser.verb_positions_from lexicon (i + length l1) l2)%list.
Proof.
  induction l1 as [|t l1 IH]; intros i l2; cbn [Parser.verb_positions_from app length].
  - by rewrite Nat.add_0_r.
  - rewrite IH. replace (S i + length l1)%nat with (i + S (length l1))%nat by lia.
    by case_bool_decide.
Qed.

Lemma verb_positions_from_none lexicon l : ∀ i,
  Forall (λ token, Parser.value token ∉ lexicon) l →
  Parser.verb_positions_from lexicon i l = [].
Proof.
  induction l as [|t l IH]; intros i Hl; [done|].
  apply Forall_cons in Hl as [Ht Hl]. cbn [Parser.verb_positions_from].
  rewrite bool_decide_false by done. by apply IH.
Qed.

Lemma verb_positions_from_one lexicon before verb_token after :
  Parser.value verb_token ∈ lexicon →
  Forall (λ token, Parser.value token ∉ lexicon) before →
  Forall (λ token, Parser.value token ∉ lexicon) after →
  Parser.verb_positions_from lexicon 0 (before ++ verb_token :: after) =
  [length before].
Proof.
  intros Hv Hb Ha. rewrite verb_positions_from_app, verb_positions_from_none by done.
  cbn [Parser.verb_positions_from app]. rewrite bool_decide_true by done.
  by rewrite verb_positions_from_none.
Qed.

Lemma verb_positions_from_two lexicon l1 verb1 l2 verb2 l3 :
  Parser.value verb1 ∈ lexicon → Parser.value verb2 ∈ lexicon →
  ∃ p1 p2 positions,
    Parser.verb_positions_from lexicon 0 (l1 ++ verb1 :: l2 ++ verb2 :: l3) =
    p1 :: p2 :: positions.
Proof.
  intros H1 H2. rewrite verb_positions_from_app.
  cbn [Parser.verb_positions_from]. rewrite bool_decide_true by done.
  rewrite verb_positions_from_app.
  cbn [Parser.verb_positions_from]. rewrite bool_decide_true by done.
  destruct (Parser.verb_positions_from lexicon 0 l1) as [|a [|b l]]; cbn.
  - destruct (Parser.verb_positions_from lexicon _ l2) as [|b l]; cbn;
      by eexists _, _, _.
  - by eexists _, _, _.
  - by eexists _, _, _.
Qed.

(** X18.  A clause of several identifier tokens: [parse_svo_clause] goes
    over the identifier, variable and indentation tokens up to the next line
    break, keyword or end of input, and with [first_token] in front of the
    identifiers and variables it met, when these are two or more: it fails
    with the undeclared-verb error if no token is a verb of the lexicon, with
    the multiple-verbs error if two tokens are, and for the one token that
    is: with the missing-subject error if it is the first, with the
    missing-object error if it is the last, and otherwise it returns the
    clause whose subject and object are the concatenated texts of the tokens
    before and after it, each flagged variable when one of its tokens is a
    variable token, the verb flagged by its own token type; the cursor is
    then on the token that ended the clause. *)
Theorem parse_svo_clause_multiple_tokens fuel first_token self clause stop rest :
  let identifiers := first_token :: clause_identifiers clause in
  let lexicon := Parser.verb_lexicon self in
  let undeclared := λ token, Parser.value token ∉ lexicon in
  ahead self = (clause ++ stop :: rest)%list →
  Forall clause_token clause → clause_end stop →
  (length clause < fuel)%nat →
  (2 ≤ length identifiers)%nat →
  (Forall undeclared identifiers →
   Parser.parse_svo_clause fuel first_token self = Raise (ParseError UndeclaredVerb)) ∧
  (∀ l1 verb1 l2 verb2 l3,
     identifiers = (l1 ++ verb1 :: l2 ++ verb2 :: l3)%list →
     Parser.value verb1 ∈ lexicon → Parser.value verb2 ∈ lexicon →
     Parser.parse_svo_clause fuel first_token self = Raise (ParseError MultipleVerbs)) ∧
  (∀ before verb_token after,
     identifiers = (before ++ verb_token :: after)%list →
     Parser.value verb_token ∈ lexicon →
     Forall undeclared before → Forall undeclared after →
     Parser.parse_svo_clause fuel first_token self =
     if decide (before = []) then Raise (ParseError MissingSubject)
     else if decide (after = []) then Raise (ParseError MissingObject)
     else Ok (mkSVOClause
                (Parser.join (Parser.value <$> before)) (any_variable before)
                (Parser.value verb_token)
                (bool_decide (Parser.type verb_token = Parser.VARIABLE))
                (Parser.join (Parser.value <$> after)) (any_variable after),
              moved (length clause) self)).
Proof.
  intros identifiers lexicon undeclared Hahead Hclause Hstop Hfuel Hlen.
  assert (Parser.parse_svo_clause fuel first_token self =
    (c ←! Parser.split_tokens lexicon identifiers;
     Ok (c, moved (length clause) self))) as Hparse.
  { unfold Parser.parse_svo_clause, Parser.pbind.
    rewrite (collect_identifiers_spec clause fuel [first_token] self stop rest)
      by done.
    cbn [app]. fold identifiers. cbn [moved Parser.verb_lexicon]. fold lexicon.
    subst identifiers.
    destruct (clause_identifiers clause); [cbn in Hlen; lia|done]. }
  rewrite Hparse. unfold Parser.split_tokens. split; [|split].
  - intros Hnone. by rewrite verb_positions_from_none.
  - intros l1 verb1 l2 verb2 l3 -> H1 H2.
    destruct (verb_positions_from_two lexicon l1 verb1 l2 verb2 l3 H1 H2)
      as (p1&p2&positions&->). done.
  - intros before verb_token after -> Hv Hb Ha.
    rewrite verb_positions_from_one by done.
    destruct (decide (before = [])) as [->|Hbefore]; [done|].
    rewrite bool_decide_false by (by destruct before).
    rewrite length_app. cbn [length].
    destruct (decide (after = [])) as [->|Hafter].
    { rewrite bool_decide_true by (cbn; lia). done. }
    rewrite bool_decide_false by (destruct after; [done|cbn; lia]).
    rewrite lookup_app_r by lia. rewrite Nat.sub_diag. cbn [lookup list_lookup bind].
    rewrite take_app_length.
    replace (length before + 1)%nat with (length (before ++ [verb_token]))
      by (rewrite length_app; cbn; lia).
    rewrite (cons_middle verb_token before after), app_assoc, drop_app_length.
    done.
Qed.

Lemma parse_svo_clause_multiple_tokens_witness :
  let first_token := Parser.mkToken Parser.VARIABLE "其人" 1 1 in
  let verb_token := Parser.mkToken Parser.IDENTIFIER "愛" 1 5 in
  let object_token := Parser.mkToken Parser.IDENTIFIER "乙" 1 7 in
  let self :=
    Parser.mkParser
      [first_token; Parser.mkToken Parser.INDENT "	" 1 4; verb_token; object_token;
       Parser.mkToken Parser.EOF "" 1 8]
      1 {[ "愛" ]} in
  Parser.parse_svo_clause 4 first_token self =
  Ok (mkSVOClause "其人" true "愛" false "乙" false, moved 3 self).
Proof.
  intros first_token verb_token object_token self.
  destruct (parse_svo_clause_multiple_tokens 4 first_token self
              [Parser.mkToken Parser.INDENT "	" 1 4; verb_token; object_token]
              (Parser.mkToken Parser.EOF "" 1 8) []) as (_&_&Hsplit).
  - reflexivity.
  - repeat constructor; cbv; tauto.
  - cbv. tauto.
  - cbn. lia.
  - vm_compute. lia.
  - apply (Hsplit [first_token] verb_token [object_token]).
    + reflexivity.
    + change ("愛" ∈ ({[ "愛" ]} : gset string)). by apply elem_of_singleton.
    + apply Forall_singleton.
      change ("其人" ∉ ({[ "愛" ]} : gset string)). by apply not_elem_of_singleton.
    + apply Forall_singleton.
      change ("乙" ∉ ({[ "愛" ]} : gset string)). by apply not_elem_of_singleton.
Defined.

(** ** The supertype loop *)

Lemma ahead_moved_app self l1 l2 :
  ahead self = (l1 ++ l2)%list → ahead (moved (length l1) self) = l2.
Proof.
  unfold ahead. cbn. intros H.
  by rewrite <-drop_drop, H, drop_app_length.
Qed.

Lemma collect_supertype_spec parts : ∀ fuel supertype_parts supertype_is_var self stop rest,
  ahead self = (parts ++ stop :: rest)%list →
  Forall supertype_token parts → supertype_end stop →
  (length parts < fuel)%nat →
  Parser.collect_supertype fuel supertype_parts supertype_is_var self =
  Ok (((supertype_parts ++ (Parser.value <$> parts))%list,
       supertype_is_var || any_variable parts),
      moved (length parts) self).
Proof.
  induction parts as [|token parts IH];
    intros fuel acc is_var self stop rest Hahead Hparts Hstop Hfuel;
    (destruct fuel as [|fuel]; [cbn in Hfuel; lia|]);
    cbn [Parser.collect_supertype]; unfold Parser.pbind at 1;
    rewrite (peek_ahead _ _ _ Hahead).
  - assert (Parser.ret (acc, is_var) self =
      Ok (((acc ++ (Parser.value <$> []))%list, is_var || any_variable []),
          moved (length ([] : list Parser.Token)) self)) as Hret.
    { cbn. rewrite app_nil_r, orb_false_r. unfold Parser.ret, moved.
      rewrite Nat.add_0_r. by destruct self. }
    case_bool_decide as Hc; [done|].
    destruct Hstop as [Hc'|Hty]; [done|].
    repeat (rewrite bool_decide_false by (destruct Hty as [->|[->| ->]]; done)).
    done.
  - apply Forall_cons in Hparts as [[Hty Hnc] Hparts].
    rewrite bool_decide_false by done.
    assert (Parser.type token ≠ Parser.EOF) as Hne.
    { by destruct Hty as [->|[->| ->]]. }
    pose proof (ahead_moved _ _ _ Hahead) as Hahead'.
    cbn [length] in Hfuel.
    assert (∀ is_var',
      is_var' || any_variable parts = is_var || any_variable (token :: parts) →
      Parser.pbind Parser.advance
        (λ token, Parser.collect_supertype fuel (acc ++ [Parser.value token]) is_var')
        self =
      Ok (((acc ++ (Parser.value <$> token :: parts))%list,
           is_var || any_variable (token :: parts)),
          moved (length (token :: parts)) self)) as Hstep.
    { intros is_var' Hvar. unfold Parser.pbind.
      rewrite (advance_ahead _ _ _ Hahead Hne).
      rewrite (IH fuel _ _ _ stop rest Hahead' Hparts Hstop ltac:(lia)).
      rewrite moved_moved, Hvar, <-app_assoc. done. }
    assert (any_variable (token :: parts) =
      bool_decide (Parser.type token = Parser.VARIABLE) || any_variable parts)
      as Hany by done.
    destruct Hty as [Hi|[Hv|Hk]].
    + rewrite (bool_decide_true (_ = Parser.IDENTIFIER)) by done.
      apply Hstep. rewrite Hany, bool_decide_false by congruence. done.
    + rewrite (bool_decide_false (_ = Parser.IDENTIFIER)) by congruence.
      rewrite (bool_decide_true (_ = Parser.VARIABLE)) by done.
      apply Hstep. rewrite Hany, bool_decide_true by done. cbn.
      by rewrite orb_true_r.
    + rewrite (bool_decide_false (_ = Parser.IDENTIFIER)) by congruence.
      rewrite (bool_decide_false (_ = Parser.VARIABLE)) by congruence.
      rewrite (bool_decide_true (_ = Parser.KEYWORD)) by done.
      apply Hstep. rewrite Hany, bool_decide_false by congruence. done.
Qed.

(** X19.  A classification edge: after the particle [者],
    [parse_classification_edge] collects identifier, variable and keyword
    tokens up to the particle [也], a line break, an indentation or the end of
    input.  It fails with the expected-supertype error when it collected
    nothing, with the unexpected-token error when what ends the run is not
    [也], and otherwise returns the edge from the first token's text to the
    concatenated texts of the run, keywords included, flagged variable when a
    token of the run is a variable token; the cursor is then after [也]. *)
Theorem parse_classification_edge_spec fuel first_token self particle parts stop rest :
  ahead self = (particle :: parts ++ stop :: rest)%list →
  Parser.type particle = Parser.KEYWORD → Parser.value particle = "者" →
  Forall supertype_token parts → supertype_end stop →
  (length parts < fuel)%nat →
  (parts = [] →
   Parser.parse_classification_edge fuel first_token self =
   Raise (ParseError ExpectedSupertype)) ∧
  (parts ≠ [] → closing_particle stop →
   Parser.parse_classification_edge fuel first_token self =
   Ok (mkClassificationEdge (Parser.value first_token)
         (bool_decide (Parser.type first_token = Parser.VARIABLE))
         (Parser.join (Parser.value <$> parts)) (any_variable parts),
       moved (length parts + 2) self)) ∧
  (parts ≠ [] → ¬ closing_particle stop →
   Parser.parse_classification_edge fuel first_token self =
   Raise (ParseError UnexpectedToken)).
Proof.
  intros Hahead Hty Hval Hparts Hstop Hfuel.
  pose proof (ahead_moved _ _ _ Hahead) as Hahead1.
  pose proof (ahead_moved_app _ _ _ Hahead1) as Hahead2.
  assert (Parser.parse_classification_edge fuel first_token self =
    match parts with
    | [] => Raise (ParseError ExpectedSupertype)
    | _ =>
        Parser.pbind (Parser.expect Parser.KEYWORD (Some "也"))
          (λ _, Parser.ret
             (mkClassificationEdge (Parser.value first_token)
                (bool_decide (Parser.type first_token = Parser.VARIABLE))
                (Parser.join (Parser.value <$> parts)) (any_variable parts)))
          (moved (length parts) (moved 1 self))
    end) as Hparse.
  { unfold Parser.parse_classification_edge. cbv zeta. unfold Parser.pbind at 1.
    rewrite <-Hty, <-Hval at 1.
    rewrite (expect_ahead _ _ _ Hahead) by (by rewrite Hty).
    unfold Parser.pbind at 1.
    rewrite (collect_supertype_spec parts fuel [] false _ stop rest) by done.
    cbn [fst snd app orb]. by destruct parts. }
  rewrite Hparse. split; [by intros ->|]. split.
  - intros Hne [Hsty Hsval]. destruct parts as [|part parts]; [done|].
    unfold Parser.pbind. rewrite <-Hsty, <-Hsval at 1.
    rewrite (expect_ahead _ _ _ Hahead2) by (by rewrite Hsty).
    unfold Parser.ret. rewrite !moved_moved. do 2 f_equal. f_equal. lia.
  - intros Hne Hnc. destruct parts as [|part parts]; [done|].
    unfold Parser.pbind. by rewrite (expect_other _ _ _ _ _ Hahead2).
Qed.

Lemma parse_classification_edge_spec_witness :
  let first_token := Parser.mkToken Parser.VARIABLE "其人" 1 1 in
  let self :=
    Parser.mkParser
      [first_token; Parser.mkToken Parser.KEYWORD "者" 1 3;
       Parser.mkToken Parser.IDENTIFIER "行" 1 4;
       Parser.mkToken Parser.KEYWORD "動" 1 5;
       Parser.mkToken Parser.IDENTIFIER "物" 1 6;
       Parser.mkToken Parser.KEYWORD "也" 1 7;
       Parser.mkToken Parser.EOF "" 1 8]
      1 ∅ in
  Parser.parse_classification_edge 4 first_token self =
  Ok (mkClassificationEdge "其人" true "行動物" false, moved 5 self).
Proof.
  intros first_token self.
  destruct (parse_classification_edge_spec 4 first_token self
              (Parser.mkToken Parser.KEYWORD "者" 1 3)
              [Parser.mkToken Parser.IDENTIFIER "行" 1 4;
               Parser.mkToken Parser.KEYWORD "動" 1 5;
               Parser.mkToken Parser.IDENTIFIER "物" 1 6]
              (Parser.mkToken Parser.KEYWORD "也" 1 7)
              [Parser.mkToken Parser.EOF "" 1 8]) as (_&Hedge&_).
  - reflexivity.
  - reflexivity.
  - reflexivity.
  - repeat constructor; cbv; try tauto; intros [_ [=]].
  - left. by split.
  - cbn. lia.
  - apply Hedge; [done|by split].
Defined.

(** * The lexer *)

Section lexer.
Context (isalnum : Lexer.char → bool).
Local Open Scope nat_scope.
Local Open Scope list_scope.

Lemma skip_comment_spec source : ∀ column rest column',
  Lexer.skip_comment source column = (rest, column') →
  ∃ skipped, source = skipped ++ rest ∧ column' = column + length skipped ∧
    Forall (λ c, c ≠ Lexer.newline) skipped.
Proof.
  induction source as [|c source IH]; intros column rest column'; cbn.
  - intros [= <- <-]. exists []. by rewrite Nat.add_0_r.
  - case_bool_decide as Hc.
    + intros (skipped&->&->&Hs)%IH. exists (c :: skipped).
      split; [done|]. split; [cbn; lia|]. by constructor.
    + intros [= <- <-]. exists []. by rewrite Nat.add_0_r.
Qed.

Lemma collect_identifier_spec source : ∀ identifier column identifier' rest column',
  Lexer.collect_identifier isalnum source identifier column =
    (identifier', rest, column') →
  ∃ chars, identifier' = identifier ++ chars ∧ source = chars ++ rest ∧
    column' = column + length chars ∧ Forall (identifier_char isalnum) chars.
Proof.
  induction source as [|c source IH]; intros identifier column identifier' rest column';
    cbn.
  - intros [= <- <- <-]. exists []. by rewrite app_nil_r, Nat.add_0_r.
  - case_bool_decide as Hk.
    { intros [= <- <- <-]. exists []. by rewrite app_nil_r, Nat.add_0_r. }
    destruct (Lexer.is_identifier_char isalnum c) eqn:Hc; cbn.
    + intros (chars&->&->&->&Hs)%IH. exists (c :: chars).
      rewrite <-app_assoc. split; [done|]. split; [done|]. split; [cbn; lia|].
      by constructor.
    + intros [= <- <- <-]. exists []. by rewrite app_nil_r, Nat.add_0_r.
Qed.

(** The first character of an identifier is collected. *)
Lemma collect_identifier_first c source identifier column :
  identifier_char isalnum c →
  Lexer.collect_identifier isalnum (c :: source) identifier column =
  Lexer.collect_identifier isalnum source (identifier ++ [c]) (column + 1).
Proof.
  intros [Hk Hc]. cbn. rewrite bool_decide_false by done. by rewrite Hc.
Qed.

(** ** Every source is lexed *)

Lemma tokenize_loop_total fuel : ∀ source line column tokens,
  length source < fuel →
  Forall (λ token, Parser.type token ≠ Parser.EOF) tokens →
  (∃ result, Lexer.tokenize_loop isalnum fuel source line column tokens =
               Lexer.Done result ∧ eof_terminated result ∧
             length result ≤ length tokens + length source + 1) ∨
  (∃ e, Lexer.tokenize_loop isalnum fuel source line column tokens = Lexer.Raised e).
Proof.
  induction fuel as [|fuel IH]; intros source line column tokens Hfuel Htokens; [lia|].
  cbn [Lexer.tokenize_loop]. destruct source as [|c rest].
  { left. eexists. split; [done|]. split.
    - by eexists tokens, _.
    - rewrite length_app. cbn. lia. }
  cbn [length] in *.
  assert (∀ line' column' token,
    Parser.type token ≠ Parser.EOF →
    (∃ result, Lexer.tokenize_loop isalnum fuel rest line' column' (tokens ++ [token]) =
                 Lexer.Done result ∧ eof_terminated result ∧
               length result ≤ length tokens + S (length rest) + 1) ∨
    (∃ e, Lexer.tokenize_loop isalnum fuel rest line' column' (tokens ++ [token]) =
            Lexer.Raised e)) as Hemit.
  { intros line' column' token Hty.
    destruct (IH rest line' column' (tokens ++ [token])) as [(r&Hr&He&Hl)|He];
      [lia|by apply Forall_app; split; [|apply Forall_singleton]| |by right].
    left. exists r. split; [done|]. split; [done|].
    rewrite length_app in Hl. cbn in Hl. lia. }
  case_bool_decide; [by apply Hemit|].
  case_bool_decide; [by apply Hemit|].
  case_bool_decide.
  { destruct (IH rest line (column + 1) tokens) as [(r&Hr&He&Hl)|He];
      [lia|done| |by right].
    left. exists r. split; [done|]. split; [done|lia]. }
  case_bool_decide as Hcomment.
  { destruct (Lexer.skip_comment (c :: rest) column) as [rest' column'] eqn:Hskip.
    cbn in Hskip. rewrite bool_decide_true in Hskip
      by (rewrite Hcomment; done).
    apply skip_comment_spec in Hskip as (skipped&->&_&_).
    rewrite length_app in Hfuel |- *.
    destruct (IH rest' line column' tokens) as [(r&Hr&He&Hl)|He];
      [lia|done| |by right].
    left. exists r. split; [done|]. split; [done|lia]. }
  case_bool_decide as Hk; [by apply Hemit|].
  destruct (Lexer.is_identifier_char isalnum c) eqn:Hc; [|right; by eexists].
  rewrite (collect_identifier_first c rest [] column) by (by split).
  destruct (Lexer.collect_identifier isalnum rest _ _)
    as [[identifier rest'] column'] eqn:Hcollect.
  apply collect_identifier_spec in Hcollect as (chars&->&->&_&_).
  rewrite length_app in Hfuel |- *.
  match goal with
  | |- context [Lexer.tokenize_loop _ _ _ _ _ ?tokens'] =>
      destruct (IH rest' line column' tokens') as [(r&Hr&He&Hl)|He];
        [lia| | |by right]
  end.
  { apply Forall_app; split; [done|]. apply Forall_singleton. cbn.
    by case_bool_decide. }
  left. exists r. split; [done|]. split; [done|].
  rewrite length_app in Hl. cbn in Hl. lia.
Qed.

(** More fuel changes nothing. *)
Lemma tokenize_loop_stable fuel : ∀ fuel' source line column tokens,
  fuel ≤ fuel' →
  Lexer.tokenize_loop isalnum fuel source line column tokens ≠ Lexer.OutOfFuel →
  Lexer.tokenize_loop isalnum fuel' source line column tokens =
  Lexer.tokenize_loop isalnum fuel source line column tokens.
Proof.
  induction fuel as [|fuel IH]; intros fuel' source line column tokens Hle; [done|].
  destruct fuel' as [|fuel']; [lia|]. cbn [Lexer.tokenize_loop].
  destruct source as [|c rest]; [done|].
  repeat (case_bool_decide; [apply IH; lia|]).
  case_bool_decide.
  { destruct (Lexer.skip_comment _ _). apply IH. lia. }
  case_bool_decide; [apply IH; lia|].
  destruct (Lexer.is_identifier_char isalnum c); [|done].
  destruct (Lexer.collect_identifier _ _ _ _) as [[? ?] ?]. apply IH. lia.
Qed.

(** ** Tokens and positions *)

Lemma position_after_app position chars1 chars2 :
  position_after position (chars1 ++ chars2) =
  position_after (position_after position chars1) chars2.
Proof. apply foldl_app. Qed.

Lemma position_after_line chars : ∀ line column,
  Forall (λ c, c ≠ Lexer.newline) chars →
  position_after (line, column) chars = (line, column + length chars).
Proof.
  induction chars as [|c chars IH]; intros line column Hchars; cbn.
  - by rewrite Nat.add_0_r.
  - apply Forall_cons in Hchars as [Hc Hchars].
    rewrite bool_decide_false by done. cbn. rewrite IH by done. f_equal. lia.
Qed.

Section positions.
Context (Hnewline : isalnum Lexer.newline = false).
Context (source : list Lexer.char).

Lemma identifier_char_not_newline c : identifier_char isalnum c → c ≠ Lexer.newline.
Proof.
  intros [_ Hc] ->. unfold Lexer.is_identifier_char in Hc.
  rewrite Hnewline in Hc. done.
Qed.

Lemma tokenize_loop_located fuel : ∀ rest line column tokens consumed,
  source = consumed ++ rest →
  (line, column) = position_after (1, 1) consumed →
  Forall (located isalnum source) tokens →
  match Lexer.tokenize_loop isalnum fuel rest line column tokens with
  | Lexer.Done result => Forall (located isalnum source) result
  | Lexer.Raised e =>
      ∃ before after,
        source = before ++ Lexer.invalid_char e :: after ∧
        ¬ lexable isalnum (Lexer.invalid_char e) ∧
        (Lexer.error_line e, Lexer.error_column e) = position_after (1, 1) before
  | Lexer.OutOfFuel => True
  end.
Proof.
  induction fuel as [|fuel IH]; intros rest line column tokens consumed Hsource Hpos
    Htokens; [done|].
  cbn [Lexer.tokenize_loop]. destruct rest as [|c rest].
  { apply Forall_app. split; [done|]. apply Forall_singleton.
    exists consumed, [], []. rewrite app_nil_r in *. done. }
  assert (∀ chars rest' token line' column',
    c :: rest = chars ++ rest' →
    token_shape isalnum token chars →
    Parser.line token = line → Parser.column token = column →
    (line', column') = position_after (line, column) chars →
    match Lexer.tokenize_loop isalnum fuel rest' line' column' (tokens ++ [token]) with
    | Lexer.Done result => Forall (located isalnum source) result
    | Lexer.Raised e =>
        ∃ before after,
          source = before ++ Lexer.invalid_char e :: after ∧
          ¬ lexable isalnum (Lexer.invalid_char e) ∧
          (Lexer.error_line e, Lexer.error_column e) = position_after (1, 1) before
    | Lexer.OutOfFuel => True
    end) as Hemit.
  { intros chars rest' token line' column' Hrest Hshape Hline Hcolumn Hpos'.
    apply (IH rest' line' column' _ (consumed ++ chars)).
    - by rewrite Hsource, Hrest, app_assoc.
    - by rewrite position_after_app, <-Hpos.
    - apply Forall_app. split; [done|]. apply Forall_singleton.
      exists consumed, chars, rest'. rewrite Hsource, Hrest.
      split; [done|]. split; [done|]. by rewrite Hline, Hcolumn. }
  case_bool_decide as Htab.
  { apply (Hemit [c] rest); try done.
    - by rewrite Htab.
    - cbn. rewrite bool_decide_false; [done|]. by rewrite Htab. }
  case_bool_decide as Hnl.
  { apply (Hemit [c] rest); try done.
    - by rewrite Hnl.
    - cbn. by rewrite bool_decide_true. }
  case_bool_decide as Hspace.
  { apply (IH rest line (column + 1) tokens (consumed ++ [c])); [|
      |done].
    - by rewrite Hsource, <-app_assoc.
    - rewrite position_after_app, <-Hpos. cbn. by rewrite bool_decide_false. }
  case_bool_decide as Hcomment.
  { destruct (Lexer.skip_comment (c :: rest) column) as [rest' column'] eqn:Hskip.
    apply skip_comment_spec in Hskip as (skipped&Hrest&->&Hskipped).
    apply (IH rest' line _ tokens (consumed ++ skipped)); [| |done].
    - by rewrite Hsource, Hrest, app_assoc.
    - by rewrite position_after_app, <-Hpos, position_after_line. }
  case_bool_decide as Hk.
  { apply (Hemit [c] rest); try done.
    - split; [done|]. cbn. by exists c.
    - cbn. by rewrite bool_decide_false. }
  destruct (Lexer.is_identifier_char isalnum c) eqn:Hc.
  - destruct (Lexer.collect_identifier isalnum (c :: rest) [] column)
      as [[identifier rest'] column'] eqn:Hcollect.
    pose proof Hcollect as Hcollect'.
    rewrite collect_identifier_first in Hcollect' by (by split).
    apply collect_identifier_spec in Hcollect' as (chars'&Hid&_&_&_).
    apply collect_identifier_spec in Hcollect as (chars&->&Hrest&->&Hchars).
    cbn [app] in *. subst chars.
    assert (Forall (λ c, c ≠ Lexer.newline) (c :: chars')) as Hnonl.
    { eapply Forall_impl; [exact Hchars|]. apply identifier_char_not_newline. }
    apply (Hemit (c :: chars') rest'); try done.
    + split; [done|]. cbn [Parser.type].
      destruct (Lexer.startswith_marker (c :: chars')) eqn:Hm; done.
    + by rewrite position_after_line.
  - exists consumed, rest. split; [done|]. split; [|done]. cbn.
    intros [?|[?|[?|[?|[?|[?|?]]]]]]; try done; try congruence;
      apply Hspace; auto.
Qed.

End positions.

End lexer.

(** X20.  [tokenize] ends on every source text: it returns a token list
    that ends with its only end-of-input token and has at most one token per
    character besides, or it raises a [LexerError]; one loop iteration per
    character and one more suffice, the result being the same for every
    larger bound. *)
Theorem tokenize_total isalnum source fuel :
  (length source < fuel)%nat →
  let r := Lexer.tokenize isalnum fuel source in
  r = Lexer.tokenize isalnum (S (length source)) source ∧
  ((∃ tokens, r = Lexer.Done tokens ∧ eof_terminated tokens ∧
              (length tokens ≤ length source + 1)%nat) ∨
   (∃ e, r = Lexer.Raised e)).
Proof.
  intros Hfuel r.
  assert (r = Lexer.tokenize isalnum (S (length source)) source) as Hr.
  { apply tokenize_loop_stable; [lia|].
    destruct (tokenize_loop_total isalnum (S (length source)) source 1 1 [])
      as [(tokens&Ht&_)|(e&He)]; [lia|done|..]; congruence. }
  split; [exact Hr|]. clearbody r. subst r. unfold Lexer.tokenize.
  destruct (tokenize_loop_total isalnum (S (length source)) source 1 1 [])
    as [(tokens&Ht&Heof&Hlen)|(e&He)]; [lia|done|..].
  - left. exists tokens. by rewrite Ht.
  - right. by exists e.
Qed.

Lemma tokenize_total_witness :
  let r := Lexer.tokenize ascii_isalnum 20 example_source in
  r = Lexer.tokenize ascii_isalnum (S (length example_source)) example_source ∧
  ((∃ tokens, r = Lexer.Done tokens ∧ eof_terminated tokens ∧
              (length tokens ≤ length example_source + 1)%nat) ∨
   (∃ e, r = Lexer.Raised e)).
Proof. apply (tokenize_total ascii_isalnum example_source 20). cbn. lia. Defined.

(** X21.  A [LexerError] reports a character of the source that is neither
    white space, nor the comment marker, nor a keyword, nor an identifier
    character, with the line and the column of that character (given that the
    line break is not alphanumeric). *)
Theorem tokenize_error isalnum source fuel e :
  isalnum Lexer.newline = false →
  Lexer.tokenize isalnum fuel source = Lexer.Raised e →
  ∃ before after,
    source = (before ++ Lexer.invalid_char e :: after)%list ∧
    ¬ lexable isalnum (Lexer.invalid_char e) ∧
    (Lexer.error_line e, Lexer.error_column e) = position_after (1, 1)%nat before.
Proof.
  intros Hnewline Hr.
  pose proof (tokenize_loop_located isalnum Hnewline source fuel source 1 1 [] [])
    as H.
  unfold Lexer.tokenize in Hr. rewrite Hr in H. by apply H.
Qed.

Lemma tokenize_error_witness :
  ∃ before after,
    [0x7532; 10; 0x4E59; 0x21]%N = (before ++ 0x21%N :: after)%list ∧
    ¬ lexable ascii_isalnum 0x21%N ∧
    (2, 2)%nat = position_after (1, 1)%nat before.
Proof.
  apply (tokenize_error ascii_isalnum [0x7532; 10; 0x4E59; 0x21]%N 5
           (Lexer.mkLexerError 0x21%N 2 2)).
  - reflexivity.
  - vm_compute. reflexivity.
Defined.

(** X22.  Every token [tokenize] returns is made of consecutive characters
    of the source and carries the line and the column of the first of them:
    a tab, a line break, one keyword character, a run of identifier
    characters without keyword (a variable token exactly when the run starts
    with the variable marker), or nothing for the end-of-input token (given
    that the line break is not alphanumeric). *)
Theorem tokenize_located isalnum source fuel tokens :
  isalnum Lexer.newline = false →
  Lexer.tokenize isalnum fuel source = Lexer.Done tokens →
  Forall (located isalnum source) tokens.
Proof.
  intros Hnewline Hr.
  pose proof (tokenize_loop_located isalnum Hnewline source fuel source 1 1 [] [])
    as H.
  unfold Lexer.tokenize in Hr. rewrite Hr in H. by apply H.
Qed.

Lemma tokenize_located_witness :
  Forall (located ascii_isalnum example_source)
    [ Parser.mkToken Parser.KEYWORD "以" 1 1;
      Parser.mkToken Parser.IDENTIFIER "愛" 1 2;
      Parser.mkToken Parser.KEYWORD "為" 1 3;
      Parser.mkToken Parser.KEYWORD "動" 1 4;
      Parser.mkToken Parser.NEWLINE "
" 1 5;
      Parser.mkToken Parser.IDENTIFIER "甲" 2 1;
      Parser.mkToken Parser.IDENTIFIER "愛" 2 3;
      Parser.mkToken Parser.IDENTIFIER "乙" 2 5;
      Parser.mkToken Parser.NEWLINE "
" 2 9;
      Parser.mkToken Parser.EOF "" 3 1 ].
Proof.
  apply (tokenize_located ascii_isalnum example_source 15).
  - reflexivity.
  - vm_compute. reflexivity.
Defined.

Lemma parse_program_cases isalnum source fuel :
  (length source < fuel)%nat →
  parse_program isalnum fuel source =
    parse_program isalnum (S (length source)) source ∧
  ((∃ ast, parse_program isalnum fuel source = Lexer.Done (Ok ast)) ∨
   (∃ e, parse_program isalnum fuel source = Lexer.Done (Raise (ParseError e))) ∨
   (∃ e, parse_program isalnum fuel source = Lexer.Raised e)).
Proof.
  intros Hfuel.
  assert (Lexer.tokenize isalnum fuel source =
          Lexer.tokenize isalnum (S (length source)) source) as Htok.
  { apply tokenize_loop_stable; [lia|].
    destruct (tokenize_loop_total isalnum (S (length source)) source 1 1 [])
      as [(tokens&Ht&_)|(e&He)]; [lia|done|..]; congruence. }
  unfold parse_program. rewrite Htok. unfold Lexer.tokenize.
  destruct (tokenize_loop_total isalnum (S (length source)) source 1 1 [])
    as [(tokens&->&Heof&Hlen)|(e&->)]; [lia|done|..].
  - rewrite Nat.add_0_l in Hlen.
    pose proof (parse_program_internal_good tokens (length tokens) Heof ltac:(lia))
      as G.
    assert (∀ fuel', (length tokens ≤ fuel')%nat →
      Parser.parse_program_internal fuel' (new_parser tokens) =
      Parser.parse_program_internal (length tokens) (new_parser tokens)) as Hsame.
    { intros fuel' Hle.
      apply (stable_parse_program_loop (length tokens) fuel' [] Hle).
      intros Heq. unfold Parser.parse_program_internal in G. by rewrite Heq in G. }
    rewrite (Hsame fuel), (Hsame (S (length source))) by lia.
    split; [done|].
    destruct (Parser.parse_program_internal (length tokens) _)
      as [[ast self']|[]|]; try done.
    + left. by exists ast.
    + right. left. by eexists.
  - split; [done|]. right. right. by exists e.
Qed.

(** X23.  [parse_program] ends on every source text: it returns the
    statements, or raises a [ParseError] or a [LexerError], and nothing else;
    one loop iteration per character and one more suffice, the result being
    the same for every larger bound. *)
Theorem parse_program_total isalnum source fuel :
  (length source < fuel)%nat →
  let r := parse_program isalnum fuel source in
  r = parse_program isalnum (S (length source)) source ∧
  ((∃ ast, r = Lexer.Done (Ok ast)) ∨
   (∃ e, r = Lexer.Done (Raise (ParseError e))) ∨
   (∃ e, r = Lexer.Raised e)).
Proof. intros Hfuel r. by apply parse_program_cases. Qed.

Lemma parse_program_total_witness :
  let r := parse_program ascii_isalnum 20 example_source in
  r = parse_program ascii_isalnum (S (length example_source)) example_source ∧
  ((∃ ast, r = Lexer.Done (Ok ast)) ∨
   (∃ e, r = Lexer.Done (Raise (ParseError e))) ∨
   (∃ e, r = Lexer.Raised e)).
Proof. apply (parse_program_total ascii_isalnum example_source 20). cbn. lia. Defined.

(** The example source is the program of one verb declaration and one
    clause. *)
Example parse_program_example :
  parse_program ascii_isalnum 20 example_source =
  Lexer.Done
    (Ok [NVerbDeclaration (mkVerbDeclaration "愛");
         Expr (ESVOClause (mkSVOClause "甲" false "愛" false "乙" false))]).
Proof. vm_compute. reflexivity. Qed.

(** * The entry point *)

Lemma fixpoint_queries_ok ast rounds final :
  fixpoint rounds (initial_context ast) = Ok final →
  ∃ lines,
    print_queries (queries_of ast) final [] = (lines, Ok ()) ∧
    Forall2 (λ query line, evaluate_query (NQuery query) final = Ok line ∧
                           query_symbol line)
      (queries_of ast) lines.
Proof.
  intros Hfix. pose proof (initial_context_over ast) as Hover.
  pose proof (fixpoint_result_over _ rounds _ final Hover Hfix) as Hfinal.
  destruct (print_queries_ok (queries_of ast) final []) as [out Hout].
  { intros f Hf. destruct (over_facts _ _ Hfinal f Hf) as (e&->&_). by exists e. }
  exists out. split; [done|].
  apply print_queries_lines in Hout as (lines&->&Hlines). done.
Qed.

Lemma eval_program_lines ast rounds lines :
  eval_program rounds ast = (lines, Ok ()) →
  ∃ final, fixpoint rounds (initial_context ast) = Ok final ∧
    Forall2 (λ query line, evaluate_query (NQuery query) final = Ok line ∧
                           query_symbol line)
      (queries_of ast) lines.
Proof.
  unfold eval_program.
  destruct (fixpoint rounds (initial_context ast)) as [final| |] eqn:Hfix;
    [|by intros [= ? ?]..].
  destruct (fixpoint_queries_ok ast rounds final Hfix) as (out&Hout&Hlines).
  rewrite Hout. cbn. intros [= <-]. by exists final.
Qed.

(** Every line is taken: the loop prints them all. *)
Lemma print_queries_on_all stdout context queries : ∀ lines printed,
  Forall2 (λ query line, evaluate_query (NQuery query) context = Ok line ∧
                         query_symbol line) queries lines →
  Forall (accepted stdout) lines →
  Cli.print_queries_on stdout queries context printed =
  ((printed ++ (Cli.Line <$> lines))%list, Cli.Ended).
Proof.
  induction queries as [|query queries IH]; intros lines printed Hlines Hall.
  - apply Forall2_nil_inv_l in Hlines as ->. cbn. by rewrite app_nil_r.
  - apply Forall2_cons_inv_l in Hlines as (line&lines'&[Hq _]&Hlines&->).
    apply Forall_cons in Hall as [Hline Hall].
    cbn [Cli.print_queries_on]. rewrite Hq, Hline.
    rewrite (IH lines' _ Hlines Hall). cbn. by rewrite <-app_assoc.
Qed.

(** The first line the stream refuses ends the loop. *)
Lemma print_queries_on_refused stdout context before : ∀ queries text after printed,
  Forall2 (λ query line, evaluate_query (NQuery query) context = Ok line ∧
                         query_symbol line) queries (before ++ text :: after) →
  Forall (accepted stdout) before → stdout (Cli.Line text) = false →
  Cli.print_queries_on stdout queries context printed =
  ((printed ++ (Cli.Line <$> before))%list, Cli.Failed (Cli.PrintRaises text)).
Proof.
  induction before as [|line before IH]; intros queries text after printed Hlines
    Hall Htext; cbn [app] in Hlines;
    apply Forall2_cons_inv_r in Hlines as (query&queries'&[Hq _]&Hlines&->);
    cbn [Cli.print_queries_on]; rewrite Hq.
  - rewrite Htext. cbn. by rewrite app_nil_r.
  - apply Forall_cons in Hall as [Hline Hall]. rewrite Hline.
    rewrite (IH queries' text after _ Hlines Hall Htext). cbn.
    by rewrite <-app_assoc.
Qed.

(** The lines split at the first one the stream refuses, if there is one. *)
Lemma first_refused stdout (lines : list string) :
  Forall (accepted stdout) lines ∨
  ∃ before text after,
    lines = (before ++ text :: after)%list ∧ Forall (accepted stdout) before ∧
    stdout (Cli.Line text) = false.
Proof.
  induction lines as [|line lines IH]; [by left|].
  destruct (stdout (Cli.Line line)) eqn:Hline.
  - destruct IH as [Hall|(before&text&after&->&Hall&Htext)].
    + left. by constructor.
    + right. exists (line :: before), text, after.
      split; [done|]. split; [by constructor|done].
  - right. by exists [], line, lines.
Qed.

(** How [eval_program] ends on a stream: nothing fails but [print]. *)
Lemma eval_program_on_cases stdout rounds ast :
  match Cli.eval_program_on stdout rounds ast with
  | (printed, Cli.Ended) => True
  | (printed, Cli.Failed f) =>
      ∃ text, f = Cli.PrintRaises text ∧ query_symbol text ∧
        stdout (Cli.Line text) = false
  | (printed, Cli.Unfinished) => True
  end ∧
  ∀ f, Cli.RuntimeErrorReport f ∉ (Cli.eval_program_on stdout rounds ast).1.
Proof.
  unfold Cli.eval_program_on.
  pose proof (initial_context_over ast) as Hover.
  destruct (fixpoint rounds (initial_context ast)) as [final|e|] eqn:Hfix.
  - destruct (fixpoint_queries_ok ast rounds final Hfix) as (lines&_&Hlines).
    destruct (first_refused stdout lines) as [Hall|(before&text&after&->&Hall&Htext)].
    + rewrite (print_queries_on_all stdout final _ lines [] Hlines Hall).
      split; [done|]. intros f. cbn. by intros (?&?&_)%list_elem_of_fmap.
    + rewrite (print_queries_on_refused stdout final before _ text after []
                 Hlines Hall Htext).
      split.
      * exists text. split; [done|]. split; [|done].
        apply Forall2_app_inv_r in Hlines as (?&?&_&Hl&_).
        apply Forall2_cons_inv_r in Hl as (?&?&[_ Hs]&_). done.
      * intros f. cbn. by intros (?&?&_)%list_elem_of_fmap.
  - by destruct (fixpoint_no_raise _ rounds _ Hover e).
  - split; [done|]. intros f. cbn. by intros ?%elem_of_nil.
Qed.

Lemma eval_program_ends ast :
  ∃ rounds lines,
    eval_program rounds ast = (lines, Ok ()) ∧
    Forall query_symbol lines ∧ length lines = length (queries_of ast).
Proof.
  pose proof (initial_context_over ast) as Hover.
  set (N := program_names ast) in *. set (context := initial_context ast) in *.
  destruct (fixpoint_terminates N (size (universe N ∖ facts context)) context)
    as (final&last&Hfix&_); [done|done|].
  destruct (fixpoint_queries_ok ast _ final Hfix) as (lines&Hout&Hlines).
  exists (S (size (universe N ∖ facts context))), lines.
  split; [unfold eval_program; fold context; by rewrite Hfix, Hout|].
  split.
  - clear -Hlines. induction Hlines as [|q l qs ls [_ Hl] _ IH]; by constructor.
  - symmetry. by eapply Forall2_length.
Qed.

(** X24.  [main] takes its runtime-error branch only when [print] raises.
    For every source text, every stream and every number of rounds, a
    runtime-error report is printed only for one of the two symbols that the
    stream refused inside [eval_program].  On a stream that takes every text
    and with enough rounds, [main] ends with the lexer-error report and exit
    code 1, or with the parse-error report and exit code 1, or it returns
    after printing one of the two symbols for each query of the program.
    When the stream refuses one of the lines of a parsed program, [main]
    prints the lines before it, then the runtime-error report, and exits with
    code 1; if the stream refuses the report too, the exception leaves
    [main]. *)
Theorem main_outcome isalnum stdout source fuel :
  (length source < fuel)%nat →
  (∀ rounds f,
     Cli.RuntimeErrorReport f ∈ (Cli.main isalnum stdout fuel rounds source).1 →
     ∃ text, f = Cli.PrintRaises text ∧ query_symbol text ∧
       stdout (Cli.Line text) = false) ∧
  ((∀ text, stdout text = true) →
   ∃ rounds,
     let out := Cli.main isalnum stdout fuel rounds source in
     (∃ e, out = ([Cli.LexerErrorReport e], Cli.Exits 1)) ∨
     (∃ e, out = ([Cli.ParseErrorReport e], Cli.Exits 1)) ∨
     (∃ ast lines,
        parse_program isalnum fuel source = Lexer.Done (Ok ast) ∧
        out = (Cli.Line <$> lines, Cli.Returns) ∧
        Forall query_symbol lines ∧ length lines = length (queries_of ast))) ∧
  (∀ rounds ast lines before text after,
     parse_program isalnum fuel source = Lexer.Done (Ok ast) →
     eval_program rounds ast = (lines, Ok ()) →
     lines = (before ++ text :: after)%list →
     Forall (accepted stdout) before → stdout (Cli.Line text) = false →
     Cli.main isalnum stdout fuel rounds source =
     Cli.report_and_exit stdout (Cli.Line <$> before)
       (Cli.RuntimeErrorReport (Cli.PrintRaises text))).
Proof.
  intros Hfuel. split; [|split].
  - intros rounds f. unfold Cli.main.
    destruct (parse_program_cases isalnum source fuel Hfuel)
      as [_ [(ast&->)|[(e&->)|(e&->)]]].
    + destruct (eval_program_on_cases stdout rounds ast) as [Hend Hno].
      destruct (Cli.eval_program_on stdout rounds ast) as [printed [|f0|]];
        cbn [fst] in Hno; [by intros ?%Hno| |by intros ?%Hno].
      unfold Cli.report_and_exit.
      destruct (stdout (Cli.RuntimeErrorReport f0)); cbn [fst];
        [|by intros ?%Hno].
      intros [?%Hno|Heq%list_elem_of_singleton]%elem_of_app; [done|].
      injection Heq as ->. done.
    + unfold Cli.report_and_exit, Cli.report.
      destruct (stdout (Cli.ParseErrorReport e)); cbn.
      * by intros [=]%list_elem_of_singleton.
      * by intros ?%elem_of_nil.
    + unfold Cli.report_and_exit.
      destruct (stdout (Cli.LexerErrorReport e)); cbn.
      * by intros [=]%list_elem_of_singleton.
      * by intros ?%elem_of_nil.
  - intros Hall. unfold Cli.main.
    destruct (parse_program_cases isalnum source fuel Hfuel)
      as [_ [(ast&->)|[(e&->)|(e&->)]]].
    + destruct (eval_program_ends ast) as (rounds&lines&Heval&Hsym&Hlen).
      exists rounds. right. right. exists ast, lines.
      split; [done|]. split; [|done].
      apply eval_program_lines in Heval as (final&Hfix&Hlines).
      unfold Cli.eval_program_on. rewrite Hfix.
      rewrite (print_queries_on_all stdout final _ lines [] Hlines); [done|].
      apply Forall_forall. intros line _. apply Hall.
    + exists 0%nat. right. left. exists e.
      unfold Cli.report_and_exit, Cli.report. by rewrite Hall.
    + exists 0%nat. left. exists e. unfold Cli.report_and_exit. by rewrite Hall.
  - intros rounds ast lines before text after Hparse Heval -> Hbefore Htext.
    unfold Cli.main. rewrite Hparse.
    apply eval_program_lines in Heval as (final&Hfix&Hlines).
    unfold Cli.eval_program_on. rewrite Hfix.
    by rewrite (print_queries_on_refused stdout final before _ text after []
                  Hlines Hbefore Htext).
Qed.

Lemma main_outcome_witness :
  Cli.main ascii_isalnum ascii_stream 8 2 query_source =
  ([Cli.RuntimeErrorReport (Cli.PrintRaises "⊤")], Cli.Exits 1).
Proof.
  destruct (main_outcome ascii_isalnum ascii_stream query_source 8) as (_&_&Hrefused).
  { cbn. lia. }
  apply (Hrefused 2
           [Expr (EProposition (mkProposition "A" false));
            NQuery (mkQuery (EProposition (mkProposition "A" false)))]
           ["⊤"] [] "⊤" []).
  - vm_compute. reflexivity.
  - vm_compute. reflexivity.
  - reflexivity.
  - constructor.
  - reflexivity.
Defined.
